(** * The travel-entry store of [src/components/utilities/storage.ts]

    A shallow embedding of the record validator and of the CRUD engine
    that keeps the diary entries as one JSON text under one AsyncStorage
    key, with the properties of the specification proved about it.

    Conventions of the model.
    - A JavaScript value is a tree ([value]).  An object is a finite map
      from property names to values, an array has its elements and no
      other property.  Functions (so [toJSON] methods too), symbols and
      cyclic structures are not data and are left out.
    - A number is [NaN], an infinity or a finite value, and a finite value
      is an integer.  The source compares numbers and subtracts
      timestamps, nothing else; a fraction (a coordinate) can be read in a
      smaller unit, every finite double being a whole multiple of the
      least subnormal, and [===], the sign of a difference and the JSON
      round trip do not depend on the unit.  +0 and -0, which [===] and
      JSON identify, are one number.
    - The objects that callers hold live in a heap, so that the caller
      sees what [saveEntry] writes to [entry.id]; [updateEntry] does not
      change its argument and takes it as a value.  An object that a
      caller holds may be frozen, or have an [id] that cannot be written:
      the module is strict code, so the write to [entry.id] then throws.
    - A stored text is represented by what [JSON.parse] makes of it: the
      empty text, a text that does not parse, or the parsed [json] value.
    - [console.*] calls do not influence any result and are left out.
    - Every [await] completes, with a value or with a rejection; which
      AsyncStorage calls reject is part of the [world]. *)

From Stdlib Require Import ZArith NArith Ascii String.
From stdpp Require Import gmap strings list fin_maps sorting.

Local Open Scope string_scope.
Local Open Scope Z_scope.
Local Set Warnings "-register-all".

(** ** Values *)

Inductive number :=
| NaN
| Inf (negative : bool)
| Fin (z : Z).

Inductive value :=
| VUndefined
| VNull
| VBool (b : bool)
| VNum (n : number)
| VStr (s : string)
| VBigInt (z : Z)
| VArr (elements : list value)
| VObj (properties : gmap string value).

(** What [JSON.parse] can return.  [JInf] is a numeric literal beyond the
    range of a double, which parses to an infinity. *)
Inductive json :=
| JNull
| JBool (b : bool)
| JNum (z : Z)
| JInf (negative : bool)
| JStr (s : string)
| JArr (elements : list json)
| JObj (properties : gmap string json).

(** The text held under a storage key. *)
Inductive text :=
| TextEmpty
| TextMalformed
| TextJson (j : json).

Inductive exn :=
| Error (message : string)
| TypeError
| SyntaxError
| StorageFailure.

(** ** Results of computations that may throw *)

Inductive result (A : Type) :=
| Ret (a : A)
| Throw (e : exn).
Arguments Ret {A} a.
Arguments Throw {A} e.

Definition bindR {A B} (r : result A) (k : A → result B) : result B :=
  match r with
  | Ret a => k a
  | Throw e => Throw e
  end.

Notation "'let?' x := r 'in' k" := (bindR r (λ x, k))
  (at level 10, x name, r at level 100, k at level 200, only parsing).

(** ** Primitive operations on values *)

Definition typeof (v : value) : string :=
  match v with
  | VUndefined => "undefined"
  | VNull => "object"
  | VBool _ => "boolean"
  | VNum _ => "number"
  | VStr _ => "string"
  | VBigInt _ => "bigint"
  | VArr _ => "object"
  | VObj _ => "object"
  end.

(** [!v] is [negb (truthy v)]. *)
Definition truthy (v : value) : bool :=
  match v with
  | VUndefined | VNull => false
  | VBool b => b
  | VNum NaN => false
  | VNum (Inf _) => true
  | VNum (Fin z) => negb (z =? 0)
  | VStr s => negb (String.eqb s "")
  | VBigInt z => negb (z =? 0)
  | VArr _ | VObj _ => true
  end.

Definition isArray (v : value) : bool :=
  match v with
  | VArr _ => true
  | _ => false
  end.

Definition is_undefined (v : value) : bool :=
  match v with
  | VUndefined => true
  | _ => false
  end.

(** [v[k]] and [v.k], for the property names of the source, none of which
    is a built-in of arrays or of primitive wrappers: reading off
    [undefined] or [null] throws, an object answers with its own property,
    anything else with [undefined]. *)
Definition get (v : value) (k : string) : result value :=
  match v with
  | VUndefined | VNull => Throw TypeError
  | VObj m => Ret (default VUndefined (m !! k))
  | _ => Ret VUndefined
  end.

(** [v.k = x] on an object. *)
Definition set (v : value) (k : string) (x : value) : value :=
  match v with
  | VObj m => VObj (<[k := x]> m)
  | _ => v
  end.

Definition number_eq (a b : number) : bool :=
  match a, b with
  | Fin x, Fin y => x =? y
  | Inf s, Inf t => Bool.eqb s t
  | _, _ => false
  end.

(** [a === b].  Two arrays or objects are equal when they are the same
    object; the comparisons of the source have a freshly parsed string or
    number on one side, never a shared object. *)
Definition strict_eq (a b : value) : bool :=
  match a, b with
  | VUndefined, VUndefined => true
  | VNull, VNull => true
  | VBool x, VBool y => Bool.eqb x y
  | VNum x, VNum y => number_eq x y
  | VStr x, VStr y => String.eqb x y
  | VBigInt x, VBigInt y => x =? y
  | _, _ => false
  end.

(** [b - a] on numbers; on finite operands the difference is exact (its
    rounding to a double keeps the sign). *)
Definition number_sub (b a : number) : number :=
  match b, a with
  | NaN, _ | _, NaN => NaN
  | Inf s, Inf t => if Bool.eqb s t then NaN else Inf s
  | Inf s, Fin _ => Inf s
  | Fin _, Inf t => Inf (negb t)
  | Fin x, Fin y => Fin (x - y)
  end.

(** The operand of [-].  The source subtracts the [createdAt] fields of
    validated entries only, which are numbers; the conversion of other
    values to numbers is not modelled. *)
Definition to_number (v : value) : number :=
  match v with
  | VNum n => n
  | _ => NaN
  end.

(** ** The record validator *)

Definition requiredFields : list (string * string) :=
  [ ("id", "string");
    ("imageUri", "string");
    ("address", "string");
    ("latitude", "number");
    ("longitude", "number");
    ("createdAt", "number") ].

(** The loop over [requiredFields]: [false] when it returns early. *)
Fixpoint check_required (entry : value) (fields : list (string * string))
  : result bool :=
  match fields with
  | [] => Ret true
  | (name, type) :: rest =>
      let? x := get entry name in
      if negb (String.eqb (typeof x) type) then Ret false
      else check_required entry rest
  end.

Definition validateEntry (entry : value) : result bool :=
  if negb (truthy entry) || negb (String.eqb (typeof entry) "object")
  then Ret false
  else
    let? ok := check_required entry requiredFields in
    if negb ok then Ret false else
    let? title := get entry "title" in
    if negb (is_undefined title) && negb (String.eqb (typeof title) "string")
    then Ret false else
    let? notes := get entry "notes" in
    if negb (is_undefined notes) && negb (String.eqb (typeof notes) "string")
    then Ret false else
    let? tags := get entry "tags" in
    if negb (is_undefined tags) && negb (isArray tags)
    then Ret false else
    let? weather := get entry "weather" in
    if negb (is_undefined weather) && negb (String.eqb (typeof weather) "object")
    then Ret false else
    Ret true.

(** [entries.every(f)] for a callback that may throw. *)
Fixpoint every (f : value → result bool) (entries : list value) : result bool :=
  match entries with
  | [] => Ret true
  | e :: rest =>
      let? ok := f e in
      if ok then every f rest else Ret false
  end.

Definition validateEntries (entries : value) : result bool :=
  match entries with
  | VArr l => every validateEntry l
  | _ => Ret false
  end.

(** ** JSON *)

(** [JSON.parse] of a stored text. *)
Fixpoint of_json (j : json) : value :=
  match j with
  | JNull => VNull
  | JBool b => VBool b
  | JNum z => VNum (Fin z)
  | JInf s => VNum (Inf s)
  | JStr s => VStr s
  | JArr l => VArr (map of_json l)
  | JObj m => VObj (of_json <$> m)
  end.

Definition JSON_parse (s : text) : result value :=
  match s with
  | TextJson j => Ret (of_json j)
  | _ => Throw SyntaxError
  end.

(** [JSON.stringify] throws on a BigInt anywhere in its argument. *)
Fixpoint has_bigint (v : value) : bool :=
  match v with
  | VBigInt _ => true
  | VArr l => existsb has_bigint l
  | VObj m => map_fold (λ _ x found, has_bigint x || found) false m
  | _ => false
  end.

(** What the text written by [JSON.stringify] parses to: a property whose
    value is [undefined] is left out, an [undefined] array element and a
    number that is not finite are written as [null]. *)
Fixpoint to_json (v : value) : json :=
  match v with
  | VUndefined => JNull
  | VNull => JNull
  | VBool b => JBool b
  | VNum (Fin z) => JNum z
  | VNum _ => JNull
  | VStr s => JStr s
  | VBigInt _ => JNull
  | VArr l => JArr (map to_json l)
  | VObj m =>
      JObj (omap (λ x, if is_undefined x then None else Some (to_json x)) m)
  end.

(** The text [JSON.stringify] writes for an array. *)
Definition encoded (entries : list value) : text :=
  TextJson (JArr (map to_json entries)).

(** [JSON.stringify(entries)] at an array, its only use in the source. *)
Definition JSON_stringify (entries : list value) : result text :=
  if existsb has_bigint entries then Throw TypeError
  else Ret (encoded entries).

(** [JSON.parse(JSON.stringify(v))] for a value without BigInt. *)
Definition reparse (v : value) : value := of_json (to_json v).

(** ** The world: AsyncStorage, the caller's objects, clock and randomness *)

Inductive call :=
| GetItem (key : string)
| SetItem (key : string) (s : text)
| RemoveItem (key : string).

Record world := World {
  storage : gmap string text;   (* the contents of AsyncStorage *)
  faults : list bool;           (* whether the coming storage calls reject *)
  calls : list call;            (* the storage calls made so far, latest first *)
  heap : list value;            (* the objects the callers hold *)
  clock : list N;               (* the coming readings of Date.now() *)
  random : list string;         (* the coming Math.random().toString(36) *)
  frozen : list nat             (* the objects whose [id] cannot be written *)
}.

Definition M (A : Type) : Type := world → result A * world.

Definition ret {A} (a : A) : M A := λ w, (Ret a, w).
Definition throw {A} (e : exn) : M A := λ w, (Throw e, w).
Definition lift {A} (r : result A) : M A := λ w, (r, w).

Definition bind {A B} (c : M A) (k : A → M B) : M B :=
  λ w, match c w with
       | (Ret a, w') => k a w'
       | (Throw e, w') => (Throw e, w')
       end.

Definition try_catch {A} (body : M A) (handler : exn → M A) : M A :=
  λ w, match body w with
       | (Ret a, w') => (Ret a, w')
       | (Throw e, w') => handler e w'
       end.

Notation "x <- c ;; k" := (bind c (λ x, k))
  (at level 100, c at next level, right associativity, only parsing).
Notation "c ;;; k" := (bind c (λ _, k))
  (at level 100, right associativity, only parsing).

Definition StorageKeys_ENTRIES : string := "@travel_diary_entries".

(** An AsyncStorage call takes the next entry of [faults] (none left: it
    succeeds) and is recorded; a rejected call changes nothing else. *)
Definition next_rejects (w : world) : bool :=
  match faults w with
  | true :: _ => true
  | _ => false
  end.

Definition called (c : call) (w : world) : world :=
  World (storage w) (tail (faults w)) (c :: calls w)
        (heap w) (clock w) (random w) (frozen w).

Definition with_storage (s : gmap string text) (w : world) : world :=
  World s (faults w) (calls w) (heap w) (clock w) (random w) (frozen w).

Definition storage_call (c : call) : M unit :=
  λ w, (if next_rejects w then Throw StorageFailure else Ret tt, called c w).

Definition AsyncStorage_getItem (key : string) : M (option text) :=
  storage_call (GetItem key) ;;;
  λ w, (Ret (storage w !! key), w).

Definition AsyncStorage_setItem (key : string) (s : text) : M unit :=
  storage_call (SetItem key s) ;;;
  λ w, (Ret tt, with_storage (<[key := s]> (storage w)) w).

Definition AsyncStorage_removeItem (key : string) : M unit :=
  storage_call (RemoveItem key) ;;;
  λ w, (Ret tt, with_storage (delete key (storage w)) w).

Definition with_heap (h : list value) (w : world) : world :=
  World (storage w) (faults w) (calls w) h (clock w) (random w) (frozen w).

Definition with_clock (c : list N) (w : world) : world :=
  World (storage w) (faults w) (calls w) (heap w) c (random w) (frozen w).

Definition with_random (r : list string) (w : world) : world :=
  World (storage w) (faults w) (calls w) (heap w) (clock w) r (frozen w).

(** A caller's object; nothing at the address reads as [undefined]. *)
Definition deref (r : nat) : M value :=
  λ w, (Ret (default VUndefined (heap w !! r)), w).

(** Whether the object at the address is frozen, or has an [id] that
    cannot be written. *)
Definition is_frozen (r : nat) (w : world) : bool :=
  existsb (Nat.eqb r) (frozen w).

(** [entry.k = x] on the caller's object, in strict code: the write throws
    when the object does not take it. *)
Definition assign (r : nat) (k : string) (x : value) : M unit :=
  λ w, if is_frozen r w then (Throw TypeError, w) else
       (Ret tt,
        match heap w !! r with
        | Some v => with_heap (<[r := set v k x]> (heap w)) w
        | None => w
        end).

Definition Date_now : M N :=
  λ w, (Ret (hd 0%N (clock w)), with_clock (tail (clock w)) w).

(** [Math.random().toString(36)], a text such as [0.4fzyo82mvyr]; [0] when
    the random number is zero. *)
Definition Math_random_toString36 : M string :=
  λ w, (Ret (hd "0" (random w)), with_random (tail (random w)) w).

(** ** Array and string helpers of the platform *)

Definition digit36 (d : N) : ascii :=
  if (d <? 10)%N then ascii_of_N (48 + d) else ascii_of_N (87 + d).

Fixpoint toString36_aux (fuel : nat) (n : N) (acc : string) : string :=
  match fuel with
  | O => acc
  | S fuel' =>
      let acc' := String (digit36 (n mod 36)) acc in
      if (n / 36 =? 0)%N then acc' else toString36_aux fuel' (n / 36)%N acc'
  end.

(** [n.toString(36)] for a non-negative integer. *)
Definition toString36 (n : N) : string :=
  toString36_aux (S (N.to_nat (N.log2 n))) n "".

(** [s.substr(start, len)]. *)
Definition substr (start len : nat) (s : string) : string :=
  substring start len s.

(** [l.some(p)], [l.find(p)], [l.findIndex(p)], [l.filter(p)]. *)
Definition some (p : value → bool) (l : list value) : bool := existsb p l.
Definition find (p : value → bool) (l : list value) : option value :=
  List.find p l.
Fixpoint findIndex (p : value → bool) (l : list value) : option nat :=
  match l with
  | [] => None
  | x :: rest => if p x then Some O else S <$> findIndex p rest
  end.
Definition filterA (p : value → bool) (l : list value) : list value :=
  List.filter p l.

(** [n > 0], which is false of [NaN]. *)
Definition positive (n : number) : bool :=
  match n with
  | Inf s => negb s
  | Fin z => 0 <? z
  | NaN => false
  end.

(** [Array.prototype.sort] with a comparator: a stable sort, in which [x]
    goes after [y] exactly when the comparator is positive on [(x, y)]. *)
Fixpoint sort_insert (cmp : value → value → number) (x : value)
  (l : list value) : list value :=
  match l with
  | [] => [x]
  | y :: rest =>
      if positive (cmp x y) then y :: sort_insert cmp x rest
      else x :: y :: rest
  end.

Definition sort (cmp : value → value → number) (l : list value) : list value :=
  foldr (sort_insert cmp) [] l.

(** The field [createdAt] of a validated entry, as the operand of [-]. *)
Definition createdAt (e : value) : number :=
  match get e "createdAt" with
  | Ret v => to_number v
  | Throw _ => NaN
  end.

(** [(a, b) => b.createdAt - a.createdAt] *)
Definition newest_first (a b : value) : number :=
  number_sub (createdAt b) (createdAt a).

(** [e.k] for an element [e] of a validated collection: an object, so the
    read does not throw. *)
Definition field (e : value) (k : string) : value :=
  match get e k with
  | Ret v => v
  | Throw _ => VUndefined
  end.

(** ** The entry store *)

(** The [try] block of [getEntries]. *)
Definition getEntries_try : M (list value) :=
  entriesString <- AsyncStorage_getItem StorageKeys_ENTRIES ;;
  match entriesString with
  | None | Some TextEmpty => ret []
  | Some s =>
      parsedData <- lift (JSON_parse s) ;;
      ok <- lift (validateEntries parsedData) ;;
      if negb ok then ret [] else
      match parsedData with
      | VArr l => ret (sort newest_first l)
      | _ => throw TypeError
      end
  end.

Definition getEntries : M (list value) :=
  try_catch getEntries_try (λ _, ret []).

(** [e => e.id === id] *)
Definition has_id (id : value) (e : value) : bool :=
  strict_eq (field e "id") id.

(** The [try] block of [saveEntry]; [entry] is the address of the caller's
    object, which the block may change. *)
Definition saveEntry_try (entry : nat) : M bool :=
  e <- deref entry ;;
  ok <- lift (validateEntry e) ;;
  if negb ok then throw (Error "Invalid entry data structure") else
  existingEntries <- getEntries ;;
  id <- lift (get e "id") ;;
  (if some (has_id id) existingEntries then
     now <- Date_now ;;
     rnd <- Math_random_toString36 ;;
     assign entry "id"
       (VStr ("entry_" ++ toString36 now ++ "_" ++ substr 2 9 rnd))
   else ret tt) ;;;
  e <- deref entry ;;
  let updatedEntries := (existingEntries ++ [e])%list in
  s <- lift (JSON_stringify updatedEntries) ;;
  AsyncStorage_setItem StorageKeys_ENTRIES s ;;;
  currentEntries <- getEntries ;;
  id <- lift (get e "id") ;;
  let wasSaved := some (has_id id) currentEntries in
  if negb wasSaved then ret false else ret true.

Definition saveEntry (entry : nat) : M bool :=
  try_catch (saveEntry_try entry) (λ _, ret false).

Definition getEntryById_try (id : value) : M value :=
  entries <- getEntries ;;
  let entry := default VUndefined (find (has_id id) entries) in
  ret (if truthy entry then entry else VNull).

Definition getEntryById (id : value) : M value :=
  try_catch (getEntryById_try id) (λ _, ret VNull).

Definition removeEntry_try (id : value) : M bool :=
  if negb (truthy id) || negb (String.eqb (typeof id) "string")
  then throw (Error "Invalid entry ID") else
  existingEntries <- getEntries ;;
  let entryExists := some (has_id id) existingEntries in
  if negb entryExists then ret false else
  let updatedEntries := filterA (λ e, negb (has_id id e)) existingEntries in
  s <- lift (JSON_stringify updatedEntries) ;;
  AsyncStorage_setItem StorageKeys_ENTRIES s ;;;
  currentEntries <- getEntries ;;
  let wasRemoved := negb (some (has_id id) currentEntries) in
  if negb wasRemoved then ret false else ret true.

Definition removeEntry (id : value) : M bool :=
  try_catch (removeEntry_try id) (λ _, ret false).

Definition updateEntry_try (updatedEntry : value) : M bool :=
  ok <- lift (validateEntry updatedEntry) ;;
  if negb ok then throw (Error "Invalid entry data structure") else
  existingEntries <- getEntries ;;
  id <- lift (get updatedEntry "id") ;;
  match findIndex (has_id id) existingEntries with
  | None => ret false
  | Some entryIndex =>
      let existingEntries := <[entryIndex := updatedEntry]> existingEntries in
      s <- lift (JSON_stringify existingEntries) ;;
      AsyncStorage_setItem StorageKeys_ENTRIES s ;;;
      currentEntries <- getEntries ;;
      createdAt <- lift (get updatedEntry "createdAt") ;;
      let updatedInStorage :=
        some (λ e, has_id id e && strict_eq (field e "createdAt") createdAt)
             currentEntries in
      if negb updatedInStorage then ret false else ret true
  end.

Definition updateEntry (updatedEntry : value) : M bool :=
  try_catch (updateEntry_try updatedEntry) (λ _, ret false).

Definition clearAllEntries_try : M bool :=
  AsyncStorage_removeItem StorageKeys_ENTRIES ;;;
  currentEntries <- getEntries ;;
  if (0 <? length currentEntries)%nat then ret false else ret true.

Definition clearAllEntries : M bool :=
  try_catch clearAllEntries_try (λ _, ret false).

Definition getEntryCount_try : M nat :=
  entries <- getEntries ;;
  ret (length entries).

Definition getEntryCount : M nat :=
  try_catch getEntryCount_try (λ _, ret O).

(** Its output goes to the console only; the encoding of the entries, made
    for its length, may throw. *)
Definition debugStorage_try : M unit :=
  entries <- getEntries ;;
  _ <- lift (JSON_stringify entries) ;;
  ret tt.

Definition debugStorage : M unit :=
  try_catch debugStorage_try (λ _, ret tt).

(** ** The persisted collection as a function of the world *)

Definition valid (v : value) : bool :=
  match validateEntry v with
  | Ret b => b
  | Throw _ => false
  end.

(** What [getEntries] makes of the text under the key. *)
Definition decode (s : option text) : list value :=
  match s with
  | Some (TextJson j) =>
      match of_json j with
      | VArr l => if forallb valid l then sort newest_first l else []
      | _ => []
      end
  | _ => []
  end.

(** The persisted collection. *)
Definition stored (w : world) : list value :=
  decode (storage w !! StorageKeys_ENTRIES).

(** What the next [getEntries] returns. *)
Definition read (w : world) : list value :=
  if next_rejects w then [] else stored w.

Definition ids (l : list value) : list value :=
  map (λ e, field e "id") l.

(** The identifier the next collision is resolved with. *)
Definition generated_id (w : world) : value :=
  VStr ("entry_" ++ toString36 (hd 0%N (clock w)) ++ "_"
        ++ substr 2 9 (hd "0" (random w))).

(** The world after the collision branch of [saveEntry] has run on the
    object [e] at address [r]. *)
Definition renamed (r : nat) (e : value) (w : world) : world :=
  with_heap (<[r := set e "id" (generated_id w)]> (heap w))
    (with_random (tail (random w)) (with_clock (tail (clock w)) w)).

(** Whether a computation ends by throwing. *)
Definition throws {A} (c : M A) (w : world) : bool :=
  match c w with
  | (Throw _, _) => true
  | _ => false
  end.

(** ** The schema in the words of the specification *)

(** A field of a value; a value without that field, and any value that is
    not a record, has it absent, which reads as [undefined]. *)
Definition property (v : value) (k : string) : value :=
  match v with
  | VObj m => default VUndefined (m !! k)
  | _ => VUndefined
  end.

Definition is_string (v : value) : bool :=
  match v with VStr _ => true | _ => false end.
Definition is_numeric (v : value) : bool :=
  match v with VNum _ => true | _ => false end.
Definition is_sequence (v : value) : bool :=
  match v with VArr _ => true | _ => false end.
(** A structured value is one whose [typeof] is [object]. *)
Definition is_structured (v : value) : bool :=
  match v with VNull | VArr _ | VObj _ => true | _ => false end.
(** An optional field is absent, or has the shape. *)
Definition optional (shape : value → bool) (v : value) : bool :=
  is_undefined v || shape v.

Definition schema (v : value) : bool :=
  is_structured v
  && is_string (property v "id")
  && is_string (property v "imageUri")
  && is_string (property v "address")
  && is_numeric (property v "latitude")
  && is_numeric (property v "longitude")
  && is_numeric (property v "createdAt")
  && optional is_string (property v "title")
  && optional is_string (property v "notes")
  && optional is_sequence (property v "tags")
  && optional is_structured (property v "weather").

(** ** The declared type *)

Definition is_record (v : value) : bool :=
  match v with VObj _ => true | _ => false end.

Definition weather_type (v : value) : bool :=
  is_record v
  && optional is_numeric (property v "temperature")
  && optional is_string (property v "conditions")
  && optional is_numeric (property v "humidity").

Definition tags_type (v : value) : bool :=
  match v with
  | VArr l => forallb is_string l
  | _ => false
  end.

(** The interface [TravelEntry] of the types module: the tags are strings,
    the weather is a record of optional numbers and a string. *)
Definition TravelEntry (v : value) : bool :=
  is_record v
  && is_string (property v "id")
  && is_string (property v "imageUri")
  && is_string (property v "address")
  && is_numeric (property v "latitude")
  && is_numeric (property v "longitude")
  && is_numeric (property v "createdAt")
  && optional is_string (property v "title")
  && optional is_string (property v "notes")
  && optional tags_type (property v "tags")
  && optional weather_type (property v "weather").

(** [a <= b] on numbers. *)
Definition number_le (a b : number) : bool :=
  match a, b with
  | NaN, _ | _, NaN => false
  | Inf true, _ => true
  | _, Inf false => true
  | Fin x, Fin y => x <=? y
  | _, _ => false
  end.

(** [a] is at least as new as [b]: the order of [createdAt] descending. *)
Definition newer_or_equal (a b : value) : Prop :=
  number_le (createdAt b) (createdAt a) = true.

(** ** Sample entries and worlds *)

(** An entry with the six required fields. *)
Definition sample (id : string) (created : Z) : value :=
  VObj (list_to_map
    [ ("id", VStr id); ("imageUri", VStr "file:///photo.jpg");
      ("address", VStr "12 Harbour Road");
      ("latitude", VNum (Fin 48)); ("longitude", VNum (Fin 2));
      ("createdAt", VNum (Fin created)) ]).

(** [{ ...e, k: x }] *)
Definition having (k : string) (x : value) (e : value) : value := set e k x.

(** [e] without its property [k]. *)
Definition lacking (k : string) (e : value) : value :=
  match e with
  | VObj m => VObj (delete k m)
  | _ => e
  end.

(** A world with the given text under the key, no rejected call to come,
    the given objects with the callers, clock and randomness. *)
Definition world_of (s : option text) (objects : list value)
  (times : list N) (randoms : list string) : world :=
  World (match s with
         | Some t => {[ StorageKeys_ENTRIES := t ]}
         | None => ∅
         end)
        [] [] objects times randoms [].

Definition with_faults (f : list bool) (w : world) : world :=
  World (storage w) f (calls w) (heap w) (clock w) (random w) (frozen w).

(** The world in which the objects at the addresses [f] are frozen. *)
Definition with_frozen (f : list nat) (w : world) : world :=
  World (storage w) (faults w) (calls w) (heap w) (clock w) (random w) f.

Definition optional_fields : list string :=
  ["title"; "notes"; "tags"; "weather"].

(** An identifier of the generated form, and the clock reading and random
    text that generate it. *)
Definition generated_sample : string := "entry_loyw3v28_4fzyo82mv".

(** A world with an empty storage in which two callers hold an entry each,
    both with the identifier [generated_sample]. *)
Definition twice : world :=
  world_of None
    [sample generated_sample 10; sample generated_sample 20]
    [1700000000000%N] ["0.4fzyo82mvyr"].

(** A world with two entries stored. *)
Definition two_stored : world :=
  world_of (Some (encoded [sample "a" 10; sample "b" 30])) [] [] [].

(** A world with one entry stored in which two callers hold an entry each,
    both with the identifier [a]. *)
Definition same_id_twice : world :=
  world_of (Some (encoded [sample "x" 5]))
    [sample "a" 10; sample "a" 20]
    [1700000000000%N] ["0.4fzyo82mvyr"].

(** An entry of the declared type whose weather has the temperature
    [NaN]. *)
Definition stormy : value :=
  having "weather" (VObj {[ "temperature" := VNum NaN ]}) (sample "a" 10).

(** A world that stores an entry with the identifier [generated_sample]
    and an entry with the identifier [a], in which a caller holds another
    entry with the identifier [a]. *)
Definition crowded : world :=
  world_of (Some (encoded [sample generated_sample 30; sample "a" 5]))
    [sample "a" 10] [1700000000000%N] ["0.4fzyo82mvyr"].

(** The size of a value and of a parsed value, for induction through
    arrays and records. *)
Fixpoint vsize (v : value) : nat :=
  match v with
  | VArr l => S (foldr (λ x n, vsize x + n)%nat O l)
  | VObj m => S (map_fold (λ _ x n, vsize x + n)%nat O m)
  | _ => 1%nat
  end.

Fixpoint jsize (j : json) : nat :=
  match j with
  | JArr l => S (foldr (λ x n, jsize x + n)%nat O l)
  | JObj m => S (map_fold (λ _ x n, jsize x + n)%nat O m)
  | _ => 1%nat
  end.

(** An entry whose sort key is a number that compares. *)
Definition dated (e : value) : Prop := createdAt e ≠ NaN.

(** ** The other storage keys of the types module *)

Definition StorageKeys_THEME : string := "@travel_diary_theme".
Definition StorageKeys_APP_OPENED_COUNT : string := "@travel_diary_opened_count".
Definition StorageKeys_FIRST_LAUNCH : string := "@travel_diary_first_launch".

(** A world that holds a theme beside two stored entries. *)
Definition themed : world :=
  World (<[StorageKeys_THEME := TextJson (JStr "dark")]> (storage two_stored))
        [] [] [sample "c" 40] [] [] [].

(** The world [w'] is [w] after one [getItem] call and nothing else. *)
Definition only_read (w w' : world) : Prop :=
  storage w' = storage w ∧ heap w' = heap w
  ∧ clock w' = clock w ∧ random w' = random w
  ∧ calls w' = GetItem StorageKeys_ENTRIES :: calls w.

(** A stored collection in which two entries share an identifier. *)
Definition shared_id : world :=
  world_of (Some (encoded [sample "a" 10; sample "b" 30; sample "a" 20]))
           [] [] [].

(** Every entry of the persisted collection reads back as itself when it
    is written and parsed again. *)
Definition canonical (w : world) : Prop :=
  Forall (λ e, reparse e = e) (stored w).

(** A world that stores an entry with the identifier [a], in which a
    caller holds an entry with that identifier and a BigInt inside. *)
Definition counted : world :=
  world_of (Some (encoded [sample "a" 5]))
    [having "visits" (VBigInt 3) (sample "a" 10)]
    [1700000000000%N] ["0.4fzyo82mvyr"].

(** A number that [JSON.stringify] writes as a number. *)
Definition is_finite (v : value) : bool :=
  match v with
  | VNum (Fin _) => true
  | _ => false
  end.

(** The three required numbers of an entry are finite. *)
Definition finite_numbers (e : value) : bool :=
  is_finite (property e "latitude")
  && is_finite (property e "longitude")
  && is_finite (property e "createdAt").

(** Whether the storage call after the next [n] ones is rejected. *)
Definition rejects (n : nat) (w : world) : bool := nth n (faults w) false.

(** An entry that the validator accepts and that has no latitude a text
    can hold. *)
Definition nowhere : value := having "latitude" (VNum NaN) (sample "b" 20).

(** The property names the validator looks at. *)
Definition known_fields : list string :=
  (map fst requiredFields ++ optional_fields)%list.

(** Whether an entry was created at the time [n]. *)
Definition created_at (n : number) (e : value) : bool :=
  number_eq (createdAt e) n.

(** A stored collection in which two entries were created at the same
    time. *)
Definition same_age : world :=
  world_of (Some (encoded [sample "a" 10; sample "b" 30; sample "c" 10]))
           [] [] [].

(** The key a storage call is about. *)
Definition key_of (c : call) : string :=
  match c with
  | GetItem k | SetItem k _ | RemoveItem k => k
  end.

(** The world [w'] is [w] after at most three storage calls, all about the
    entries key, each of which has taken its turn in [faults]. *)
Definition few_calls (w w' : world) : Prop :=
  ∃ cs, calls w' = (cs ++ calls w)%list
        ∧ (length cs ≤ 3)%nat
        ∧ Forall (λ c, key_of c = StorageKeys_ENTRIES) cs
        ∧ faults w' = drop (length cs) (faults w).

(** The callers' objects, the clock and the random numbers of [w'] are
    those of [w]. *)
Definition same_objects (w w' : world) : Prop :=
  heap w' = heap w ∧ clock w' = clock w ∧ random w' = random w.

(** A world in which a caller holds one object, with nothing stored. *)
Definition one_object : world :=
  world_of None [sample "a" 10] [1700000000000%N] ["0.4fzyo82mvyr"].

(** ** The permission requests

    The functions of the permissions module ask the platform modules of
    Expo and show an alert.  The platform is external: what its calls
    answer, and which of them are rejected, is part of the [device], and
    the calls, the alerts and the links opened are recorded there.
    [requestAllPermissions], which runs the four request functions under
    [Promise.all], is not modelled: the order in which their calls
    interleave is the platform's. *)

(** The type [PermissionStatus] of the types module. *)
Inductive PermissionStatus := granted | denied | undetermined.

Definition status_eq (a b : PermissionStatus) : bool :=
  match a, b with
  | granted, granted | denied, denied | undetermined, undetermined => true
  | _, _ => false
  end.

(** The platform modules that are asked: expo-image-picker for the camera,
    expo-location, expo-notifications and expo-media-library. *)
Inductive permission_module :=
| ImagePicker
| Location
| Notifications
| MediaLibrary.

(** The two calls of a module: the query of the current status and the
    request. *)
Inductive platform_call :=
| GetPermissions (m : permission_module)
| RequestPermissions (m : permission_module).

(** The [onPress] closure of the source, run when the button is pressed. *)
Inductive handler := OpenSettingsHandler.

Record button := Button {
  button_text : string;
  button_style : option string;
  onPress : option handler
}.

Record alert := AlertBox {
  alert_title : string;
  alert_message : string;
  alert_buttons : list button
}.

Inductive opened :=
| OpenURL (url : string)
| OpenSettings.

Record device := Device {
  Platform_OS : string;
  answers : list (option PermissionStatus);
                                (* what the coming platform calls answer;
                                   [None] is a rejected call *)
  asked : list platform_call;   (* the platform calls made, latest first *)
  alerts : list alert;          (* the alerts shown, latest first *)
  links : list opened           (* what was opened, latest first *)
}.

(** Computations on the device, which may throw. *)
Definition D (A : Type) : Type := device → result A * device.

Definition retD {A} (a : A) : D A := λ d, (Ret a, d).

Definition bindD {A B} (c : D A) (k : A → D B) : D B :=
  λ d, match c d with
       | (Ret a, d') => k a d'
       | (Throw e, d') => (Throw e, d')
       end.

Notation "x <~ c ;; k" := (bindD c (λ x, k))
  (at level 100, c at next level, right associativity, only parsing).

(** A call of a platform module: it is recorded and takes the next answer;
    with no answer left the status is [undetermined]. *)
Definition platform (c : platform_call) : D PermissionStatus :=
  λ d, (match hd (Some undetermined) (answers d) with
        | Some status => Ret status
        | None => Throw (Error "rejected")
        end,
        Device (Platform_OS d) (tail (answers d)) (c :: asked d)
               (alerts d) (links d)).



(** The body that the four request functions share, each with its own
    module. *)
Definition request_with (m : permission_module) : D PermissionStatus :=
  currentStatus <~ platform (GetPermissions m) ;;
  if negb (status_eq currentStatus granted) then
    status <~ platform (RequestPermissions m) ;;
    retD status
  else retD currentStatus.

Definition requestCameraPermission : D PermissionStatus :=
  request_with ImagePicker.
Definition requestLocationPermission : D PermissionStatus :=
  request_with Location.
Definition requestNotificationPermission : D PermissionStatus :=
  request_with Notifications.
Definition requestMediaLibraryPermission : D PermissionStatus :=
  request_with MediaLibrary.




(** The request function of each module, and the module that a permission
    type of [ensurePermission] stands for. *)
Definition requester (m : permission_module) : D PermissionStatus :=
  match m with
  | ImagePicker => requestCameraPermission
  | Location => requestLocationPermission
  | Notifications => requestNotificationPermission
  | MediaLibrary => requestMediaLibraryPermission
  end.


(** A device on which the camera is refused when asked. *)
Definition refusing : device :=
  Device "ios" [Some undetermined; Some denied] [] [] [].

(** An entry whose weather is a record with a temperature that is not a
    number. *)
Definition misty : value :=
  having "weather" (VObj {[ "temperature" := VStr "hot" ]}) (sample "a" 10).

(** The array that the text under the key holds, as it parses, before any
    validation: the records that are persisted. *)
Definition persisted (w : world) : list value :=
  match storage w !! StorageKeys_ENTRIES with
  | Some (TextJson j) =>
      match of_json j with
      | VArr l => l
      | _ => []
      end
  | _ => []
  end.

(** Every persisted record passes the validator. *)
Definition sound (w : world) : Prop :=
  Forall (λ e, validateEntry e = Ret true) (persisted w).

(** Every persisted record passes the validator and reads back as itself
    when written and parsed again. *)
Definition kept (w : world) : Prop := sound w ∧ canonical w.

(** An entry with the identifier [a] that the validator accepts and that
    has no latitude a text can hold. *)
Definition adrift : value := having "latitude" (VNum NaN) (sample "a" 10).

(** * Properties *)

(** ** The validator *)

Lemma typeof_string x : String.eqb (typeof x) "string" = is_string x.
Proof. by destruct x. Qed.

Lemma typeof_number x : String.eqb (typeof x) "number" = is_numeric x.
Proof. by destruct x. Qed.

Lemma typeof_object x : String.eqb (typeof x) "object" = is_structured x.
Proof. by destruct x. Qed.

(** The validator computes the schema, and returns. *)
Lemma validateEntry_schema v : validateEntry v = Ret (schema v).
Proof.
  destruct v as [ | |b|n|s|z|l|m]; try reflexivity;
    try (unfold validateEntry; cbn [typeof String.eqb Ascii.eqb Bool.eqb negb];
         rewrite orb_true_r; reflexivity).
  unfold validateEntry, schema, requiredFields, check_required, optional,
    get, property, bindR.
  rewrite !typeof_string, !typeof_number, !typeof_object.
  cbn [truthy typeof negb orb is_structured andb].
  generalize (default VUndefined (m !! "id"))
    (default VUndefined (m !! "imageUri"))
    (default VUndefined (m !! "address"))
    (default VUndefined (m !! "latitude"))
    (default VUndefined (m !! "longitude"))
    (default VUndefined (m !! "createdAt"))
    (default VUndefined (m !! "title"))
    (default VUndefined (m !! "notes"))
    (default VUndefined (m !! "tags"))
    (default VUndefined (m !! "weather")).
  intros a b c d e f g h i j.
  destruct (is_string a); [|reflexivity].
  destruct (is_string b); [|reflexivity].
  destruct (is_string c); [|reflexivity].
  destruct (is_numeric d); [|reflexivity].
  destruct (is_numeric e); [|reflexivity].
  destruct (is_numeric f); [|reflexivity].
  cbn [negb andb].
  destruct g; cbn; try reflexivity; destruct h; cbn; try reflexivity;
  destruct i; cbn; try reflexivity; destruct j; cbn; try reflexivity.
Qed.

Lemma valid_schema v : valid v = schema v.
Proof. unfold valid. by rewrite validateEntry_schema. Qed.

Lemma validateEntry_valid v : validateEntry v = Ret (valid v).
Proof. by rewrite valid_schema, validateEntry_schema. Qed.

Lemma every_forallb f (g : value → bool) l :
  (∀ v, f v = Ret (g v)) → every f l = Ret (forallb g l).
Proof.
  intros Hf. induction l as [|x l IH]; [done|].
  simpl. rewrite Hf. simpl. destruct (g x); [exact IH|done].
Qed.

Lemma validateEntries_array l : validateEntries (VArr l) = Ret (forallb valid l).
Proof. apply every_forallb, validateEntry_valid. Qed.

(** A valid value is a record. *)
Lemma valid_record v : valid v = true → ∃ m, v = VObj m.
Proof.
  rewrite valid_schema. destruct v; try discriminate; eauto.
Qed.

Lemma field_property v k : field v k = property v k.
Proof. by destruct v. Qed.

Lemma valid_get v k : valid v = true → get v k = Ret (field v k).
Proof. intros [m ->]%valid_record. reflexivity. Qed.

Lemma valid_id_string v : valid v = true → ∃ s, field v "id" = VStr s.
Proof.
  rewrite valid_schema, field_property. unfold schema.
  rewrite !andb_true_iff. intros [[[[[[[[[[_ H] _] _] _] _] _] _] _] _] _].
  destruct (property v "id"); try discriminate; eauto.
Qed.

Lemma valid_createdAt_number v :
  valid v = true → ∃ n, field v "createdAt" = VNum n.
Proof.
  rewrite valid_schema, field_property. unfold schema.
  rewrite !andb_true_iff. intros [[[[[_ H] _] _] _] _].
  destruct (property v "createdAt"); try discriminate; eauto.
Qed.

(** ** The operations as equations *)

Lemma getEntries_run w :
  getEntries w = (Ret (read w), called (GetItem StorageKeys_ENTRIES) w).
Proof.
  unfold getEntries, try_catch, getEntries_try, AsyncStorage_getItem, bind,
    storage_call, read, stored, decode.
  destruct (next_rejects w); [reflexivity|].
  change (storage (called (GetItem StorageKeys_ENTRIES) w)) with (storage w).
  destruct (storage w !! StorageKeys_ENTRIES) as [[| |j]|]; try reflexivity.
  unfold JSON_parse, lift.
  destruct (of_json j) as [ | |b|n|s|z|l|m] eqn:Hj; try reflexivity.
  rewrite validateEntries_array.
  destruct (forallb valid l); reflexivity.
Qed.

Lemma setItem_run k s w :
  AsyncStorage_setItem k s w =
    if next_rejects w then (Throw StorageFailure, called (SetItem k s) w)
    else (Ret tt,
          with_storage (<[k := s]> (storage w)) (called (SetItem k s) w)).
Proof.
  unfold AsyncStorage_setItem, bind, storage_call.
  destruct (next_rejects w); reflexivity.
Qed.

Lemma removeItem_run k w :
  AsyncStorage_removeItem k w =
    if next_rejects w then (Throw StorageFailure, called (RemoveItem k) w)
    else (Ret tt,
          with_storage (delete k (storage w)) (called (RemoveItem k) w)).
Proof.
  unfold AsyncStorage_removeItem, bind, storage_call.
  destruct (next_rejects w); reflexivity.
Qed.

(** [if (!b) return false; return true] returns [b]. *)
Lemma verdict_run (b : bool) (w : world) :
  (if negb b then ret false else ret true) w = (Ret b, w).
Proof. by destruct b. Qed.

Lemma removeEntry_run id w :
  removeEntry id w =
    if negb (truthy id) || negb (String.eqb (typeof id) "string")
    then (Ret false, w) else
    let w1 := called (GetItem StorageKeys_ENTRIES) w in
    if negb (some (has_id id) (read w)) then (Ret false, w1) else
    match JSON_stringify (filterA (λ e, negb (has_id id e)) (read w)) with
    | Throw _ => (Ret false, w1)
    | Ret s =>
        let w2 := called (SetItem StorageKeys_ENTRIES s) w1 in
        if next_rejects w1 then (Ret false, w2) else
        let w3 := with_storage (<[StorageKeys_ENTRIES := s]> (storage w2)) w2 in
        (Ret (negb (some (has_id id) (read w3))),
         called (GetItem StorageKeys_ENTRIES) w3)
    end.
Proof.
  unfold removeEntry, try_catch, removeEntry_try.
  destruct (negb (truthy id) || negb (String.eqb (typeof id) "string"));
    [reflexivity|].
  unfold bind at 1. rewrite getEntries_run.
  destruct (negb (some (has_id id) (read w))); [reflexivity|].
  unfold bind at 1, lift.
  destruct (JSON_stringify _) as [s|e]; [|reflexivity].
  unfold bind at 1. rewrite setItem_run.
  destruct (next_rejects _); [reflexivity|].
  unfold bind at 1. rewrite getEntries_run.
  by rewrite verdict_run.
Qed.

Lemma updateEntry_run u w :
  updateEntry u w =
    if negb (valid u) then (Ret false, w) else
    let w1 := called (GetItem StorageKeys_ENTRIES) w in
    match findIndex (has_id (field u "id")) (read w) with
    | None => (Ret false, w1)
    | Some i =>
        match JSON_stringify (<[i := u]> (read w)) with
        | Throw _ => (Ret false, w1)
        | Ret s =>
            let w2 := called (SetItem StorageKeys_ENTRIES s) w1 in
            if next_rejects w1 then (Ret false, w2) else
            let w3 :=
              with_storage (<[StorageKeys_ENTRIES := s]> (storage w2)) w2 in
            (Ret (some (λ e, has_id (field u "id") e
                             && strict_eq (field e "createdAt")
                                          (field u "createdAt"))
                       (read w3)),
             called (GetItem StorageKeys_ENTRIES) w3)
        end
    end.
Proof.
  unfold updateEntry, try_catch, updateEntry_try.
  unfold bind at 1, lift. rewrite validateEntry_valid.
  destruct (valid u) eqn:Hu; [|reflexivity].
  cbn [negb]. unfold bind at 1. rewrite getEntries_run.
  unfold bind at 1. rewrite (valid_get u "id" Hu).
  destruct (findIndex _ _) as [i|]; [|reflexivity].
  unfold bind at 1.
  destruct (JSON_stringify _) as [s|e]; [|reflexivity].
  unfold bind at 1. rewrite setItem_run.
  destruct (next_rejects _); [reflexivity|].
  unfold bind at 1. rewrite getEntries_run.
  unfold bind at 1. rewrite (valid_get u "createdAt" Hu).
  by rewrite verdict_run.
Qed.

Lemma renamed_lookup r e e0 w :
  heap w !! r = Some e0 →
  heap (renamed r e w) !! r = Some (set e "id" (generated_id w)).
Proof.
  intros H. unfold renamed. cbn [heap with_heap].
  apply list_lookup_insert_eq. by eapply lookup_lt_Some.
Qed.

Lemma saveEntry_run r w :
  saveEntry r w =
    let e := default VUndefined (heap w !! r) in
    if negb (valid e) then (Ret false, w) else
    let w1 := called (GetItem StorageKeys_ENTRIES) w in
    let collides := some (has_id (field e "id")) (read w) in
    if collides && is_frozen r w
    then (Ret false,
          with_random (tail (random w)) (with_clock (tail (clock w)) w1))
    else
    let w2 := if collides then renamed r e w1 else w1 in
    let e' := if collides then set e "id" (generated_id w) else e in
    match JSON_stringify (read w ++ [e']) with
    | Throw _ => (Ret false, w2)
    | Ret s =>
        let w3 := called (SetItem StorageKeys_ENTRIES s) w2 in
        if next_rejects w2 then (Ret false, w3) else
        let w4 :=
          with_storage (<[StorageKeys_ENTRIES := s]> (storage w3)) w3 in
        (Ret (some (has_id (field e' "id")) (read w4)),
         called (GetItem StorageKeys_ENTRIES) w4)
    end.
Proof.
  unfold saveEntry, try_catch, saveEntry_try.
  unfold bind at 1, deref, lift. unfold bind at 1.
  rewrite validateEntry_valid.
  destruct (heap w !! r) as [e|] eqn:Hr; [|reflexivity].
  cbn [default from_option id].
  destruct (valid e) eqn:He; [|reflexivity].
  cbn [negb]. unfold bind at 1. rewrite getEntries_run.
  unfold bind at 1. rewrite (valid_get e "id" He).
  cbv zeta.
  destruct (some (has_id (field e "id")) (read w)) eqn:Hc.
  - unfold bind at 1. unfold bind at 1. unfold bind at 1.
    unfold Date_now, Math_random_toString36, assign.
    change (is_frozen r (with_random _ _)) with (is_frozen r w).
    cbn [andb]. destruct (is_frozen r w); [reflexivity|].
    cbn [heap with_random with_clock called].
    rewrite Hr.
    change (with_heap _ _)
      with (renamed r e (called (GetItem StorageKeys_ENTRIES) w)).
    unfold bind at 1.
    rewrite (renamed_lookup r e e (called (GetItem StorageKeys_ENTRIES) w) Hr).
    cbn [default from_option id].
    change (generated_id (called (GetItem StorageKeys_ENTRIES) w))
      with (generated_id w).
    unfold bind at 1.
    destruct (JSON_stringify _) as [s|x]; [|reflexivity].
    unfold bind at 1. rewrite setItem_run.
    destruct (next_rejects _); [reflexivity|].
    unfold bind at 1. rewrite getEntries_run.
    unfold bind at 1.
    destruct (valid_record _ He) as [m ->]; cbn [set get lift field].
    by rewrite verdict_run.
  - unfold bind at 1. unfold ret at 1. unfold bind at 1.
    cbn [heap called andb]. rewrite Hr. cbn [default from_option id].
    unfold bind at 1.
    destruct (JSON_stringify _) as [s|x]; [|reflexivity].
    unfold bind at 1. rewrite setItem_run.
    destruct (next_rejects _); [reflexivity|].
    unfold bind at 1. rewrite getEntries_run.
    unfold bind at 1. rewrite (valid_get e "id" He).
    by rewrite verdict_run.
Qed.

Lemma getEntryById_run id w :
  getEntryById id w =
    (Ret (let entry := default VUndefined (find (has_id id) (read w)) in
          if truthy entry then entry else VNull),
     called (GetItem StorageKeys_ENTRIES) w).
Proof.
  unfold getEntryById, try_catch, getEntryById_try.
  unfold bind at 1. by rewrite getEntries_run.
Qed.

Lemma getEntryCount_run w :
  getEntryCount w =
    (Ret (length (read w)), called (GetItem StorageKeys_ENTRIES) w).
Proof.
  unfold getEntryCount, try_catch, getEntryCount_try.
  unfold bind at 1. by rewrite getEntries_run.
Qed.

Lemma clearAllEntries_run w :
  clearAllEntries w =
    let w1 := called (RemoveItem StorageKeys_ENTRIES) w in
    if next_rejects w then (Ret false, w1) else
    let w2 := with_storage (delete StorageKeys_ENTRIES (storage w1)) w1 in
    (Ret (negb (0 <? length (read w2))%nat),
     called (GetItem StorageKeys_ENTRIES) w2).
Proof.
  unfold clearAllEntries, try_catch, clearAllEntries_try.
  unfold bind at 1. rewrite removeItem_run.
  destruct (next_rejects w); [reflexivity|].
  unfold bind at 1. rewrite getEntries_run. cbv zeta.
  destruct (0 <? length (read _))%nat; reflexivity.
Qed.

Lemma debugStorage_run w :
  debugStorage w = (Ret tt, called (GetItem StorageKeys_ENTRIES) w).
Proof.
  unfold debugStorage, try_catch, debugStorage_try.
  unfold bind at 1. rewrite getEntries_run.
  unfold bind at 1, lift.
  destruct (JSON_stringify (read w)); reflexivity.
Qed.

(** ** Numbers and the sort *)

Lemma positive_sub p q :
  p ≠ NaN → q ≠ NaN → positive (number_sub q p) = negb (number_le q p).
Proof.
  destruct p as [|[]|x], q as [|[]|y]; try done; intros _ _; simpl.
  destruct (Z.ltb_spec 0 (y - x)), (Z.leb_spec y x); simpl; lia.
Qed.

Lemma number_le_total p q :
  p ≠ NaN → q ≠ NaN → number_le p q = false → number_le q p = true.
Proof.
  destruct p as [|[]|x], q as [|[]|y]; try done; intros _ _; simpl.
  rewrite Z.leb_gt, Z.leb_le. lia.
Qed.

Lemma number_le_not_nan p q : number_le p q = true → p ≠ NaN ∧ q ≠ NaN.
Proof. destruct p as [|[]|x], q as [|[]|y]; done. Qed.

Section sorting.
Variable cmp : value → value → number.

Lemma sort_insert_perm x l : sort_insert cmp x l ≡ₚ x :: l.
Proof.
  induction l as [|y l IH]; [done|]. simpl.
  destruct (positive (cmp x y)); [|done].
  rewrite IH. apply perm_swap.
Qed.

Lemma sort_perm l : sort cmp l ≡ₚ l.
Proof.
  induction l as [|x l IH]; [done|]. simpl.
  rewrite sort_insert_perm. by rewrite IH.
Qed.

Lemma sort_length l : length (sort cmp l) = length l.
Proof. apply Permutation_length, sort_perm. Qed.
End sorting.

Lemma newest_first_positive x y :
  dated x → dated y →
  positive (newest_first x y) = negb (number_le (createdAt y) (createdAt x)).
Proof. intros Hx Hy. by apply positive_sub. Qed.

Lemma sort_insert_HdRel a x l :
  newer_or_equal a x → HdRel newer_or_equal a l →
  HdRel newer_or_equal a (sort_insert newest_first x l).
Proof.
  intros Hax Hal. destruct l as [|y l]; simpl; [by constructor|].
  destruct (positive _); constructor; [by inversion Hal | done].
Qed.

Lemma sort_insert_sorted x l :
  dated x → Forall dated l → Sorted newer_or_equal l →
  Sorted newer_or_equal (sort_insert newest_first x l).
Proof.
  intros Hx Hl Hs. induction Hs as [|y l Hs IH Hhd]; simpl.
  - by repeat constructor.
  - inversion_clear Hl as [|? ? Hy Hl'].
    rewrite newest_first_positive by done.
    destruct (number_le (createdAt y) (createdAt x)) eqn:Hle; simpl.
    + constructor; [by constructor | by constructor].
    + constructor; [by apply IH|].
      apply sort_insert_HdRel; [|done].
      unfold newer_or_equal. by apply number_le_total.
Qed.

Lemma sort_newest_first_sorted l :
  Forall dated l → Sorted newer_or_equal (sort newest_first l).
Proof.
  induction 1 as [|x l Hx Hl IH]; simpl; [constructor|].
  apply sort_insert_sorted; [done| |done].
  by rewrite sort_perm.
Qed.

(** The sort leaves a sorted array as it is. *)
Lemma sort_sorted_id l :
  Sorted newer_or_equal l → sort newest_first l = l.
Proof.
  induction 1 as [|x l Hs IH Hhd]; simpl; [done|].
  rewrite IH. destruct Hhd as [|y l Hxy]; simpl; [done|].
  destruct (number_le_not_nan _ _ Hxy) as [Hy Hx].
  rewrite newest_first_positive by done.
  unfold newer_or_equal in Hxy. by rewrite Hxy.
Qed.

(** ** Strict equality and identifiers *)

Lemma number_eq_eq a b : number_eq a b = true → a = b.
Proof.
  destruct a as [|s|x], b as [|t|y]; try done; simpl.
  - by intros ->%Bool.eqb_prop.
  - by intros ->%Z.eqb_eq.
Qed.

Lemma strict_eq_eq a b : strict_eq a b = true → a = b.
Proof.
  destruct a, b; try done; simpl.
  - by intros ->%Bool.eqb_prop.
  - by intros ->%number_eq_eq.
  - by intros ->%String.eqb_eq.
  - by intros ->%Z.eqb_eq.
Qed.

Lemma strict_eq_string s t : strict_eq (VStr s) (VStr t) = true ↔ s = t.
Proof. simpl. apply String.eqb_eq. Qed.

Lemma has_id_eq id e : has_id id e = true → field e "id" = id.
Proof. apply strict_eq_eq. Qed.

Lemma has_id_valid id e :
  valid e = true → has_id id e = true ↔ field e "id" = id.
Proof.
  intros [s Hs]%valid_id_string. split; [apply has_id_eq|].
  intros <-. unfold has_id. rewrite Hs. by apply strict_eq_string.
Qed.

Lemma some_has_id id l :
  some (has_id id) l = true → id ∈ ids l.
Proof.
  unfold some. rewrite existsb_exists. intros (e & He & Hid).
  apply has_id_eq in Hid as <-.
  apply list_elem_of_In, in_map_iff. eauto.
Qed.

Lemma not_some_has_id id l :
  Forall (λ e, valid e = true) l →
  some (has_id id) l = false → id ∉ ids l.
Proof.
  intros Hl Hs Hin.
  apply list_elem_of_In, in_map_iff in Hin as (e & <- & He).
  apply list_elem_of_In in He.
  rewrite Forall_forall in Hl.
  assert (has_id (field e "id") e = true) as Hid
    by (apply has_id_valid; [by apply Hl | done]).
  assert (some (has_id (field e "id")) l = true) as Hs'; [|congruence].
  unfold some. apply existsb_exists. exists e. split; [|done].
  by apply list_elem_of_In.
Qed.

(** ** The JSON round trip *)

Lemma reparse_property m k :
  property (reparse (VObj m)) k =
    match m !! k with
    | Some x => if is_undefined x then VUndefined else reparse x
    | None => VUndefined
    end.
Proof.
  unfold reparse. simpl. rewrite lookup_fmap, lookup_omap.
  destruct (m !! k) as [x|]; simpl; [|done].
  by destruct (is_undefined x).
Qed.

Lemma reparse_string x s : reparse x = VStr s → x = VStr s.
Proof. destruct x as [ | |b|[|?|?]|?|?|?|?]; try done. Qed.

Lemma reparse_number x n : reparse x = VNum n → x = VNum n.
Proof. destruct x as [ | |b|[|?|?]|?|?|?|?]; try done. Qed.

Lemma reparse_record e m : reparse e = VObj m → ∃ m', e = VObj m'.
Proof. destruct e as [ | |b|[|?|?]|?|?|?|?]; try done. eauto. Qed.

(** A field that is a string or a number after the round trip was the same
    string or number before. *)
Lemma reparse_field_string e k s :
  property (reparse e) k = VStr s → property e k = VStr s.
Proof.
  destruct (reparse e) as [ | | | | | | |m] eqn:He; try done.
  destruct (reparse_record _ _ He) as [m' ->]. rewrite <- He.
  rewrite reparse_property. simpl.
  destruct (m' !! k) as [x|]; [|done]. simpl.
  destruct (is_undefined x); [done|]. apply reparse_string.
Qed.

Lemma reparse_field_number e k n :
  property (reparse e) k = VNum n → property e k = VNum n.
Proof.
  destruct (reparse e) as [ | | | | | | |m] eqn:He; try done.
  destruct (reparse_record _ _ He) as [m' ->]. rewrite <- He.
  rewrite reparse_property. simpl.
  destruct (m' !! k) as [x|]; [|done]. simpl.
  destruct (is_undefined x); [done|]. apply reparse_number.
Qed.

Lemma valid_reparse_id e :
  valid (reparse e) = true → field (reparse e) "id" = field e "id".
Proof.
  intros H. destruct (valid_id_string _ H) as [s Hs].
  rewrite Hs. rewrite field_property in Hs.
  apply reparse_field_string in Hs. by rewrite field_property.
Qed.

Lemma valid_reparse_createdAt e :
  valid (reparse e) = true →
  field (reparse e) "createdAt" = field e "createdAt".
Proof.
  intros H. destruct (valid_createdAt_number _ H) as [s Hs].
  rewrite Hs. rewrite field_property in Hs.
  apply reparse_field_number in Hs. by rewrite field_property.
Qed.

Lemma valid_reparse_has_id id e :
  valid (reparse e) = true → has_id id (reparse e) = has_id id e.
Proof. intros H. unfold has_id. by rewrite valid_reparse_id. Qed.

Lemma ids_reparse l :
  forallb valid (map reparse l) = true → ids (map reparse l) = ids l.
Proof.
  induction l as [|e l IH]; [done|]. simpl.
  intros [He Hl]%andb_true_iff. rewrite IH by done.
  by rewrite valid_reparse_id.
Qed.

(** A parsed value has no [NaN] in a numeric field. *)
Lemma of_json_dated j : valid (of_json j) = true → dated (of_json j).
Proof.
  intros Hv. destruct (valid_createdAt_number _ Hv) as [n Hn].
  unfold dated, createdAt. rewrite (valid_get _ _ Hv), Hn. simpl.
  destruct (valid_record _ Hv) as [m Hm].
  destruct j; try done. clear Hm Hv.
  rewrite field_property in Hn. simpl in Hn.
  rewrite lookup_fmap in Hn.
  destruct (properties !! "createdAt") as [[]|]; simpl in Hn; congruence.
Qed.

Lemma of_json_array j l : of_json j = VArr l → ∃ js, l = map of_json js.
Proof. destruct j; try done. simpl. intros [= <-]. eauto. Qed.

(** ** The persisted collection *)

Lemma JSON_stringify_Ret l s : JSON_stringify l = Ret s → s = encoded l.
Proof. unfold JSON_stringify. destruct (existsb _ _); congruence. Qed.

Lemma decode_stringify l :
  decode (Some (encoded l)) =
    if forallb valid (map reparse l) then sort newest_first (map reparse l)
    else [].
Proof. unfold decode. simpl. by rewrite map_map. Qed.

Lemma forallb_Forall_valid l :
  forallb valid l = true ↔ Forall (λ e, valid e = true) l.
Proof. rewrite forallb_forall, Forall_forall. by setoid_rewrite list_elem_of_In. Qed.

Lemma decode_valid s : Forall (λ e, valid e = true) (decode s).
Proof.
  destruct s as [[| |j]|]; simpl; try constructor.
  destruct (of_json j); try constructor.
  destruct (forallb valid elements) eqn:H; [|constructor].
  rewrite sort_perm. by apply forallb_Forall_valid.
Qed.

Lemma decode_dated s : Forall dated (decode s).
Proof.
  destruct s as [[| |j]|]; simpl; try constructor.
  destruct (of_json j) eqn:Hj; try constructor.
  destruct (forallb valid elements) eqn:H; [|constructor].
  rewrite sort_perm. apply of_json_array in Hj as [js ->].
  apply forallb_Forall_valid in H. rewrite Forall_fmap in *.
  eapply Forall_impl; [exact H|]. intros j'. apply of_json_dated.
Qed.

Lemma decode_sorted s : Sorted newer_or_equal (decode s).
Proof.
  pose proof (decode_dated s) as Hd.
  destruct s as [[| |j]|]; simpl in *; try constructor.
  destruct (of_json j) eqn:Hj; try constructor.
  destruct (forallb valid elements) eqn:H; [|constructor].
  rewrite sort_perm in Hd. by apply sort_newest_first_sorted.
Qed.

Lemma stored_valid w : Forall (λ e, valid e = true) (stored w).
Proof. apply decode_valid. Qed.

Lemma read_valid w : Forall (λ e, valid e = true) (read w).
Proof. unfold read. destruct (next_rejects w); [constructor|apply stored_valid]. Qed.

(** ** The validator and the schema *)

Lemma schema_lacking_optional m k :
  k ∈ optional_fields →
  schema (VObj m) = true → schema (VObj (delete k m)) = true.
Proof.
  unfold optional_fields. rewrite !elem_of_cons, elem_of_nil.
  unfold schema, property. rewrite !andb_true_iff.
  intros [->|[->|[->|[->|[]]]]] H;
    rewrite lookup_delete_eq, !lookup_delete_ne by done; simpl; tauto.
Qed.

(** C3: the validator returns, for every value, whether the value has the
    schema of the specification: a structured value with the six required
    fields of the right primitive kind, each optional field absent or of
    its shape; it never throws, and taking an optional field away from a
    valid record leaves it valid. *)
Theorem validateEntry_decides_schema (v : value) :
  validateEntry v = Ret (schema v)
  ∧ ∀ m k, v = VObj m → k ∈ optional_fields →
      validateEntry v = Ret true →
      validateEntry (VObj (delete k m)) = Ret true.
Proof.
  split; [apply validateEntry_schema|].
  intros m k -> Hk. rewrite !validateEntry_schema.
  intros [= H]. f_equal. by apply schema_lacking_optional.
Qed.

Lemma validateEntry_decides_schema_witness :
  validateEntry (having "title" (VStr "Lisbon") (sample "a" 10)) = Ret true
  ∧ validateEntry (sample "a" 10) = Ret true.
Proof.
  split; [reflexivity|].
  refine (proj2 (validateEntry_decides_schema
                   (having "title" (VStr "Lisbon") (sample "a" 10)))
            _ "title" eq_refl _ eq_refl).
  unfold optional_fields. left.
Defined.

(** ** Rejected input *)

Lemma saveEntry_invalid r w :
  valid (default VUndefined (heap w !! r)) = false →
  saveEntry r w = (Ret false, w).
Proof. intros H. rewrite saveEntry_run. cbv zeta. by rewrite H. Qed.

Lemma updateEntry_invalid u w :
  valid u = false → updateEntry u w = (Ret false, w).
Proof. intros H. rewrite updateEntry_run. by rewrite H. Qed.

Lemma not_valid v : validateEntry v ≠ Ret true → valid v = false.
Proof. rewrite validateEntry_valid. destruct (valid v); congruence. Qed.

Lemma Forall_validateEntry l :
  Forall (λ e, valid e = true) l → Forall (λ e, validateEntry e = Ret true) l.
Proof.
  intros H. eapply Forall_impl; [exact H|].
  intros e He. by rewrite validateEntry_valid, He.
Qed.

(** C10: [removeEntry] at the empty string returns [false] and leaves the
    world as it was: no storage call is made, whatever is stored. *)
Theorem removeEntry_empty_id (w : world) :
  removeEntry (VStr "") w = (Ret false, w).
Proof. by rewrite removeEntry_run. Qed.

(** ** What the validator does not look at *)

Lemma schema_tags_any m l l' :
  schema (VObj (<["tags" := VArr l]> m))
  = schema (VObj (<["tags" := VArr l']> m)).
Proof.
  unfold schema, property.
  by rewrite !lookup_insert_eq, !lookup_insert_ne by done.
Qed.

Lemma schema_weather_null m :
  schema (VObj (<["weather" := VNull]> m))
  = schema (VObj (delete "weather" m)).
Proof.
  unfold schema, property.
  by rewrite lookup_insert_eq, lookup_delete_eq,
    !lookup_insert_ne, !lookup_delete_ne by done.
Qed.

Lemma schema_weather_any m (wm wm' : gmap string value) :
  schema (VObj (<["weather" := VObj wm]> m))
  = schema (VObj (<["weather" := VObj wm']> m)).
Proof.
  unfold schema, property.
  by rewrite !lookup_insert_eq, !lookup_insert_ne by done.
Qed.

(** C9: the verdict of the validator does not depend on the elements of
    [tags], nor on the fields of a [weather] that is a record, and a
    [weather] that is [null] is accepted like an absent one; so an entry
    whose tags are not strings, an entry whose weather is [null] and an
    entry whose weather has a temperature that is not a number are
    accepted, though none has the declared type [TravelEntry]. *)
Theorem validateEntry_shallow_on_tags_and_weather :
  (∀ m l l', validateEntry (VObj (<["tags" := VArr l]> m))
             = validateEntry (VObj (<["tags" := VArr l']> m)))
  ∧ (∀ m, validateEntry (VObj (<["weather" := VNull]> m))
          = validateEntry (VObj (delete "weather" m)))
  ∧ (validateEntry
       (having "tags" (VArr [VNum (Fin 7); VNull]) (sample "a" 10)) = Ret true
     ∧ TravelEntry
         (having "tags" (VArr [VNum (Fin 7); VNull]) (sample "a" 10)) = false)
  ∧ (validateEntry (having "weather" VNull (sample "a" 10)) = Ret true
     ∧ TravelEntry (having "weather" VNull (sample "a" 10)) = false)
  ∧ (∀ m (wm wm' : gmap string value),
       validateEntry (VObj (<["weather" := VObj wm]> m))
       = validateEntry (VObj (<["weather" := VObj wm']> m)))
  ∧ (validateEntry misty = Ret true ∧ TravelEntry misty = false).
Proof.
  split; [intros; rewrite !validateEntry_schema; f_equal; apply schema_tags_any|].
  split; [intros; rewrite !validateEntry_schema; f_equal;
          apply schema_weather_null|].
  split; [by vm_compute|]. split; [by vm_compute|].
  split; [intros; rewrite !validateEntry_schema; f_equal;
          apply schema_weather_any|].
  by vm_compute.
Qed.

(** ** Totality *)

Lemma getEntries_try_throws w : throws getEntries_try w = true → read w = [].
Proof.
  unfold throws. intros H. pose proof (getEntries_run w) as Hrun.
  unfold getEntries, try_catch in Hrun.
  destruct (getEntries_try w) as [[l|e] w1]; [done|].
  unfold ret in Hrun. congruence.
Qed.

Lemma try_catch_total {A} (body : M A) (a : A) w :
  ∃ x w', try_catch body (λ _, ret a) w = (Ret x, w')
          ∧ (throws body w = true → x = a).
Proof.
  unfold try_catch, throws.
  destruct (body w) as [[x|e] w1]; [exists x, w1|exists a, w1]; done.
Qed.

(** ** Reading the collection *)

Lemma decode_parsed s es :
  JSON_parse s = Ret (VArr es) →
  Forall (λ e, validateEntry e = Ret true) es →
  decode (Some s) = sort newest_first es.
Proof.
  destruct s as [| |j]; try done. simpl. intros [= ->] Hes.
  assert (forallb valid es = true) as ->; [|done].
  apply forallb_Forall_valid. eapply Forall_impl; [exact Hes|].
  intros e He. simpl in *. rewrite validateEntry_valid in He. congruence.
Qed.

Lemma decode_rejected s es e :
  JSON_parse s = Ret (VArr es) → e ∈ es → validateEntry e ≠ Ret true →
  decode (Some s) = [].
Proof.
  destruct s as [| |j]; try done. simpl. intros [= ->] He Hne.
  destruct (forallb valid es) eqn:H; [|done].
  rewrite forallb_Forall_valid, Forall_forall in H.
  apply H in He. by rewrite validateEntry_valid, He in Hne.
Qed.

(** C2: [getEntries] returns an array and never throws.  The array is
    empty when the key is absent, when the text under it does not parse,
    when it parses to something that is not an array, when one element of
    the parsed array fails the validator, and when the read is rejected;
    otherwise it is the parsed array reordered so that [createdAt]
    descends. *)
Theorem getEntries_read_all (w : world) :
  ∃ l w', getEntries w = (Ret l, w')
    ∧ (storage w !! StorageKeys_ENTRIES = None → l = [])
    ∧ (∀ s x, storage w !! StorageKeys_ENTRIES = Some s →
         JSON_parse s = Throw x → l = [])
    ∧ (∀ s v, storage w !! StorageKeys_ENTRIES = Some s →
         JSON_parse s = Ret v → isArray v = false → l = [])
    ∧ (∀ s es e, storage w !! StorageKeys_ENTRIES = Some s →
         JSON_parse s = Ret (VArr es) →
         e ∈ es → validateEntry e ≠ Ret true → l = [])
    ∧ (next_rejects w = true → l = [])
    ∧ (∀ s es, storage w !! StorageKeys_ENTRIES = Some s →
         JSON_parse s = Ret (VArr es) →
         Forall (λ e, validateEntry e = Ret true) es →
         next_rejects w = false →
         l ≡ₚ es ∧ Sorted newer_or_equal l).
Proof.
  exists (read w), (called (GetItem StorageKeys_ENTRIES) w).
  split; [apply getEntries_run|].
  unfold read, stored.
  destruct (next_rejects w); [by repeat split|].
  split; [by intros ->|].
  split; [intros s x -> H; destruct s; simpl in *; done|].
  split.
  { intros s v -> H Hv. destruct s as [| |j]; try done.
    simpl in *. injection H as <-. by destruct (of_json j). }
  split; [intros s es e -> H He Hne; by eapply decode_rejected|].
  split; [done|].
  intros s es -> Hparse Hvalid _.
  rewrite (decode_parsed _ _ Hparse Hvalid).
  split; [apply sort_perm|].
  rewrite <- (decode_parsed _ _ Hparse Hvalid). apply decode_sorted.
Qed.

Lemma getEntries_read_all_witness :
  let w := world_of (Some (encoded [sample "a" 10; sample "b" 30;
                                     sample "c" 20])) [] [] [] in
  fst (getEntries w) = Ret [sample "b" 30; sample "c" 20; sample "a" 10]
  ∧ Sorted newer_or_equal [sample "b" 30; sample "c" 20; sample "a" 10]
  ∧ fst (getEntries (world_of None [] [] [])) = Ret []
  ∧ fst (getEntries (world_of (Some TextMalformed) [] [] [])) = Ret []
  ∧ fst (getEntries (world_of (Some (TextJson (JObj ∅))) [] [] [])) = Ret []
  ∧ fst (getEntries
           (world_of (Some (encoded [sample "a" 10;
                                     lacking "latitude" (sample "b" 30)]))
                     [] [] [])) = Ret []
  ∧ fst (getEntries (with_faults [true] w)) = Ret [].
Proof.
  intros w.
  destruct (getEntries_read_all w)
    as (l & w' & Hrun & _ & _ & _ & _ & _ & Hsorted).
  destruct (Hsorted _ [sample "a" 10; sample "b" 30; sample "c" 20]
              eq_refl eq_refl) as [_ Hs];
    [by repeat constructor | reflexivity |].
  assert (l = [sample "b" 30; sample "c" 20; sample "a" 10]) as ->
    by (apply (f_equal fst) in Hrun; vm_compute in Hrun;
        injection Hrun as <-; reflexivity).
  split; [by rewrite Hrun|]. split; [exact Hs|].
  split.
  { destruct (getEntries_read_all (world_of None [] [] []))
      as (l & ? & -> & H & _). by rewrite H. }
  split.
  { destruct (getEntries_read_all (world_of (Some TextMalformed) [] [] []))
      as (l & ? & -> & _ & H & _).
    by rewrite (H TextMalformed SyntaxError). }
  split.
  { destruct (getEntries_read_all
                (world_of (Some (TextJson (JObj ∅))) [] [] []))
      as (l & ? & -> & _ & _ & H & _).
    by rewrite (H (TextJson (JObj ∅)) (VObj ∅)). }
  split.
  { destruct (getEntries_read_all
                (world_of (Some (encoded [sample "a" 10;
                                   lacking "latitude" (sample "b" 30)]))
                          [] [] []))
      as (l & ? & -> & _ & _ & _ & H & _).
    rewrite (H _ [sample "a" 10; lacking "latitude" (sample "b" 30)]
               (lacking "latitude" (sample "b" 30)) eq_refl eq_refl);
      [done | by do 2 constructor | by vm_compute]. }
  destruct (getEntries_read_all (with_faults [true] w))
    as (l & ? & -> & _ & _ & _ & _ & H & _).
  by rewrite H.
Defined.

(** ** What a successful operation has done *)

Lemma stored_encoded w l :
  storage w !! StorageKeys_ENTRIES = Some (encoded l) →
  stored w = if forallb valid (map reparse l)
             then sort newest_first (map reparse l) else [].
Proof. unfold stored. intros ->. apply decode_stringify. Qed.

(** A collection that holds something was read off valid entries. *)
Lemma stored_encoded_some w l p :
  storage w !! StorageKeys_ENTRIES = Some (encoded l) →
  some p (stored w) = true →
  forallb valid (map reparse l) = true
  ∧ stored w = sort newest_first (map reparse l).
Proof.
  intros H. rewrite (stored_encoded _ _ H).
  by destruct (forallb valid (map reparse l)).
Qed.

Lemma read_some p w :
  some p (read w) = true → next_rejects w = false ∧ read w = stored w.
Proof. unfold read. by destruct (next_rejects w). Qed.

Lemma removeEntry_true id w w' :
  removeEntry id w = (Ret true, w') →
  let kept := filterA (λ e, negb (has_id id e)) (stored w) in
  next_rejects w = false
  ∧ some (has_id id) (stored w) = true
  ∧ storage w' = <[StorageKeys_ENTRIES := encoded kept]> (storage w)
  ∧ calls w' = GetItem StorageKeys_ENTRIES
               :: SetItem StorageKeys_ENTRIES (encoded kept)
               :: GetItem StorageKeys_ENTRIES :: calls w
  ∧ faults w' = tail (tail (tail (faults w)))
  ∧ heap w' = heap w.
Proof.
  rewrite removeEntry_run. cbv zeta.
  destruct (negb (truthy id) || _); [done|].
  destruct (some (has_id id) (read w)) eqn:Hsome; [|done].
  destruct (read_some _ _ Hsome) as [Hrej Hread].
  rewrite Hread in *. cbn [negb].
  destruct (JSON_stringify _) as [s|x] eqn:Hs; [|done].
  apply JSON_stringify_Ret in Hs as ->.
  destruct (next_rejects (called _ _)); [done|].
  intros [= _ <-]. done.
Qed.

Lemma removeEntry_false id w :
  some (has_id id) (stored w) = false →
  removeEntry id w = (Ret false, w)
  ∨ removeEntry id w = (Ret false, called (GetItem StorageKeys_ENTRIES) w).
Proof.
  intros H. rewrite removeEntry_run. cbv zeta.
  destruct (negb (truthy id) || _); [by left|].
  assert (some (has_id id) (read w) = false) as ->; [|by right].
  unfold read. by destruct (next_rejects w).
Qed.

Lemma updateEntry_true u w w' :
  updateEntry u w = (Ret true, w') →
  ∃ i,
    valid u = true
    ∧ next_rejects w = false
    ∧ findIndex (has_id (field u "id")) (stored w) = Some i
    ∧ storage w' = <[StorageKeys_ENTRIES := encoded (<[i := u]> (stored w))]>
                     (storage w)
    ∧ calls w' = GetItem StorageKeys_ENTRIES
                 :: SetItem StorageKeys_ENTRIES
                      (encoded (<[i := u]> (stored w)))
                 :: GetItem StorageKeys_ENTRIES :: calls w
    ∧ faults w' = tail (tail (tail (faults w)))
    ∧ heap w' = heap w
    ∧ some (λ e, has_id (field u "id") e
                 && strict_eq (field e "createdAt") (field u "createdAt"))
           (stored w') = true.
Proof.
  rewrite updateEntry_run. cbv zeta.
  destruct (valid u); [|done]. cbn [negb].
  destruct (findIndex _ (read w)) as [i|] eqn:Hi; [|done].
  assert (next_rejects w = false ∧ read w = stored w) as [Hrej Hread].
  { unfold read in *. by destruct (next_rejects w). }
  rewrite Hread in *.
  destruct (JSON_stringify _) as [s|x] eqn:Hs; [|done].
  apply JSON_stringify_Ret in Hs as ->.
  destruct (next_rejects (called _ _)); [done|].
  intros [= Hv <-]. exists i.
  destruct (read_some _ _ Hv) as [_ Hr]. rewrite Hr in Hv.
  done.
Qed.


Lemma saveEntry_true r w w' :
  saveEntry r w = (Ret true, w') →
  ∃ e,
    let collides := some (has_id (field e "id")) (read w) in
    let e' := if collides then set e "id" (generated_id w) else e in
    heap w !! r = Some e
    ∧ valid e = true
    ∧ heap w' = (if collides then <[r := e']> (heap w) else heap w)
    ∧ storage w' = <[StorageKeys_ENTRIES := encoded (read w ++ [e'])]>
                     (storage w)
    ∧ calls w' = GetItem StorageKeys_ENTRIES
                 :: SetItem StorageKeys_ENTRIES (encoded (read w ++ [e']))
                 :: GetItem StorageKeys_ENTRIES :: calls w
    ∧ faults w' = tail (tail (tail (faults w)))
    ∧ some (has_id (field e' "id")) (stored w') = true.
Proof.
  rewrite saveEntry_run. cbv zeta.
  destruct (heap w !! r) as [e|] eqn:Hr; [|done]. cbn [default from_option id].
  destruct (valid e) eqn:He; [|done]. cbn [negb].
  destruct (_ && is_frozen r w); [done|].
  destruct (JSON_stringify _) as [s|x] eqn:Hs; [|done].
  apply JSON_stringify_Ret in Hs as ->.
  destruct (next_rejects _); [done|].
  intros [= Hv <-]. exists e.
  destruct (read_some _ _ Hv) as [_ Hread]. rewrite Hread in Hv.
  destruct (some (has_id (field e "id")) (read w)); done.
Qed.

(** ** Induction on values *)

Lemma vsize_element x l : x ∈ l → (vsize x < vsize (VArr l))%nat.
Proof.
  simpl. induction 1 as [x l|x y l _ IH]; simpl; lia.
Qed.

Lemma vsize_property (m : gmap string value) k x :
  m !! k = Some x → (vsize x < vsize (VObj m))%nat.
Proof.
  intros H. simpl.
  rewrite (map_fold_delete_L _ _ k x m); [lia| |done].
  intros. lia.
Qed.

Lemma value_ind_nested (P : value → Prop) :
  P VUndefined → P VNull → (∀ b, P (VBool b)) → (∀ n, P (VNum n)) →
  (∀ s, P (VStr s)) → (∀ z, P (VBigInt z)) →
  (∀ l, Forall P l → P (VArr l)) →
  (∀ m : gmap string value, map_Forall (λ _, P) m → P (VObj m)) →
  ∀ v, P v.
Proof.
  intros Hu Hn Hb Hnum Hs Hz Harr Hobj v.
  assert (∀ n v, (vsize v < n)%nat → P v) as Hall;
    [|apply (Hall (S (vsize v))); lia].
  clear v. induction n as [|n IH]; intros v Hv; [lia|].
  destruct v as [ | |b|x|s|z|l|m]; try done.
  - apply Harr, Forall_forall. intros x Hx. apply IH.
    pose proof (vsize_element _ _ Hx). lia.
  - apply Hobj. intros k x Hx. apply IH.
    pose proof (vsize_property _ _ _ Hx). lia.
Qed.

Lemma jsize_element x l : x ∈ l → (jsize x < jsize (JArr l))%nat.
Proof.
  simpl. induction 1 as [x l|x y l _ IH]; simpl; lia.
Qed.

Lemma jsize_property (m : gmap string json) k x :
  m !! k = Some x → (jsize x < jsize (JObj m))%nat.
Proof.
  intros H. simpl.
  rewrite (map_fold_delete_L _ _ k x m); [lia| |done].
  intros. lia.
Qed.

Lemma json_ind_nested (P : json → Prop) :
  P JNull → (∀ b, P (JBool b)) → (∀ z, P (JNum z)) → (∀ s, P (JInf s)) →
  (∀ s, P (JStr s)) →
  (∀ l, Forall P l → P (JArr l)) →
  (∀ m : gmap string json, map_Forall (λ _, P) m → P (JObj m)) →
  ∀ j, P j.
Proof.
  intros Hn Hb Hnum Hinf Hs Harr Hobj j.
  assert (∀ n j, (jsize j < n)%nat → P j) as Hall;
    [|apply (Hall (S (jsize j))); lia].
  clear j. induction n as [|n IH]; intros j Hj; [lia|].
  destruct j as [ |b|z|s|s|l|m]; try done.
  - apply Harr, Forall_forall. intros x Hx. apply IH.
    pose proof (jsize_element _ _ Hx). lia.
  - apply Hobj. intros k x Hx. apply IH.
    pose proof (jsize_property _ _ _ Hx). lia.
Qed.

(** ** No BigInt comes out of a text *)

Lemma of_json_no_bigint j : has_bigint (of_json j) = false.
Proof.
  induction j as [ |b|z|s|s|l IH|m IH] using json_ind_nested; try done.
  - simpl. induction IH as [|x l Hx _ IHl]; simpl; [done|].
    by rewrite Hx, IHl.
  - simpl. rewrite map_fold_fmap.
    revert IH. apply (map_fold_weak_ind
      (λ r (m : gmap string json), map_Forall (λ _ j, has_bigint (of_json j) = false) m
                 → r = false)); [done|].
    intros k x m' r Hk IHr Hall.
    apply map_Forall_insert in Hall as [Hx Hm']; [|done].
    simpl. by rewrite Hx, IHr.
Qed.

Lemma decode_no_bigint s : existsb has_bigint (decode s) = false.
Proof.
  destruct (existsb has_bigint (decode s)) eqn:H; [|done].
  apply existsb_exists in H as (x & Hx & Hb).
  destruct s as [[| |j]|]; simpl in Hx; try done.
  destruct (of_json j) eqn:Hj; try done.
  destruct (forallb valid elements); [|done].
  apply of_json_array in Hj as [js ->].
  apply list_elem_of_In in Hx. rewrite sort_perm in Hx.
  apply list_elem_of_In, in_map_iff in Hx as (y & <- & _).
  by rewrite of_json_no_bigint in Hb.
Qed.

Lemma existsb_insert p (l : list value) i u :
  existsb p l = false → p u = false → existsb p (<[i := u]> l) = false.
Proof.
  revert i. induction l as [|x l IH]; intros [|i]; simpl; try done.
  - intros [_ Hl]%orb_false_iff Hu. by rewrite Hu, Hl.
  - intros [Hx Hl]%orb_false_iff Hu. by rewrite Hx, IH.
Qed.

(** ** Encoding twice *)

Lemma of_json_defined j : is_undefined (of_json j) = false.
Proof. by destruct j. Qed.

Lemma to_json_reparse v : to_json (reparse v) = to_json v.
Proof.
  unfold reparse. induction v as [ | |b|n|s|z|l IH|m IH] using value_ind_nested;
    try done.
  - by destruct n.
  - simpl. f_equal. rewrite !map_map.
    induction IH as [|x l Hx _ IHl]; simpl; [done|]. by rewrite Hx, IHl.
  - simpl. f_equal. apply map_eq. intros k.
    rewrite !lookup_omap, lookup_fmap, lookup_omap.
    destruct (m !! k) as [x|] eqn:Hk; simpl; [|done].
    destruct (is_undefined x); simpl; [done|].
    rewrite of_json_defined. f_equal. by apply (IH k x).
Qed.

(** The round trip changes nothing the second time. *)
Lemma reparse_idemp v : reparse (reparse v) = reparse v.
Proof. unfold reparse at 1 3. by rewrite to_json_reparse. Qed.

(** The collection read from a text that the store has written is still
    valid when encoded again. *)
Lemma stored_reencodes w l :
  storage w !! StorageKeys_ENTRIES = Some (encoded l) →
  forallb valid (map reparse (stored w)) = true.
Proof.
  intros H. rewrite (stored_encoded _ _ H).
  destruct (forallb valid (map reparse l)) eqn:Hv; [|done].
  apply forallb_Forall_valid. rewrite Forall_forall.
  intros x Hx. apply list_elem_of_In, in_map_iff in Hx as (y & <- & Hy).
  apply list_elem_of_In in Hy. rewrite sort_perm in Hy.
  apply list_elem_of_In, in_map_iff in Hy as (z & <- & Hz).
  rewrite reparse_idemp.
  rewrite forallb_Forall_valid, Forall_forall in Hv. apply Hv.
  apply list_elem_of_In, in_map_iff. eauto.
Qed.

(** ** Arrays *)

Lemma some_perm p l l' : l ≡ₚ l' → some p l = some p l'.
Proof.
  unfold some. induction 1 as [|x l l' _ IH|x y l|l1 l2 l3 _ IH1 _ IH2];
    simpl; [done|by rewrite IH| |congruence].
  destruct (p x), (p y); done.
Qed.

Lemma find_none p l : some p l = false → find p l = None.
Proof.
  unfold some, find. induction l as [|x l IH]; simpl; [done|].
  destruct (p x); [done|]. exact IH.
Qed.

Lemma some_map p f l :
  Forall (λ e, p (f e) = p e) l → some p (map f l) = some p l.
Proof.
  unfold some. induction 1 as [|x l Hx _ IH]; simpl; [done|].
  by rewrite Hx, IH.
Qed.

Lemma some_filter_negb p l : some p (filterA (λ e, negb (p e)) l) = false.
Proof.
  unfold some, filterA. induction l as [|x l IH]; simpl; [done|].
  destruct (p x) eqn:Hx; simpl; [done|]. by rewrite Hx.
Qed.

Lemma filter_length_split p l :
  (length (List.filter p l) + length (filterA (λ e, negb (p e)) l))%nat
  = length l.
Proof.
  unfold filterA. induction l as [|x l IH]; simpl; [done|].
  destruct (p x); simpl; lia.
Qed.

Lemma forallb_map_filter (q : value → bool) (f : value → value) p l :
  forallb q (map f l) = true → forallb q (map f (filterA p l)) = true.
Proof.
  unfold filterA. induction l as [|x l IH]; simpl; [done|].
  intros [Hx Hl]%andb_true_iff. destruct (p x); simpl; [|by apply IH].
  by rewrite Hx, IH.
Qed.

(** The reparsed entries that are valid keep their identifiers. *)
Lemma some_has_id_reparse id l :
  forallb valid (map reparse l) = true →
  some (has_id id) (map reparse l) = some (has_id id) l.
Proof.
  intros H. apply some_map.
  apply forallb_Forall_valid in H. rewrite Forall_forall in *.
  intros e He. apply valid_reparse_has_id, H.
  apply list_elem_of_In, in_map, list_elem_of_In, He.
Qed.

(** ** Deleting *)

Lemma removeEntry_gone id w w' :
  removeEntry id w = (Ret true, w') → some (has_id id) (stored w') = false.
Proof.
  intros (_ & _ & Hst & _)%removeEntry_true.
  assert (storage w' !! StorageKeys_ENTRIES
          = Some (encoded (filterA (λ e, negb (has_id id e)) (stored w))))
    as Hk by (rewrite Hst; apply lookup_insert_eq).
  rewrite (stored_encoded _ _ Hk).
  destruct (forallb valid _) eqn:Hv; [|done].
  rewrite (some_perm _ _ _ (sort_perm _ _)).
  rewrite some_has_id_reparse by done. apply some_filter_negb.
Qed.

Lemma removeEntry_count id w w' :
  removeEntry id w = (Ret true, w') →
  length (List.filter (has_id id) (stored w)) = 1%nat →
  forallb valid (map reparse (stored w)) = true →
  S (length (stored w')) = length (stored w).
Proof.
  intros (_ & _ & Hst & _)%removeEntry_true Hone Hval.
  assert (storage w' !! StorageKeys_ENTRIES
          = Some (encoded (filterA (λ e, negb (has_id id e)) (stored w))))
    as Hk by (rewrite Hst; apply lookup_insert_eq).
  rewrite (stored_encoded _ _ Hk).
  rewrite (forallb_map_filter _ _ _ _ Hval).
  rewrite sort_length, length_map.
  pose proof (filter_length_split (has_id id) (stored w)). lia.
Qed.

(** C6, as the code has it: when no stored entry has the id, [removeEntry]
    returns [false], writes nothing and leaves the storage as it was.  When
    it returns [true], a stored entry had the id, the calls made were a
    read, a write and a read again, no stored entry has the id any more
    and [getEntryById] returns [null]; the count has gone down by exactly
    one when exactly one stored entry had the id and the stored entries
    still pass the validator once encoded again. *)
Theorem removeEntry_deletes (id : value) (w : world) :
  (some (has_id id) (stored w) = false →
     ∃ w', removeEntry id w = (Ret false, w')
           ∧ storage w' = storage w
           ∧ stored w' = stored w
           ∧ (calls w' = calls w
              ∨ calls w' = GetItem StorageKeys_ENTRIES :: calls w))
  ∧ (∀ w', removeEntry id w = (Ret true, w') →
       some (has_id id) (stored w) = true
       ∧ (∃ s, calls w' = GetItem StorageKeys_ENTRIES
                          :: SetItem StorageKeys_ENTRIES s
                          :: GetItem StorageKeys_ENTRIES :: calls w)
       ∧ some (has_id id) (stored w') = false
       ∧ fst (getEntryById id w') = Ret VNull
       ∧ (length (List.filter (has_id id) (stored w)) = 1%nat →
          forallb valid (map reparse (stored w)) = true →
          next_rejects w' = false →
          ∃ n, fst (getEntryCount w) = Ret (S n)
               ∧ fst (getEntryCount w') = Ret n)).
Proof.
  split.
  - intros H. destruct (removeEntry_false _ _ H) as [-> | ->];
      eexists; (split; [done|]); (split; [done|]); (split; [done|]);
      [by left | by right].
  - intros w' Hrun.
    pose proof (removeEntry_gone _ _ _ Hrun) as Hgone.
    pose proof (removeEntry_count _ _ _ Hrun) as Hcount.
    destruct (removeEntry_true _ _ _ Hrun) as (Hrej & Hsome & _ & Hcalls & _).
    split; [done|]. split; [eauto|]. split; [done|]. split.
    + rewrite getEntryById_run. simpl. rewrite find_none; [done|].
      unfold read. by destruct (next_rejects w').
    + intros Hone Hcan Hrej'. exists (length (stored w')).
      rewrite !getEntryCount_run. unfold read. rewrite Hrej, Hrej'. simpl.
      by rewrite Hcount.
Qed.

Lemma removeEntry_deletes_witness :
  let w' := snd (removeEntry (VStr "a") two_stored) in
  fst (getEntryById (VStr "a") w') = Ret VNull
  ∧ fst (getEntryCount two_stored) = Ret 2%nat
  ∧ fst (getEntryCount w') = Ret 1%nat
  ∧ fst (removeEntry (VStr "c") two_stored) = Ret false
  ∧ storage (snd (removeEntry (VStr "c") two_stored)) = storage two_stored.
Proof.
  intros w'.
  destruct (removeEntry_deletes (VStr "a") two_stored) as [_ Hyes].
  destruct (Hyes w') as (_ & _ & _ & Hget & Hcount); [by vm_compute|].
  destruct Hcount as (n & Hn & Hn'); [by vm_compute..|].
  assert (n = 1%nat) as ->
    by (vm_compute in Hn; injection Hn as [= <-]; reflexivity).
  split; [exact Hget|]. split; [exact Hn|]. split; [exact Hn'|].
  destruct (removeEntry_deletes (VStr "c") two_stored) as [Hno _].
  destruct Hno as (w0 & Hrun & Hst & _); [by vm_compute|].
  rewrite Hrun. split; [reflexivity | exact Hst].
Defined.

(** C6 as stated fails: after two successful inserts, made in the same
    millisecond with the same random number, of entries that already carry
    the identifier then generated, both stored entries have that identifier,
    and the delete that succeeds takes the count from two to zero. *)
Lemma removeEntry_count_counterexample :
  let w1 := snd (saveEntry 0 twice) in
  let w2 := snd (saveEntry 1 w1) in
  let w3 := snd (removeEntry (VStr generated_sample) w2) in
  fst (saveEntry 0 twice) = Ret true
  ∧ fst (saveEntry 1 w1) = Ret true
  ∧ fst (getEntryCount w2) = Ret 2%nat
  ∧ fst (removeEntry (VStr generated_sample) w2) = Ret true
  ∧ fst (getEntryCount w3) = Ret 0%nat.
Proof. by vm_compute. Qed.

(** ** Updating *)

Lemma findIndex_Some p l i :
  findIndex p l = Some i →
  ∃ x, l !! i = Some x ∧ p x = true ∧ find p l = Some x.
Proof.
  unfold find. revert i. induction l as [|y l IH]; intros i; simpl; [done|].
  destruct (p y) eqn:Hy.
  - intros [= <-]. eauto.
  - destruct (findIndex p l) as [j|]; [|done]. simpl. intros [= <-].
    destruct (IH j eq_refl) as (x & ? & ? & ?). eauto.
Qed.






Lemma ids_insert l i x u :
  l !! i = Some x → field u "id" = field x "id" →
  ids (<[i := u]> l) = ids l.
Proof.
  unfold ids. revert i. induction l as [|y l IH]; intros [|i]; simpl; try done.
  - by intros [= ->] ->.
  - intros Hi Hu. f_equal. by eapply IH.
Qed.




Lemma set_same m k x : field (set (VObj m) k x) k = x.
Proof. unfold field, set, get. by rewrite lookup_insert_eq. Qed.







(** ** Identifiers after a successful operation *)

Lemma ids_perm l l' : l ≡ₚ l' → ids l ≡ₚ ids l'.
Proof. apply Permutation_map. Qed.

Lemma ids_app l l' : ids (l ++ l') = (ids l ++ ids l')%list.
Proof. apply map_app. Qed.

Lemma ids_filter_NoDup p l : NoDup (ids l) → NoDup (ids (filterA p l)).
Proof.
  unfold filterA. induction l as [|x l IH]; simpl; [done|].
  rewrite NoDup_cons. intros [Hx Hl].
  destruct (p x); simpl; [|by apply IH].
  apply NoDup_cons. split; [|by apply IH].
  intros Hin. apply Hx.
  apply list_elem_of_In, in_map_iff in Hin as (y & Hy & Hin).
  apply filter_In in Hin as [Hin _].
  apply list_elem_of_In, in_map_iff. eauto.
Qed.

Lemma read_ids_NoDup w : NoDup (ids (stored w)) → NoDup (ids (read w)).
Proof. unfold read. destruct (next_rejects w); [constructor | done]. Qed.

Lemma read_ids_subset w x : x ∈ ids (read w) → x ∈ ids (stored w).
Proof. unfold read. destruct (next_rejects w); [by intros ?%elem_of_nil | done]. Qed.

(** The world does not change where the operation does not touch it. *)
Lemma saveEntry_entropy r w w' e :
  saveEntry r w = (Ret true, w') → heap w !! r = Some e →
  some (has_id (field e "id")) (read w) = false →
  clock w' = clock w ∧ random w' = random w ∧ heap w' = heap w.
Proof.
  rewrite saveEntry_run. cbv zeta. intros H Hr Hc. revert H.
  rewrite Hr. cbn [default from_option id]. rewrite Hc. cbn [andb].
  destruct (negb (valid e)); [done|].
  destruct (JSON_stringify _) as [s|x]; [|done].
  destruct (next_rejects _); [done|].
  by intros [= _ <-].
Qed.

Lemma saveEntry_ids r w w' :
  saveEntry r w = (Ret true, w') →
  ∃ e e',
    heap w !! r = Some e ∧ heap w' !! r = Some e' ∧ valid e = true
    ∧ e' = (if some (has_id (field e "id")) (read w)
            then set e "id" (generated_id w) else e)
    ∧ forallb valid (map reparse (read w ++ [e'])) = true
    ∧ stored w' = sort newest_first (map reparse (read w ++ [e']))
    ∧ ids (stored w') ≡ₚ (ids (read w) ++ [field e' "id"])%list.
Proof.
  intros (e & Hr & He & Hheap & Hst & _ & _ & Hv)%saveEntry_true.
  cbv zeta in *.
  set (e' := if some (has_id (field e "id")) (read w)
             then set e "id" (generated_id w) else e) in *.
  assert (storage w' !! StorageKeys_ENTRIES = Some (encoded (read w ++ [e'])))
    as Hk by (rewrite Hst; apply lookup_insert_eq).
  destruct (stored_encoded_some _ _ _ Hk Hv) as [Hval Hstored].
  exists e, e'. repeat split; try done.
  - rewrite Hheap. unfold e'.
    destruct (some _ (read w)); [|done].
    apply list_lookup_insert_eq. by eapply lookup_lt_Some.
  - rewrite Hstored, (ids_perm _ _ (sort_perm _ _)), ids_reparse by done.
    by rewrite ids_app.
Qed.

Lemma set_id_field e x : valid e = true → field (set e "id" x) "id" = x.
Proof. intros [m ->]%valid_record. apply set_same. Qed.

(** The identifier of the entry written is not among those read. *)
Lemma saveEntry_fresh e w :
  valid e = true →
  generated_id w ∉ ids (stored w) →
  field (if some (has_id (field e "id")) (read w)
         then set e "id" (generated_id w) else e) "id" ∉ ids (read w).
Proof.
  intros He Hg. destruct (some _ (read w)) eqn:Hc.
  - rewrite set_id_field by done. intros H. by apply Hg, read_ids_subset.
  - apply not_some_has_id; [apply read_valid | done].
Qed.

Lemma saveEntry_NoDup r w w' :
  NoDup (ids (stored w)) → generated_id w ∉ ids (stored w) →
  saveEntry r w = (Ret true, w') → NoDup (ids (stored w')).
Proof.
  intros Hnd Hg (e & e' & _ & _ & He & -> & _ & _ & Hids)%saveEntry_ids.
  rewrite Hids. apply NoDup_app. split; [by apply read_ids_NoDup|].
  split; [|apply NoDup_singleton].
  intros x Hx ->%list_elem_of_singleton. by eapply saveEntry_fresh.
Qed.

Lemma updateEntry_NoDup u w w' :
  NoDup (ids (stored w)) →
  updateEntry u w = (Ret true, w') → NoDup (ids (stored w')).
Proof.
  intros Hnd (i & Hu & _ & Hi & Hst & _ & _ & _ & Hv)%updateEntry_true.
  assert (storage w' !! StorageKeys_ENTRIES
          = Some (encoded (<[i := u]> (stored w))))
    as Hk by (rewrite Hst; apply lookup_insert_eq).
  destruct (stored_encoded_some _ _ _ Hk Hv) as [Hval ->].
  rewrite (ids_perm _ _ (sort_perm _ _)), ids_reparse by done.
  destruct (findIndex_Some _ _ _ Hi) as (x & Hx & Hpx & _).
  rewrite (ids_insert _ _ x); [done..|].
  symmetry. by apply has_id_eq.
Qed.

Lemma removeEntry_NoDup id w w' :
  NoDup (ids (stored w)) →
  removeEntry id w = (Ret true, w') → NoDup (ids (stored w')).
Proof.
  intros Hnd (_ & _ & Hst & _)%removeEntry_true.
  assert (storage w' !! StorageKeys_ENTRIES
          = Some (encoded (filterA (λ e, negb (has_id id e)) (stored w))))
    as Hk by (rewrite Hst; apply lookup_insert_eq).
  rewrite (stored_encoded _ _ Hk).
  destruct (forallb valid _) eqn:Hval; [|constructor].
  rewrite (ids_perm _ _ (sort_perm _ _)), ids_reparse by done.
  by apply ids_filter_NoDup.
Qed.

Lemma no_faults_read w : faults w = [] → read w = stored w.
Proof. unfold read, next_rejects. by intros ->. Qed.

Lemma some_has_id_in e l :
  valid e = true → e ∈ l → some (has_id (field e "id")) l = true.
Proof.
  intros He Hin. unfold some. apply existsb_exists. exists e.
  split; [by apply list_elem_of_In | by apply has_id_valid].
Qed.

Lemma in_ids_some s l :
  Forall (λ e, valid e = true) l →
  VStr s ∈ ids l → some (has_id (VStr s)) l = true.
Proof.
  intros Hl Hin.
  apply list_elem_of_In, in_map_iff in Hin as (e & He & Hin).
  apply list_elem_of_In in Hin. rewrite <- He.
  apply some_has_id_in; [|done].
  rewrite Forall_forall in Hl. by apply Hl.
Qed.

(** Two inserts of entries that carry the same identifier. *)
Lemma saveEntry_twice r1 r2 e1 e2 a w w1 w2 :
  faults w = [] →
  heap w !! r1 = Some e1 → heap w !! r2 = Some e2 →
  field e1 "id" = VStr a → field e2 "id" = VStr a →
  VStr a ∉ ids (stored w) →
  saveEntry r1 w = (Ret true, w1) → saveEntry r2 w1 = (Ret true, w2) →
  ids (stored w2) ≡ₚ VStr a :: generated_id w :: ids (stored w)
  ∧ ∃ x, heap w2 !! r2 = Some x ∧ field x "id" = generated_id w.
Proof.
  intros Hf Hr1 Hr2 Ha1 Ha2 Hnew Hs1 Hs2.
  assert (some (has_id (field e1 "id")) (read w) = false) as Hc1.
  { destruct (some _ _) eqn:Hc; [|done].
    apply some_has_id in Hc. rewrite Ha1 in Hc.
    by apply read_ids_subset in Hc. }
  destruct (saveEntry_entropy _ _ _ _ Hs1 Hr1 Hc1) as (Hclock & Hrandom & Hheap).
  destruct (saveEntry_true _ _ _ Hs1) as (? & _ & _ & _ & _ & _ & Hf1 & _).
  rewrite Hf in Hf1. simpl in Hf1.
  destruct (saveEntry_ids _ _ _ Hs1)
    as (x1 & x1' & Hx1 & _ & He1 & -> & _ & Hst1 & Hids1).
  assert (x1 = e1) as -> by congruence. rewrite Hc1 in *.
  rewrite (no_faults_read _ Hf), Ha1 in Hids1.
  destruct (saveEntry_ids _ _ _ Hs2)
    as (x2 & x2' & Hx2 & Hx2' & He2 & -> & _ & _ & Hids2).
  rewrite Hheap in Hx2. assert (x2 = e2) as -> by congruence.
  rewrite (no_faults_read _ Hf1) in *.
  assert (generated_id w1 = generated_id w) as Hg
    by (unfold generated_id; by rewrite Hclock, Hrandom).
  assert (some (has_id (field e2 "id")) (stored w1) = true) as Hc2.
  { rewrite Ha2. apply in_ids_some; [apply stored_valid|].
    rewrite Hids1. apply elem_of_app. right. by left. }
  rewrite Hc2, Hg in *. rewrite set_id_field in Hids2 by done.
  split.
  - rewrite Hids2, Hids1.
    rewrite <- app_assoc. simpl.
    by rewrite Permutation_app_comm.
  - exists (set e2 "id" (generated_id w)). split; [done|].
    by apply set_id_field.
Qed.

(** C1, as the code has it: a successful [saveEntry], [updateEntry] or
    [removeEntry] on a collection whose identifiers are pairwise distinct
    leaves them pairwise distinct, for [saveEntry] provided that the
    identifier it would generate is not stored already.  When no storage
    call is rejected, two successful inserts of entries with the same
    identifier, which is not stored and is not the one generated, store it
    once and the generated identifier once, which is also written to the
    second caller's object. *)
Theorem ids_stay_distinct (w : world) :
  NoDup (ids (stored w)) →
  (∀ entry w', generated_id w ∉ ids (stored w) →
     saveEntry entry w = (Ret true, w') → NoDup (ids (stored w')))
  ∧ (∀ updatedEntry w',
       updateEntry updatedEntry w = (Ret true, w') → NoDup (ids (stored w')))
  ∧ (∀ id w', removeEntry id w = (Ret true, w') → NoDup (ids (stored w')))
  ∧ (∀ r1 r2 e1 e2 a w1 w2,
       faults w = [] →
       heap w !! r1 = Some e1 → heap w !! r2 = Some e2 →
       field e1 "id" = VStr a → field e2 "id" = VStr a →
       VStr a ∉ ids (stored w) →
       generated_id w ≠ VStr a → generated_id w ∉ ids (stored w) →
       saveEntry r1 w = (Ret true, w1) → saveEntry r2 w1 = (Ret true, w2) →
       ids (stored w2) ≡ₚ VStr a :: generated_id w :: ids (stored w)
       ∧ NoDup (ids (stored w2))
       ∧ ∃ x, heap w2 !! r2 = Some x ∧ field x "id" = generated_id w).
Proof.
  intros Hnd. split; [|split; [|split]].
  - intros r w' Hg. by apply saveEntry_NoDup.
  - intros u w'. by apply updateEntry_NoDup.
  - intros id w'. by apply removeEntry_NoDup.
  - intros r1 r2 e1 e2 a w1 w2 Hf Hr1 Hr2 Ha1 Ha2 Hnew Hga Hg Hs1 Hs2.
    destruct (saveEntry_twice _ _ _ _ _ _ _ _ Hf Hr1 Hr2 Ha1 Ha2 Hnew Hs1 Hs2)
      as [Hids Hx].
    split; [done|]. split; [|done].
    rewrite Hids. apply NoDup_cons. split.
    + intros [?|?]%elem_of_cons; [congruence | done].
    + by apply NoDup_cons.
Qed.

Lemma ids_stay_distinct_witness :
  let w1 := snd (saveEntry 0 same_id_twice) in
  let w2 := snd (saveEntry 1 w1) in
  NoDup (ids (stored w1))
  ∧ ids (stored w2)
    ≡ₚ [VStr "a"; VStr generated_sample; VStr "x"]
  ∧ NoDup (ids (stored w2))
  ∧ NoDup (ids (stored (snd (updateEntry (sample "x" 7) same_id_twice))))
  ∧ NoDup (ids (stored (snd (removeEntry (VStr "x") same_id_twice)))).
Proof.
  assert (ids (stored same_id_twice) = [VStr "x"]) as Hids
    by (vm_compute; reflexivity).
  assert (NoDup (ids (stored same_id_twice))) as Hnd
    by (rewrite Hids; apply NoDup_singleton).
  assert (generated_id same_id_twice = VStr generated_sample) as Hgen
    by (vm_compute; reflexivity).
  assert (generated_id same_id_twice ∉ ids (stored same_id_twice)) as Hg.
  { rewrite Hids, Hgen. intros H%list_elem_of_singleton. discriminate H. }
  assert (VStr "a" ∉ ids (stored same_id_twice)) as Ha.
  { rewrite Hids. intros H%list_elem_of_singleton. discriminate H. }
  assert (generated_id same_id_twice ≠ VStr "a") as Hga.
  { rewrite Hgen. discriminate. }
  destruct (ids_stay_distinct same_id_twice Hnd) as (Hs & Hu & Hr & Htwice).
  pose proof (Htwice 0%nat 1%nat (sample "a" 10) (sample "a" 20) "a"
                (snd (saveEntry 0 same_id_twice))
                (snd (saveEntry 1 (snd (saveEntry 0 same_id_twice))))
                eq_refl eq_refl eq_refl eq_refl eq_refl Ha Hga Hg)
    as Htwo.
  destruct Htwo as (Hperm & Hnd2 & _);
    [vm_compute; reflexivity | vm_compute; reflexivity|].
  rewrite Hids, Hgen in Hperm.
  intros w1 w2.
  split; [apply (Hs 0%nat); [exact Hg | vm_compute; reflexivity]|].
  split; [exact Hperm|]. split; [exact Hnd2|].
  split; [apply (Hu (sample "x" 7)) | apply (Hr (VStr "x"))];
    vm_compute; reflexivity.
Defined.

(** C1 as stated fails: two successful inserts into an empty storage, made
    in the same millisecond with the same random number, of entries that
    carry the identifier then generated leave two stored entries with one
    identifier, which neither insert has changed to another. *)
Lemma ids_distinct_counterexample :
  let w1 := snd (saveEntry 0 twice) in
  let w2 := snd (saveEntry 1 w1) in
  stored twice = []
  ∧ fst (saveEntry 0 twice) = Ret true
  ∧ fst (saveEntry 1 w1) = Ret true
  ∧ ids (stored w2) = [VStr generated_sample; VStr generated_sample]
  ∧ ¬ NoDup (ids (stored w2)).
Proof.
  intros w1 w2.
  assert (ids (stored w2) = [VStr generated_sample; VStr generated_sample])
    as Hids by (vm_compute; reflexivity).
  split; [vm_compute; reflexivity|].
  split; [vm_compute; reflexivity|].
  split; [vm_compute; reflexivity|].
  split; [exact Hids|].
  rewrite Hids. intros [Hin _]%NoDup_cons. apply Hin. by left.
Qed.

(** ** Insert, then fetch *)

Lemma find_unique p l l' x :
  l ≡ₚ l' → x ∈ l → p x = true →
  (∀ y, y ∈ l → p y = true → y = x) →
  find p l' = Some x.
Proof.
  intros Hperm Hx Hpx Huniq. unfold find.
  destruct (List.find p l') as [z|] eqn:Hz.
  - apply List.find_some in Hz as [Hz Hpz]. f_equal. apply Huniq; [|done].
    rewrite Hperm. by apply list_elem_of_In.
  - exfalso. eapply List.find_none in Hz; [|apply list_elem_of_In; by rewrite <- Hperm].
    congruence.
Qed.

Lemma saveEntry_getEntryById r w w' e' :
  saveEntry r w = (Ret true, w') →
  heap w' !! r = Some e' →
  reparse e' = e' →
  generated_id w ∉ ids (stored w) →
  next_rejects w' = false →
  fst (getEntryById (field e' "id") w') = Ret e'.
Proof.
  intros Hrun Hr Hre Hg Hrej.
  destruct (saveEntry_ids _ _ _ Hrun)
    as (e & x' & _ & Hx' & He & Hdef & Hval & Hst & _).
  assert (x' = e') as -> by congruence.
  pose proof (saveEntry_fresh e w He Hg) as Hfresh. rewrite <- Hdef in Hfresh.
  rewrite map_app in Hval, Hst. simpl in Hval, Hst. rewrite Hre in Hval, Hst.
  apply forallb_Forall_valid in Hval.
  apply Forall_app in Hval as [Hold Hnew]. rewrite Forall_singleton in Hnew.
  rewrite getEntryById_run. unfold read. rewrite Hrej. cbn [fst].
  rewrite (find_unique _ (map reparse (read w) ++ [e']) _ e').
  - simpl. destruct (valid_record _ Hnew) as [m ->]. reflexivity.
  - rewrite Hst. symmetry. apply sort_perm.
  - apply elem_of_app. right. by left.
  - by apply has_id_valid.
  - intros y [Hy|Hy%list_elem_of_singleton]%elem_of_app Hid; [|done].
    exfalso. apply Hfresh.
    rewrite Forall_forall in Hold. pose proof (Hold y Hy) as Hvy.
    apply has_id_eq in Hid. rewrite <- Hid.
    apply list_elem_of_In, in_map_iff in Hy as (y0 & <- & Hy0).
    rewrite valid_reparse_id by done.
    apply list_elem_of_In, in_map_iff. eauto.
Qed.

Lemma reparse_set_id e s :
  reparse e = e → reparse (set e "id" (VStr s)) = set e "id" (VStr s).
Proof.
  destruct e as [ | |b|n|t|z|l|m]; try done.
  unfold reparse. simpl. intros [= H].
  rewrite (omap_insert_Some _ _ _ _ (JStr s)) by done.
  by rewrite fmap_insert, H.
Qed.

(** C5, as the code has it: after a successful insert of an entry that is
    unchanged by JSON encoding, the caller's object is the entry, with the
    generated identifier when it collided; fetching by the identifier that
    the object then carries returns an entry equal to it in all fields,
    provided that the identifier the insert would generate is not stored
    already and that the read of the fetch is not rejected. *)
Theorem saveEntry_round_trip (entry : nat) (w w' : world) (e : value) :
  heap w !! entry = Some e →
  reparse e = e →
  generated_id w ∉ ids (stored w) →
  saveEntry entry w = (Ret true, w') →
  next_rejects w' = false →
  ∃ e', heap w' !! entry = Some e'
        ∧ (e' = e ∨ e' = set e "id" (generated_id w))
        ∧ validateEntry e' = Ret true
        ∧ fst (getEntryById (field e' "id") w') = Ret e'.
Proof.
  intros Hr Hre Hg Hrun Hrej.
  destruct (saveEntry_ids _ _ _ Hrun)
    as (x & e' & Hx & He' & _ & Hdef & Hval & _).
  assert (x = e) as -> by congruence.
  assert (reparse e' = e') as Hre'.
  { rewrite Hdef. destruct (some _ (read w)); [|done].
    by apply reparse_set_id. }
  exists e'. split; [done|]. split.
  { rewrite Hdef. destruct (some _ (read w)); auto. }
  split; [|by eapply saveEntry_getEntryById].
  rewrite map_app in Hval. simpl in Hval. rewrite Hre' in Hval.
  apply forallb_Forall_valid, Forall_app in Hval as [_ Hnew].
  rewrite Forall_singleton in Hnew. by rewrite validateEntry_valid, Hnew.
Qed.

Lemma saveEntry_round_trip_witness :
  let w1 := snd (saveEntry 0 same_id_twice) in
  let w2 := snd (saveEntry 1 w1) in
  heap w2 !! 1%nat = Some (sample generated_sample 20)
  ∧ fst (getEntryById (VStr generated_sample) w2)
    = Ret (sample generated_sample 20).
Proof.
  intros w1 w2.
  assert (ids (stored w1) = [VStr "a"; VStr "x"]) as Hids
    by (vm_compute; reflexivity).
  assert (generated_id w1 ∉ ids (stored w1)) as Hg.
  { rewrite Hids. vm_compute.
    intros [H|[H|H]%elem_of_cons]%elem_of_cons;
      [discriminate H | discriminate H | by apply elem_of_nil in H]. }
  destruct (saveEntry_round_trip 1 w1 w2 (sample "a" 20))
    as (e' & He' & _ & _ & Hget);
    [vm_compute; reflexivity | vm_compute; reflexivity | exact Hg
    | vm_compute; reflexivity | vm_compute; reflexivity |].
  assert (e' = sample generated_sample 20) as ->.
  { vm_compute in He'. injection He' as <-. vm_compute. reflexivity. }
  split; [exact He' | exact Hget].
Defined.

(** C5 as stated fails: an entry of the declared type whose weather has the
    temperature [NaN] passes the validator and is inserted with success, and
    the entry then fetched by its identifier has the temperature [null].
    And an insert that resolves a collision with an identifier that is
    stored already succeeds, after which fetching by the identifier written
    to the caller's object returns the other entry. *)
Lemma saveEntry_round_trip_counterexample :
  let w := world_of None [stormy] [] [] in
  let w' := snd (saveEntry 0 w) in
  let v' := snd (saveEntry 0 crowded) in
  (validateEntry stormy = Ret true
   ∧ TravelEntry stormy = true
   ∧ fst (saveEntry 0 w) = Ret true
   ∧ heap w' !! 0%nat = Some stormy
   ∧ fst (getEntryById (VStr "a") w')
     = Ret (having "weather" (VObj {[ "temperature" := VNull ]})
              (sample "a" 10))
   ∧ fst (getEntryById (VStr "a") w') ≠ Ret stormy)
  ∧ (fst (saveEntry 0 crowded) = Ret true
     ∧ heap v' !! 0%nat = Some (sample generated_sample 10)
     ∧ fst (getEntryById (VStr generated_sample) v')
       = Ret (sample generated_sample 30)).
Proof.
  intros w w' v'.
  assert (fst (getEntryById (VStr "a") w')
          = Ret (having "weather" (VObj {[ "temperature" := VNull ]})
                   (sample "a" 10))) as Hget by (vm_compute; reflexivity).
  split.
  - split; [vm_compute; reflexivity|].
    split; [vm_compute; reflexivity|].
    split; [vm_compute; reflexivity|].
    split; [vm_compute; reflexivity|].
    split; [exact Hget|].
    rewrite Hget. vm_compute. intros H. discriminate H.
  - split; [vm_compute; reflexivity|].
    split; vm_compute; reflexivity.
Qed.

(** ** A number that is not a number *)

(** An entry whose latitude is [NaN] passes the validator.  Inserting it
    returns [false], but the text then stored has [null] for the latitude
    and fails the validator as a whole: the entry stored before is out of
    reach. *)
Lemma saveEntry_not_a_number :
  let e := having "latitude" (VNum NaN) (sample "b" 20) in
  let w := world_of (Some (encoded [sample "a" 10])) [e] [] [] in
  validateEntry e = Ret true
  ∧ fst (saveEntry 0 w) = Ret false
  ∧ stored w = [sample "a" 10]
  ∧ stored (snd (saveEntry 0 w)) = [].
Proof.
  intros e w.
  split; [vm_compute; reflexivity|].
  split; [vm_compute; reflexivity|].
  split; vm_compute; reflexivity.
Qed.

(** * Further properties of the store *)

(** ** What the operations leave alone *)

Lemma saveEntry_storage r w :
  storage (snd (saveEntry r w)) = storage w
  ∨ ∃ l, storage (snd (saveEntry r w))
         = <[StorageKeys_ENTRIES := encoded l]> (storage w).
Proof.
  rewrite saveEntry_run. cbv zeta.
  destruct (negb (valid _)); [by left|].
  destruct (_ && is_frozen r w); [by left|].
  destruct (JSON_stringify _) as [s|x] eqn:Hs.
  - apply JSON_stringify_Ret in Hs as ->. destruct (next_rejects _).
    + left. by destruct (some _ (read w)).
    + right. destruct (some _ (read w)); eexists; reflexivity.
  - left. by destruct (some _ (read w)).
Qed.

Lemma removeEntry_storage id w :
  storage (snd (removeEntry id w)) = storage w
  ∨ ∃ l, storage (snd (removeEntry id w))
         = <[StorageKeys_ENTRIES := encoded l]> (storage w).
Proof.
  rewrite removeEntry_run. cbv zeta.
  destruct (negb (truthy id) || _); [by left|].
  destruct (negb (some _ (read w))); [by left|].
  destruct (JSON_stringify _) as [s|x] eqn:Hs; [|by left].
  apply JSON_stringify_Ret in Hs as ->.
  destruct (next_rejects _); [by left|]. right. by eexists.
Qed.

Lemma updateEntry_storage u w :
  storage (snd (updateEntry u w)) = storage w
  ∨ ∃ l, storage (snd (updateEntry u w))
         = <[StorageKeys_ENTRIES := encoded l]> (storage w).
Proof.
  rewrite updateEntry_run. cbv zeta.
  destruct (negb (valid u)); [by left|].
  destruct (findIndex _ _) as [i|]; [|by left].
  destruct (JSON_stringify _) as [s|x] eqn:Hs; [|by left].
  apply JSON_stringify_Ret in Hs as ->.
  destruct (next_rejects _); [by left|]. right. by eexists.
Qed.

Lemma clearAllEntries_storage w :
  storage (snd (clearAllEntries w)) = storage w
  ∨ storage (snd (clearAllEntries w)) = delete StorageKeys_ENTRIES (storage w).
Proof.
  rewrite clearAllEntries_run. cbv zeta.
  destruct (next_rejects w); [by left | by right].
Qed.

(** X1: no operation of the store changes what AsyncStorage holds under
    another key, such as the theme or the launch counters. *)
Theorem other_keys_untouched (k : string) (w : world) (entry : nat)
  (updatedEntry id : value) :
  k ≠ StorageKeys_ENTRIES →
  storage (snd (saveEntry entry w)) !! k = storage w !! k
  ∧ storage (snd (getEntries w)) !! k = storage w !! k
  ∧ storage (snd (getEntryById id w)) !! k = storage w !! k
  ∧ storage (snd (removeEntry id w)) !! k = storage w !! k
  ∧ storage (snd (updateEntry updatedEntry w)) !! k = storage w !! k
  ∧ storage (snd (clearAllEntries w)) !! k = storage w !! k
  ∧ storage (snd (getEntryCount w)) !! k = storage w !! k
  ∧ storage (snd (debugStorage w)) !! k = storage w !! k.
Proof.
  intros Hk.
  split; [destruct (saveEntry_storage entry w) as [-> | [l ->]];
          [done | by apply lookup_insert_ne]|].
  split; [by rewrite getEntries_run|].
  split; [by rewrite getEntryById_run|].
  split; [destruct (removeEntry_storage id w) as [-> | [l ->]];
          [done | by apply lookup_insert_ne]|].
  split; [destruct (updateEntry_storage updatedEntry w) as [-> | [l ->]];
          [done | by apply lookup_insert_ne]|].
  split; [destruct (clearAllEntries_storage w) as [-> | ->];
          [done | by apply lookup_delete_ne]|].
  split; [by rewrite getEntryCount_run | by rewrite debugStorage_run].
Qed.

Lemma other_keys_untouched_witness :
  storage (snd (saveEntry 0 themed)) !! StorageKeys_THEME
  = Some (TextJson (JStr "dark"))
  ∧ storage (snd (clearAllEntries themed)) !! StorageKeys_THEME
    = Some (TextJson (JStr "dark"))
  ∧ storage (snd (removeEntry (VStr "a") themed)) !! StorageKeys_THEME
    = Some (TextJson (JStr "dark")).
Proof.
  assert (StorageKeys_THEME ≠ StorageKeys_ENTRIES) as Hk by discriminate.
  destruct (other_keys_untouched StorageKeys_THEME themed 0 VNull (VStr "a") Hk)
    as (Hs & _ & _ & Hr & _ & Hc & _).
  rewrite Hs, Hr, Hc. split; [|split]; vm_compute; reflexivity.
Defined.

(** X2: the four reading operations make one [getItem] call and nothing
    else: the storage, the callers' objects, the clock and the random
    numbers are as before. *)
Theorem reading_operations_read_only (w : world) (id : value) :
  only_read w (snd (getEntries w))
  ∧ only_read w (snd (getEntryById id w))
  ∧ only_read w (snd (getEntryCount w))
  ∧ only_read w (snd (debugStorage w)).
Proof.
  by rewrite getEntries_run, getEntryById_run, getEntryCount_run,
    debugStorage_run.
Qed.

(** ** Fetching by identifier *)

Lemma number_le_trans p q r :
  number_le p q = true → number_le q r = true → number_le p r = true.
Proof.
  destruct p as [|[]|x], q as [|[]|y], r as [|[]|z]; try done; simpl.
  rewrite !Z.leb_le. lia.
Qed.

Lemma newer_or_equal_trans a b c :
  newer_or_equal a b → newer_or_equal b c → newer_or_equal a c.
Proof. unfold newer_or_equal. intros H1 H2. by eapply number_le_trans. Qed.

Lemma newer_or_equal_refl a : dated a → newer_or_equal a a.
Proof.
  unfold newer_or_equal, dated. destruct (createdAt a) as [|[]|x]; try done.
  intros _. apply Z.leb_refl.
Qed.

Lemma decode_strongly_sorted s : StronglySorted newer_or_equal (decode s).
Proof.
  apply Sorted_StronglySorted; [|apply decode_sorted].
  intros a b c. apply newer_or_equal_trans.
Qed.

(** [find] returns the first element that satisfies the predicate. *)
Lemma find_first p l e :
  find p l = Some e →
  p e = true ∧ ∃ l1 l2, l = (l1 ++ e :: l2)%list ∧ Forall (λ x, p x = false) l1.
Proof.
  unfold find. induction l as [|y l IH]; simpl; [done|].
  destruct (p y) eqn:Hy.
  - intros [= ->]. split; [done|]. exists [], l. split; [done|constructor].
  - intros H. destruct (IH H) as (Hp & l1 & l2 & -> & Hl1).
    split; [done|]. exists (y :: l1), l2. split; [done|]. by constructor.
Qed.

Lemma find_some_true p l :
  some p l = true → ∃ e, find p l = Some e.
Proof.
  unfold some, find. induction l as [|y l IH]; simpl; [done|].
  destruct (p y); [eauto | exact IH].
Qed.

(** The first match in a sorted collection is at least as new as every
    other match. *)
Lemma find_newest p l e :
  StronglySorted newer_or_equal l → Forall dated l →
  find p l = Some e →
  ∀ x, x ∈ l → p x = true → newer_or_equal e x.
Proof.
  intros Hs Hd (Hp & l1 & l2 & -> & Hl1)%find_first x Hx Hpx.
  apply elem_of_app in Hx as [Hx|Hx].
  { rewrite Forall_forall in Hl1. rewrite (Hl1 x Hx) in Hpx. done. }
  apply StronglySorted_app_1_r in Hs. apply StronglySorted_inv in Hs as [_ Hs].
  apply elem_of_cons in Hx as [->|Hx].
  - apply newer_or_equal_refl.
    rewrite Forall_app, Forall_cons in Hd. tauto.
  - rewrite Forall_forall in Hs. by apply Hs.
Qed.

(** X3: [getEntryById] returns [null] or an entry of the stored collection
    that passes the validator and has the identifier asked for; when the
    read is not rejected and some stored entry has the identifier, it
    returns one, and that one is at least as new as every other stored
    entry with the identifier. *)
Theorem getEntryById_finds (id : value) (w : world) :
  (fst (getEntryById id w) = Ret VNull
   ∨ ∃ e, fst (getEntryById id w) = Ret e
          ∧ e ∈ stored w ∧ field e "id" = id
          ∧ validateEntry e = Ret true)
  ∧ (next_rejects w = false → some (has_id id) (stored w) = true →
     ∃ e, fst (getEntryById id w) = Ret e
          ∧ e ∈ stored w ∧ field e "id" = id
          ∧ ∀ x, x ∈ stored w → field x "id" = id → newer_or_equal e x).
Proof.
  rewrite getEntryById_run. cbn [fst].
  assert (∀ e, find (has_id id) (stored w) = Some e →
               e ∈ stored w ∧ field e "id" = id ∧ valid e = true
               ∧ truthy e = true) as Hfound.
  { intros e He. pose proof He as (Hp & l1 & l2 & Hl & _)%find_first.
    assert (e ∈ stored w) as Hin
      by (rewrite Hl; apply elem_of_app; right; by left).
    pose proof (stored_valid w) as Hv. rewrite Forall_forall in Hv.
    split; [done|]. split; [by apply has_id_eq|]. split; [by apply Hv|].
    destruct (valid_record e (Hv e Hin)) as [m ->]. done. }
  split.
  - unfold read. destruct (next_rejects w); [by left|].
    destruct (find (has_id id) (stored w)) as [e|]; [|by left].
    destruct (Hfound e eq_refl) as (Hin & Hid & Hv & Ht).
    right. exists e. cbn [default from_option Datatypes.id]. rewrite Ht.
    split; [done|]. split; [done|]. split; [done|].
    by rewrite validateEntry_valid, Hv.
  - intros Hrej Hsome. unfold read. rewrite Hrej.
    destruct (find_some_true _ _ Hsome) as [e He]. rewrite He.
    destruct (Hfound e He) as (Hin & Hid & Hv & Ht).
    exists e. cbn [default from_option Datatypes.id]. rewrite Ht.
    split; [done|]. split; [done|]. split; [done|].
    intros x Hx Hxid.
    eapply find_newest; [apply decode_strongly_sorted | apply decode_dated
                        | exact He | exact Hx |].
    pose proof (stored_valid w) as Hvs. rewrite Forall_forall in Hvs.
    apply has_id_valid; [by apply Hvs | done].
Qed.

Lemma getEntryById_finds_witness :
  ∃ e, fst (getEntryById (VStr "a") shared_id) = Ret e
       ∧ e ∈ stored shared_id ∧ field e "id" = VStr "a"
       ∧ ∀ x, x ∈ stored shared_id → field x "id" = VStr "a" →
              newer_or_equal e x.
Proof.
  apply (proj2 (getEntryById_finds (VStr "a") shared_id));
    vm_compute; reflexivity.
Defined.

(** ** Clearing *)

(** X4: [clearAllEntries] returns [true] exactly when its [removeItem] call
    is not rejected; the key is then gone, the collection is empty, and the
    verification that follows can never fail, not even when its read is
    rejected.  With the call rejected, the storage is as it was and no read
    is made. *)
Theorem clearAllEntries_clears (w : world) :
  (next_rejects w = false →
     fst (clearAllEntries w) = Ret true
     ∧ storage (snd (clearAllEntries w))
       = delete StorageKeys_ENTRIES (storage w)
     ∧ stored (snd (clearAllEntries w)) = []
     ∧ calls (snd (clearAllEntries w))
       = GetItem StorageKeys_ENTRIES :: RemoveItem StorageKeys_ENTRIES
         :: calls w)
  ∧ (next_rejects w = true →
       fst (clearAllEntries w) = Ret false
       ∧ storage (snd (clearAllEntries w)) = storage w
       ∧ calls (snd (clearAllEntries w))
         = RemoveItem StorageKeys_ENTRIES :: calls w).
Proof.
  rewrite clearAllEntries_run. cbv zeta. split; intros ->; [|done].
  assert (∀ v, stored v = [] → read v = []) as Hread
    by (intros v Hv; unfold read; rewrite Hv; by destruct (next_rejects v)).
  rewrite Hread.
  - repeat split. unfold stored. simpl. by rewrite lookup_delete_eq.
  - unfold stored. simpl. by rewrite lookup_delete_eq.
Qed.

Lemma clearAllEntries_clears_witness :
  (fst (clearAllEntries (with_faults [false; true] two_stored)) = Ret true
   ∧ stored (snd (clearAllEntries (with_faults [false; true] two_stored)))
     = [])
  ∧ (fst (clearAllEntries (with_faults [true] two_stored)) = Ret false
     ∧ storage (snd (clearAllEntries (with_faults [true] two_stored)))
       = storage two_stored).
Proof.
  split.
  - destruct (proj1 (clearAllEntries_clears
                       (with_faults [false; true] two_stored)))
      as (H1 & _ & H2 & _); [reflexivity|].
    split; [exact H1 | exact H2].
  - destruct (proj2 (clearAllEntries_clears (with_faults [true] two_stored)))
      as (H1 & H2 & _); [reflexivity|].
    split; [exact H1 | exact H2].
Defined.

(** ** Identifiers that are not non-empty strings *)

Lemma has_id_string id e :
  valid e = true → has_id id e = true → ∃ s, id = VStr s.
Proof.
  intros [s Hs]%valid_id_string. unfold has_id. rewrite Hs.
  destruct id; try done. eauto.
Qed.

Lemma some_has_id_string id l :
  Forall (λ e, valid e = true) l → some (has_id id) l = true →
  ∃ s, id = VStr s.
Proof.
  intros Hl (e & He & Hid)%existsb_exists.
  rewrite Forall_forall in Hl. apply list_elem_of_In in He.
  eapply has_id_string; [by apply Hl | done].
Qed.

(** X5: an identifier that is not a non-empty string is refused by
    [removeEntry] before any storage call: the result is [false] and the
    world is as it was; a non-empty string always leads to a read.  An
    identifier that is not a string at all matches no stored entry, so
    [getEntryById] returns [null] for it. *)
Theorem identifier_guard (id : value) (w : world) :
  ((∀ s, id = VStr s → s = "") → removeEntry id w = (Ret false, w))
  ∧ (∀ s, id = VStr s → s ≠ "" →
       ∃ rest, calls (snd (removeEntry id w))
               = (rest ++ GetItem StorageKeys_ENTRIES :: calls w)%list)
  ∧ ((∀ s, id ≠ VStr s) → fst (getEntryById id w) = Ret VNull).
Proof.
  split; [|split].
  - intros Hid. rewrite removeEntry_run.
    destruct id; cbn [typeof]; rewrite ?orb_true_r; try done.
    rewrite (Hid _ eq_refl). done.
  - intros s -> Hs. rewrite removeEntry_run.
    assert (truthy (VStr s) = true) as ->.
    { simpl. destruct (String.eqb_spec s ""); [done|done]. }
    cbn [typeof negb orb]. rewrite String.eqb_refl. cbv zeta. cbn [negb].
    destruct (negb (some _ (read w))); [by exists []|].
    destruct (JSON_stringify _); [|by exists []].
    destruct (next_rejects (called _ w)).
    + eexists [_]. reflexivity.
    + eexists [_; _]. reflexivity.
  - intros Hid. rewrite getEntryById_run. cbn [fst].
    rewrite find_none; [done|].
    destruct (some (has_id id) (read w)) eqn:H; [|done].
    destruct (some_has_id_string _ _ (read_valid w) H) as [s ->].
    by destruct (Hid s).
Qed.

Lemma identifier_guard_witness :
  removeEntry (VNum (Fin 7)) two_stored = (Ret false, two_stored)
  ∧ removeEntry VUndefined two_stored = (Ret false, two_stored)
  ∧ (∃ rest, calls (snd (removeEntry (VStr "zz") two_stored))
             = (rest ++ GetItem StorageKeys_ENTRIES :: calls two_stored)%list)
  ∧ fst (getEntryById (VNum (Fin 7)) two_stored) = Ret VNull.
Proof.
  split; [|split; [|split]].
  - apply (proj1 (identifier_guard (VNum (Fin 7)) two_stored)).
    intros s Hs. discriminate Hs.
  - apply (proj1 (identifier_guard VUndefined two_stored)).
    intros s Hs. discriminate Hs.
  - apply (proj1 (proj2 (identifier_guard (VStr "zz") two_stored)) "zz");
      [reflexivity|].
    intros Hs. discriminate Hs.
  - apply (proj2 (proj2 (identifier_guard (VNum (Fin 7)) two_stored))).
    intros s Hs. discriminate Hs.
Defined.

(** ** Texts the store has written *)

Lemma stored_canonical w l :
  storage w !! StorageKeys_ENTRIES = Some (encoded l) → canonical w.
Proof.
  intros H. unfold canonical. rewrite (stored_encoded _ _ H).
  destruct (forallb valid (map reparse l)); [|constructor].
  rewrite Forall_forall. intros x Hx. rewrite sort_perm in Hx.
  apply list_elem_of_In, in_map_iff in Hx as (y & <- & _).
  apply reparse_idemp.
Qed.

Lemma map_reparse_canonical l :
  Forall (λ e, reparse e = e) l → map reparse l = l.
Proof. induction 1 as [|x l Hx _ IH]; simpl; [done|]. by rewrite Hx, IH. Qed.

Lemma canonical_empty w : stored w = [] → canonical w.
Proof. unfold canonical. intros ->. constructor. Qed.

Lemma canonical_storage w w' :
  storage w' !! StorageKeys_ENTRIES = storage w !! StorageKeys_ENTRIES →
  canonical w → canonical w'.
Proof. unfold canonical, stored. by intros ->. Qed.

(** What is read back from the text written for a canonical, valid and
    sorted collection is that collection. *)
Lemma decode_encoded l :
  Forall (λ e, reparse e = e) l → Forall (λ e, valid e = true) l →
  Sorted newer_or_equal l →
  decode (Some (encoded l)) = l.
Proof.
  intros Hc Hv Hs. rewrite decode_stringify, map_reparse_canonical by done.
  apply forallb_Forall_valid in Hv. rewrite Hv. by apply sort_sorted_id.
Qed.

Lemma StronglySorted_filter (p : value → bool) l :
  StronglySorted newer_or_equal l →
  StronglySorted newer_or_equal (List.filter p l).
Proof.
  induction 1 as [|x l Hl IH Hx]; simpl; [constructor|].
  destruct (p x); [|done]. constructor; [done|].
  rewrite Forall_forall in *. intros y Hy.
  apply list_elem_of_In, filter_In in Hy as [Hy _].
  by apply Hx, list_elem_of_In.
Qed.

Lemma Forall_filter (P : value → Prop) (p : value → bool) l :
  Forall P l → Forall P (List.filter p l).
Proof.
  rewrite !Forall_forall. intros H y Hy.
  apply list_elem_of_In, filter_In in Hy as [Hy _].
  by apply H, list_elem_of_In.
Qed.

Lemma existsb_filter (p q : value → bool) l :
  existsb p l = false → existsb p (List.filter q l) = false.
Proof.
  induction l as [|x l IH]; simpl; [done|].
  intros [Hx Hl]%orb_false_iff. destruct (q x); simpl; [|by apply IH].
  by rewrite Hx, IH.
Qed.

Lemma stored_filtered_gone id l w :
  storage w !! StorageKeys_ENTRIES
  = Some (encoded (filterA (λ e, negb (has_id id e)) l)) →
  some (has_id id) (stored w) = false.
Proof.
  intros Hk. rewrite (stored_encoded _ _ Hk).
  destruct (forallb valid _) eqn:Hv; [|done].
  rewrite (some_perm _ _ _ (sort_perm _ _)).
  rewrite some_has_id_reparse by done. apply some_filter_negb.
Qed.

Lemma read_none p w : some p (stored w) = false → some p (read w) = false.
Proof. unfold read. by destruct (next_rejects w). Qed.

(** X6: [removeEntry] at a non-empty string that a stored entry has as its
    identifier returns [true] as soon as its read and its write are not
    rejected: the encoding cannot throw on entries that were parsed, and
    the verification cannot fail, whether or not its read is rejected.  It
    returns [false] when the write is rejected, and the storage is then as
    it was. *)
Theorem removeEntry_succeeds (s : string) (w : world) :
  s ≠ "" →
  some (has_id (VStr s)) (stored w) = true →
  next_rejects w = false →
  (next_rejects (called (GetItem StorageKeys_ENTRIES) w) = false →
     fst (removeEntry (VStr s) w) = Ret true)
  ∧ (next_rejects (called (GetItem StorageKeys_ENTRIES) w) = true →
       fst (removeEntry (VStr s) w) = Ret false
       ∧ storage (snd (removeEntry (VStr s) w)) = storage w).
Proof.
  intros Hs Hsome Hrej. rewrite removeEntry_run.
  assert (truthy (VStr s) = true) as ->.
  { simpl. by destruct (String.eqb_spec s ""). }
  cbn [typeof negb orb]. rewrite String.eqb_refl. cbv zeta. cbn [negb].
  assert (read w = stored w) as -> by (unfold read; by rewrite Hrej).
  rewrite Hsome. cbn [negb].
  unfold JSON_stringify.
  rewrite existsb_filter by apply decode_no_bigint.
  split; intros ->; [|done].
  cbn [fst]. f_equal. apply negb_true_iff, read_none.
  eapply stored_filtered_gone. simpl. apply lookup_insert_eq.
Qed.

Lemma removeEntry_succeeds_witness :
  fst (removeEntry (VStr "a") (with_faults [false; false; true] two_stored))
  = Ret true
  ∧ fst (removeEntry (VStr "a") (with_faults [false; true] two_stored))
    = Ret false.
Proof.
  split.
  - apply (proj1 (removeEntry_succeeds "a"
                    (with_faults [false; false; true] two_stored)
                    ltac:(discriminate) ltac:(vm_compute; reflexivity)
                    eq_refl)).
    reflexivity.
  - apply (proj2 (removeEntry_succeeds "a"
                    (with_faults [false; true] two_stored)
                    ltac:(discriminate) ltac:(vm_compute; reflexivity)
                    eq_refl)).
    reflexivity.
Defined.

(** What is read back after the entries of [w] that satisfy [p] have been
    written. *)
Lemma stored_filtered p w s v :
  canonical w →
  stored (with_storage (<[StorageKeys_ENTRIES := encoded (filterA p (stored w))]> s) v)
  = filterA p (stored w).
Proof.
  intros Hc. unfold stored at 1. simpl. rewrite lookup_insert_eq.
  apply decode_encoded.
  - by apply Forall_filter.
  - apply Forall_filter, stored_valid.
  - apply StronglySorted_Sorted, StronglySorted_filter, decode_strongly_sorted.
Qed.

(** X7: when the stored entries are canonical, a successful [removeEntry]
    leaves exactly the entries with another identifier, in the order they
    had. *)
Theorem removeEntry_keeps_others (id : value) (w w' : world) :
  canonical w →
  removeEntry id w = (Ret true, w') →
  stored w' = filterA (λ e, negb (has_id id e)) (stored w).
Proof.
  intros Hc (_ & _ & Hst & _)%removeEntry_true.
  rewrite <- (stored_filtered _ w (storage w) w Hc).
  unfold stored. simpl. by rewrite Hst.
Qed.

Lemma removeEntry_keeps_others_witness :
  stored (snd (removeEntry (VStr "a") shared_id)) = [sample "b" 30].
Proof.
  rewrite (removeEntry_keeps_others (VStr "a") shared_id
             (snd (removeEntry (VStr "a") shared_id))).
  - vm_compute; reflexivity.
  - apply (stored_canonical _ [sample "a" 10; sample "b" 30; sample "a" 20]).
    reflexivity.
  - vm_compute; reflexivity.
Defined.

(** X8: the stored entries stay canonical under every operation of the
    store, and they are canonical, whatever they were before, as soon as
    an insert, an update, a delete or a clear has returned [true]. *)
Theorem canonical_kept (w : world) (entry : nat) (updatedEntry id : value) :
  (canonical w →
     canonical (snd (saveEntry entry w))
     ∧ canonical (snd (getEntries w))
     ∧ canonical (snd (getEntryById id w))
     ∧ canonical (snd (removeEntry id w))
     ∧ canonical (snd (updateEntry updatedEntry w))
     ∧ canonical (snd (clearAllEntries w))
     ∧ canonical (snd (getEntryCount w))
     ∧ canonical (snd (debugStorage w)))
  ∧ (fst (saveEntry entry w) = Ret true → canonical (snd (saveEntry entry w)))
  ∧ (fst (updateEntry updatedEntry w) = Ret true →
       canonical (snd (updateEntry updatedEntry w)))
  ∧ (fst (removeEntry id w) = Ret true → canonical (snd (removeEntry id w)))
  ∧ (fst (clearAllEntries w) = Ret true → canonical (snd (clearAllEntries w))).
Proof.
  assert (∀ w', (storage w' = storage w
                 ∨ ∃ l, storage w'
                        = <[StorageKeys_ENTRIES := encoded l]> (storage w)) →
                canonical w → canonical w') as Hkeep.
  { intros w' [H | [l H]] Hc.
    - eapply canonical_storage; [|exact Hc]. by rewrite H.
    - apply (stored_canonical _ l). rewrite H. apply lookup_insert_eq. }
  split; [intros Hc|].
  { split; [apply Hkeep; [apply saveEntry_storage | exact Hc]|].
    split; [by rewrite getEntries_run|].
    split; [by rewrite getEntryById_run|].
    split; [apply Hkeep; [apply removeEntry_storage | exact Hc]|].
    split; [apply Hkeep; [apply updateEntry_storage | exact Hc]|].
    split; [|by rewrite getEntryCount_run, debugStorage_run].
    destruct (clearAllEntries_storage w) as [H | H].
    - eapply canonical_storage; [|exact Hc]. by rewrite H.
    - apply canonical_empty. unfold stored. by rewrite H, lookup_delete_eq. }
  split; [|split; [|split]].
  - destruct (saveEntry entry w) as [r w'] eqn:Hrun. cbn [fst snd].
    intros ->. apply saveEntry_true in Hrun as (e & _ & _ & _ & Hst & _).
    eapply stored_canonical. rewrite Hst. apply lookup_insert_eq.
  - destruct (updateEntry updatedEntry w) as [r w'] eqn:Hrun. cbn [fst snd].
    intros ->. apply updateEntry_true in Hrun as (i & _ & _ & _ & Hst & _).
    eapply stored_canonical. rewrite Hst. apply lookup_insert_eq.
  - destruct (removeEntry id w) as [r w'] eqn:Hrun. cbn [fst snd].
    intros ->. apply removeEntry_true in Hrun as (_ & _ & Hst & _).
    eapply stored_canonical. rewrite Hst. apply lookup_insert_eq.
  - rewrite clearAllEntries_run. cbv zeta.
    destruct (next_rejects w); [done|]. intros _.
    apply canonical_empty. unfold stored. simpl. by rewrite lookup_delete_eq.
Qed.

Lemma canonical_kept_witness :
  canonical (snd (saveEntry 0 same_id_twice))
  ∧ canonical (snd (clearAllEntries same_id_twice)).
Proof.
  assert (canonical same_id_twice) as Hc.
  { apply (stored_canonical _ [sample "x" 5]). reflexivity. }
  destruct (proj1 (canonical_kept same_id_twice 0 VNull VNull) Hc)
    as (H1 & _ & _ & _ & _ & H2 & _).
  split; [exact H1 | exact H2].
Defined.

(** ** Rejected calls, counted from the next one *)

Lemma rejects_next w : next_rejects w = rejects 0 w.
Proof. unfold next_rejects, rejects. by destruct (faults w) as [|[] ?]. Qed.

Lemma rejects_called n c w : rejects n (called c w) = rejects (S n) w.
Proof. unfold rejects. simpl. destruct (faults w); [by destruct n | done]. Qed.

Lemma rejects_renamed n r e w : rejects n (renamed r e w) = rejects n w.
Proof. done. Qed.

Lemma rejects_with_storage n s w : rejects n (with_storage s w) = rejects n w.
Proof. done. Qed.

Lemma read_accepted w : rejects 0 w = false → read w = stored w.
Proof. unfold read. rewrite rejects_next. by intros ->. Qed.

Lemma read_rejected w : rejects 0 w = true → read w = [].
Proof. unfold read. rewrite rejects_next. by intros ->. Qed.

(** ** What the round trip does to a valid entry *)

Lemma reparse_string_field m k :
  is_string (property (VObj m) k) = true →
  is_string (property (reparse (VObj m)) k) = true.
Proof.
  rewrite reparse_property. simpl.
  by destruct (m !! k) as [[ | |?|?|?|?|?|?]|].
Qed.

Lemma reparse_numeric_field m k :
  is_numeric (property (VObj m) k) = true →
  is_numeric (property (reparse (VObj m)) k)
  = is_finite (property (VObj m) k).
Proof.
  rewrite reparse_property. simpl.
  by destruct (m !! k) as [[ | |?|[|?|?]|?|?|?|?]|].
Qed.

Lemma reparse_optional_string m k :
  optional is_string (property (VObj m) k) = true →
  optional is_string (property (reparse (VObj m)) k) = true.
Proof.
  rewrite reparse_property. simpl.
  by destruct (m !! k) as [[ | |?|?|?|?|?|?]|].
Qed.

Lemma reparse_optional_sequence m k :
  optional is_sequence (property (VObj m) k) = true →
  optional is_sequence (property (reparse (VObj m)) k) = true.
Proof.
  rewrite reparse_property. simpl.
  by destruct (m !! k) as [[ | |?|?|?|?|?|?]|].
Qed.

Lemma reparse_optional_structured m k :
  optional is_structured (property (VObj m) k) = true →
  optional is_structured (property (reparse (VObj m)) k) = true.
Proof.
  rewrite reparse_property. simpl.
  by destruct (m !! k) as [[ | |?|?|?|?|?|?]|].
Qed.

(** A valid entry is still valid after the round trip exactly when its
    three required numbers are finite. *)
Lemma valid_reparse e :
  valid e = true → valid (reparse e) = finite_numbers e.
Proof.
  intros He. destruct (valid_record e He) as [m ->].
  rewrite valid_schema in *. unfold schema in He.
  rewrite !andb_true_iff in He.
  destruct He as ((((((((((_ & H1) & H2) & H3) & H4) & H5) & H6) & H7) & H8)
                    & H9) & H10).
  unfold schema, finite_numbers.
  assert (is_structured (reparse (VObj m)) = true) as -> by done.
  rewrite (reparse_string_field _ _ H1), (reparse_string_field _ _ H2),
    (reparse_string_field _ _ H3), (reparse_numeric_field _ _ H4),
    (reparse_numeric_field _ _ H5), (reparse_numeric_field _ _ H6),
    (reparse_optional_string _ _ H7), (reparse_optional_string _ _ H8),
    (reparse_optional_sequence _ _ H9), (reparse_optional_structured _ _ H10).
  by rewrite !andb_true_r.
Qed.

Lemma valid_set_id e s : valid e = true → valid (set e "id" (VStr s)) = true.
Proof.
  intros He. destruct (valid_record e He) as [m ->].
  rewrite valid_schema in *. revert He. unfold schema, set, property.
  rewrite lookup_insert_eq, !lookup_insert_ne by done.
  rewrite !andb_true_iff. simpl. tauto.
Qed.

Lemma finite_numbers_set_id e s :
  finite_numbers (set e "id" (VStr s)) = finite_numbers e.
Proof.
  destruct e; try done. unfold finite_numbers, set, property.
  by rewrite !lookup_insert_ne by done.
Qed.

(** ** BigInt inside a record *)

Lemma has_bigint_record (m : gmap string value) :
  has_bigint (VObj m) = false ↔ map_Forall (λ _ x, has_bigint x = false) m.
Proof.
  simpl. apply (map_fold_weak_ind
    (λ r (m : gmap string value),
       r = false ↔ map_Forall (λ _ x, has_bigint x = false) m)).
  - split; [intros _; apply map_Forall_empty | done].
  - intros k x m' r Hk IH. rewrite map_Forall_insert by done.
    rewrite orb_false_iff. tauto.
Qed.

Lemma has_bigint_set_id e s :
  has_bigint e = false → has_bigint (set e "id" (VStr s)) = false.
Proof.
  destruct e as [ | |?|?|?|?|?|m]; try done. unfold set.
  rewrite !has_bigint_record. intros H. by apply map_Forall_insert_2.
Qed.

Lemma has_bigint_app l x :
  existsb has_bigint l = false → has_bigint x = false →
  existsb has_bigint (l ++ [x]) = false.
Proof. intros Hl Hx. rewrite existsb_app, Hl. simpl. by rewrite Hx. Qed.

Lemma read_no_bigint w : existsb has_bigint (read w) = false.
Proof. unfold read. destruct (next_rejects w); [done|apply decode_no_bigint]. Qed.

(** ** Inserting *)

(** The entry that [saveEntry] writes for the object [e]. *)
Lemma saveEntry_written_valid e w :
  valid e = true →
  valid (if some (has_id (field e "id")) (read w)
         then set e "id" (generated_id w) else e) = true.
Proof. intros He. destruct (some _ _); [by apply valid_set_id | done]. Qed.

Lemma forallb_valid_app l x :
  forallb valid (map reparse (l ++ [x]))
  = forallb valid (map reparse l) && valid (reparse x).
Proof. rewrite map_app, forallb_app. simpl. by rewrite andb_true_r. Qed.

Lemma canonical_reencodes w :
  canonical w → forallb valid (map reparse (stored w)) = true.
Proof.
  intros Hc. rewrite map_reparse_canonical by done.
  apply forallb_Forall_valid, stored_valid.
Qed.

Lemma canonical_read w : canonical w → Forall (λ e, reparse e = e) (read w).
Proof. unfold read. destruct (next_rejects w); [constructor | done]. Qed.

(** X9: a successful [saveEntry] adds exactly one entry to those it read:
    the collection has one entry more, and when the stored entries are
    canonical it holds the entries read and the caller's entry as it reads
    back from the text, and nothing else. *)
Theorem saveEntry_adds_one (entry : nat) (w w' : world) :
  saveEntry entry w = (Ret true, w') →
  ∃ e', heap w' !! entry = Some e'
        ∧ length (stored w') = S (length (read w))
        ∧ reparse e' ∈ stored w'
        ∧ (canonical w → stored w' ≡ₚ reparse e' :: read w).
Proof.
  intros (e & e' & _ & He' & _ & _ & _ & Hst & _)%saveEntry_ids.
  exists e'. split; [done|]. rewrite Hst. split; [|split].
  - rewrite sort_length, length_map, length_app. simpl. lia.
  - rewrite sort_perm, map_app. apply elem_of_app. right. by left.
  - intros Hc. rewrite sort_perm, map_app.
    rewrite (map_reparse_canonical (read w)) by by apply canonical_read.
    simpl. by rewrite Permutation_app_comm.
Qed.

Lemma saveEntry_adds_one_witness :
  ∃ e', heap (snd (saveEntry 0 same_id_twice)) !! 0%nat = Some e'
        ∧ length (stored (snd (saveEntry 0 same_id_twice)))
          = S (length (read same_id_twice))
        ∧ reparse e' ∈ stored (snd (saveEntry 0 same_id_twice))
        ∧ (canonical same_id_twice →
           stored (snd (saveEntry 0 same_id_twice))
           ≡ₚ reparse e' :: read same_id_twice).
Proof.
  apply (saveEntry_adds_one 0 same_id_twice). vm_compute; reflexivity.
Defined.

Lemma has_id_self e : valid e = true → has_id (field e "id") e = true.
Proof.
  intros [s Hs]%valid_id_string. unfold has_id. rewrite Hs. simpl.
  apply String.eqb_refl.
Qed.

(** What is stored once the text written for [l] is under the key. *)
Lemma stored_written l s w :
  stored (with_storage (<[StorageKeys_ENTRIES := encoded l]> s) w)
  = if forallb valid (map reparse l) then sort newest_first (map reparse l)
    else [].
Proof. apply stored_encoded. simpl. apply lookup_insert_eq. Qed.

Lemma stored_called c w : stored (called c w) = stored w.
Proof. done. Qed.

Lemma some_written e l :
  valid e = true →
  forallb valid (map reparse (l ++ [e])) = true →
  some (has_id (field e "id")) (sort newest_first (map reparse (l ++ [e])))
  = true.
Proof.
  intros He Hv. rewrite (some_perm _ _ _ (sort_perm _ _)).
  rewrite some_has_id_reparse by done. unfold some.
  rewrite existsb_app. simpl. rewrite has_id_self by done.
  by rewrite orb_true_r.
Qed.

(** X10: when the first read of [saveEntry] is rejected, [getEntries] hands
    it the empty collection.  For an entry that the validator accepts and
    that holds no BigInt, the write that follows replaces whatever was
    stored: the collection is then the new entry alone, or empty when the
    entry has a number that is not finite; and [saveEntry] returns [true]
    in the first case, when the verification read is not rejected either.
    For an entry that holds a BigInt the encoding throws: [saveEntry]
    returns [false] and the storage is as it was.  The callers' objects
    are not touched. *)
Theorem saveEntry_after_rejected_read (entry : nat) (w : world) (e : value) :
  heap w !! entry = Some e →
  validateEntry e = Ret true →
  rejects 0 w = true →
  (has_bigint e = true →
     fst (saveEntry entry w) = Ret false
     ∧ storage (snd (saveEntry entry w)) = storage w)
  ∧ (has_bigint e = false → rejects 1 w = false →
     stored (snd (saveEntry entry w))
     = (if finite_numbers e then [reparse e] else [])
     ∧ (rejects 2 w = false →
        fst (saveEntry entry w) = Ret (finite_numbers e)))
  ∧ heap (snd (saveEntry entry w)) = heap w.
Proof.
  intros Hr He H0.
  assert (valid e = true) as Hv by (unfold valid; by rewrite He).
  rewrite saveEntry_run, Hr. cbn [default from_option Datatypes.id].
  rewrite Hv. cbn [negb]. cbv zeta.
  rewrite (read_rejected w H0). cbn [some existsb app andb].
  unfold JSON_stringify. cbn [existsb]. rewrite orb_false_r.
  split; [|split].
  - by intros ->.
  - intros -> H1. rewrite rejects_next, rejects_called, H1.
    cbn [fst snd]. rewrite stored_called, stored_written.
    cbn [map forallb]. rewrite (valid_reparse e Hv), andb_true_r.
    split; [by destruct (finite_numbers e)|].
    intros H2. f_equal. unfold read.
    rewrite rejects_next, rejects_with_storage, !rejects_called, H2.
    rewrite stored_written. cbn [map forallb].
    rewrite (valid_reparse e Hv), andb_true_r.
    destruct (finite_numbers e) eqn:Hf; [|done].
    cbn [sort foldr sort_insert some existsb]. rewrite orb_false_r.
    rewrite valid_reparse_has_id by by rewrite valid_reparse.
    by apply has_id_self.
  - destruct (has_bigint e); [done|]. by destruct (next_rejects _).
Qed.

Lemma saveEntry_after_rejected_read_witness :
  (stored (snd (saveEntry 0 (with_faults [true] same_id_twice)))
   = [sample "a" 10]
   ∧ fst (saveEntry 0 (with_faults [true] same_id_twice)) = Ret true)
  ∧ (fst (saveEntry 0 (with_faults [true] counted)) = Ret false
     ∧ storage (snd (saveEntry 0 (with_faults [true] counted)))
       = storage counted).
Proof.
  destruct (saveEntry_after_rejected_read 0 (with_faults [true] same_id_twice)
              (sample "a" 10) eq_refl eq_refl eq_refl) as (_ & H & _).
  destruct (H eq_refl eq_refl) as [H1 H2].
  destruct (saveEntry_after_rejected_read 0 (with_faults [true] counted)
              (having "visits" (VBigInt 3) (sample "a" 10))
              eq_refl eq_refl eq_refl) as (H3 & _).
  split; [split; [exact H1 | exact (H2 eq_refl)] | exact (H3 eq_refl)].
Defined.

(** X11: what [saveEntry] does to the object it is given does not depend on
    whether the insert succeeds.  When a stored entry that it read has the
    identifier of the object, one reading of the clock and one random
    number are used up; the object then carries the generated identifier,
    unless it is frozen: the write to it throws, [saveEntry] returns
    [false] after its read alone, and the object and the storage are as
    they were.  When no entry read has the identifier, the objects, the
    clock and the random numbers are as before.  No other object is
    touched, and no object becomes frozen or writable. *)
Theorem saveEntry_caller_object (entry : nat) (w : world) (e : value) :
  heap w !! entry = Some e →
  validateEntry e = Ret true →
  (some (has_id (field e "id")) (read w) = true →
     clock (snd (saveEntry entry w)) = tail (clock w)
     ∧ random (snd (saveEntry entry w)) = tail (random w)
     ∧ (is_frozen entry w = false →
        heap (snd (saveEntry entry w))
        = <[entry := set e "id" (generated_id w)]> (heap w))
     ∧ (is_frozen entry w = true →
        fst (saveEntry entry w) = Ret false
        ∧ heap (snd (saveEntry entry w)) = heap w
        ∧ storage (snd (saveEntry entry w)) = storage w
        ∧ calls (snd (saveEntry entry w))
          = GetItem StorageKeys_ENTRIES :: calls w))
  ∧ (some (has_id (field e "id")) (read w) = false →
       heap (snd (saveEntry entry w)) = heap w
       ∧ clock (snd (saveEntry entry w)) = clock w
       ∧ random (snd (saveEntry entry w)) = random w)
  ∧ (∀ other, other ≠ entry →
       heap (snd (saveEntry entry w)) !! other = heap w !! other)
  ∧ frozen (snd (saveEntry entry w)) = frozen w.
Proof.
  intros Hr He.
  assert (valid e = true) as Hv by (unfold valid; by rewrite He).
  rewrite saveEntry_run, Hr. cbn [default from_option Datatypes.id].
  rewrite Hv. cbn [negb]. cbv zeta.
  destruct (some (has_id (field e "id")) (read w)); cbn [andb].
  - destruct (is_frozen entry w); [done|].
    destruct (JSON_stringify _); [destruct (next_rejects _)|];
      (split; [done|]; split; [done|]; split; [|done]; intros other Ho;
       cbn [snd]; apply list_lookup_insert_ne; congruence).
  - destruct (JSON_stringify _); [destruct (next_rejects _)|]; done.
Qed.

Lemma saveEntry_caller_object_witness :
  (heap (snd (saveEntry 1 (snd (saveEntry 0 same_id_twice))))
   = [sample "a" 10; sample generated_sample 20]
   ∧ clock (snd (saveEntry 1 (snd (saveEntry 0 same_id_twice)))) = []
   ∧ heap (snd (saveEntry 0 same_id_twice)) = heap same_id_twice)
  ∧ (fst (saveEntry 0 (with_frozen [0%nat] counted)) = Ret false
     ∧ heap (snd (saveEntry 0 (with_frozen [0%nat] counted))) = heap counted
     ∧ clock (snd (saveEntry 0 (with_frozen [0%nat] counted))) = []).
Proof.
  assert (heap (snd (saveEntry 0 same_id_twice)) !! 1%nat
          = Some (sample "a" 20)) as Hr by (vm_compute; reflexivity).
  destruct (saveEntry_caller_object 1 (snd (saveEntry 0 same_id_twice))
              (sample "a" 20) Hr eq_refl) as (Ha & _).
  destruct Ha as (H2 & _ & H1 & _); [vm_compute; reflexivity|].
  destruct (saveEntry_caller_object 0 same_id_twice (sample "a" 10)
              eq_refl eq_refl) as (_ & Hb & _).
  destruct Hb as (H3 & _); [vm_compute; reflexivity|].
  destruct (saveEntry_caller_object 0 (with_frozen [0%nat] counted)
              (having "visits" (VBigInt 3) (sample "a" 10))
              eq_refl eq_refl) as (Hc & _).
  destruct Hc as (H4 & _ & _ & H5); [vm_compute; reflexivity|].
  destruct (H5 eq_refl) as (H6 & H7 & _).
  rewrite (H1 ltac:(vm_compute; reflexivity)), H2, H4.
  split; [split; [|split]; [vm_compute; reflexivity.. | exact H3]|].
  split; [exact H6 | split; [exact H7 | reflexivity]].
Defined.

(** The write and the verification at the end of [saveEntry]. *)
Lemma saveEntry_verified l e v :
  valid e = true →
  forallb valid (map reparse (l ++ [e])) = true →
  rejects 0 v = false → rejects 1 v = false →
  fst (let w3 := called (SetItem StorageKeys_ENTRIES (encoded (l ++ [e]))) v in
       if next_rejects v then (Ret false, w3) else
       let w4 :=
         with_storage (<[StorageKeys_ENTRIES := encoded (l ++ [e])]>
                         (storage w3)) w3 in
       (Ret (some (has_id (field e "id")) (read w4)),
        called (GetItem StorageKeys_ENTRIES) w4))
  = Ret true.
Proof.
  intros He Hall H0 H1. cbv zeta. rewrite rejects_next, H0. cbn [fst].
  f_equal. rewrite read_accepted
    by by rewrite rejects_with_storage, rejects_called.
  rewrite stored_written, Hall. by apply some_written.
Qed.

(** X12: [saveEntry] returns [true] for every entry that the validator
    accepts, that holds no BigInt and whose three required numbers are
    finite, when the stored entries are canonical, neither the write nor
    the verification read is rejected, and the object can take a new
    identifier or needs none: it is not frozen, or no entry read has its
    identifier. *)
Theorem saveEntry_succeeds (entry : nat) (w : world) (e : value) :
  heap w !! entry = Some e →
  validateEntry e = Ret true →
  has_bigint e = false →
  finite_numbers e = true →
  canonical w →
  rejects 1 w = false → rejects 2 w = false →
  is_frozen entry w = false
  ∨ some (has_id (field e "id")) (read w) = false →
  fst (saveEntry entry w) = Ret true.
Proof.
  intros Hr He Hb Hf Hc H1 H2 Hfz.
  assert (valid e = true) as Hv by (unfold valid; by rewrite He).
  rewrite saveEntry_run, Hr. cbn [default from_option Datatypes.id].
  rewrite Hv. cbn [negb]. cbv zeta.
  assert (some (has_id (field e "id")) (read w) && is_frozen entry w = false)
    as -> by (destruct Hfz as [-> | ->]; [apply andb_false_r | done]).
  set (e' := if some (has_id (field e "id")) (read w)
             then set e "id" (generated_id w) else e).
  assert (valid e' = true) as Hv' by by apply saveEntry_written_valid.
  assert (has_bigint e' = false) as Hb'.
  { unfold e'. destruct (some _ _); [by apply has_bigint_set_id | done]. }
  assert (finite_numbers e' = true) as Hf'.
  { unfold e'. destruct (some _ _); [|done].
    unfold generated_id. by rewrite finite_numbers_set_id. }
  assert (forallb valid (map reparse (read w ++ [e'])) = true) as Hall.
  { rewrite forallb_valid_app, valid_reparse, Hf', andb_true_r by done.
    rewrite map_reparse_canonical by by apply canonical_read.
    apply forallb_Forall_valid, read_valid. }
  unfold JSON_stringify.
  rewrite has_bigint_app by (apply read_no_bigint || done).
  apply (saveEntry_verified (read w) e'); [done | done | |].
  - destruct (some _ (read w)); by rewrite ?rejects_renamed, rejects_called.
  - destruct (some _ (read w)); by rewrite ?rejects_renamed, rejects_called.
Qed.

Lemma saveEntry_succeeds_witness :
  fst (saveEntry 0 (with_faults [true] same_id_twice)) = Ret true
  ∧ fst (saveEntry 1 same_id_twice) = Ret true.
Proof.
  assert (canonical same_id_twice) as Hc.
  { apply (stored_canonical _ [sample "x" 5]). reflexivity. }
  split.
  - apply (saveEntry_succeeds 0 (with_faults [true] same_id_twice)
             (sample "a" 10)); try reflexivity; [exact Hc | by left].
  - apply (saveEntry_succeeds 1 same_id_twice (sample "a" 20));
      try reflexivity; [exact Hc | by left].
Defined.

Lemma valid_written_last l e :
  forallb valid (map reparse (l ++ [e])) = true → valid (reparse e) = true.
Proof. rewrite forallb_valid_app. by intros [_ ?]%andb_true_iff. Qed.

Lemma forallb_valid_insert l i u :
  (i < length l)%nat →
  forallb valid (map reparse (<[i := u]> l)) = true →
  valid (reparse u) = true.
Proof.
  intros Hi Hall. rewrite forallb_forall in Hall. apply Hall.
  apply in_map, list_elem_of_In, list_elem_of_lookup.
  exists i. by apply list_lookup_insert_eq.
Qed.

Lemma findIndex_some p l :
  some p l = true → ∃ i, findIndex p l = Some i.
Proof.
  unfold some. induction l as [|x l IH]; simpl; [done|].
  destruct (p x); [eauto|]. intros [i ->]%IH. simpl. eauto.
Qed.

(** X13: an insert or an update that returns [true] was given an entry
    whose latitude, longitude and creation time are finite numbers,
    although the validator asks for numbers only. *)
Theorem success_means_finite (entry : nat) (updatedEntry : value) (w : world) :
  (∀ e, heap w !! entry = Some e →
        fst (saveEntry entry w) = Ret true → finite_numbers e = true)
  ∧ (fst (updateEntry updatedEntry w) = Ret true →
     finite_numbers updatedEntry = true).
Proof.
  split.
  - intros e Hr. destruct (saveEntry entry w) as [b w'] eqn:Hrun.
    cbn [fst]. intros ->.
    apply saveEntry_ids in Hrun
      as (e0 & e' & Hr0 & _ & He & -> & Hall & _).
    rewrite Hr in Hr0. injection Hr0 as <-.
    apply valid_written_last in Hall.
    rewrite valid_reparse in Hall by by apply saveEntry_written_valid.
    destruct (some _ (read w)); [|done].
    unfold generated_id in Hall. by rewrite finite_numbers_set_id in Hall.
  - destruct (updateEntry updatedEntry w) as [b w'] eqn:Hrun.
    cbn [fst]. intros ->.
    apply updateEntry_true in Hrun
      as (i & Hu & _ & Hi & Hst & _ & _ & _ & Hv).
    assert (storage w' !! StorageKeys_ENTRIES
            = Some (encoded (<[i := updatedEntry]> (stored w))))
      as Hk by (rewrite Hst; apply lookup_insert_eq).
    destruct (stored_encoded_some _ _ _ Hk Hv) as [Hall _].
    destruct (findIndex_Some _ _ _ Hi) as (x & Hx & _).
    rewrite <- (valid_reparse _ Hu).
    eapply forallb_valid_insert; [|exact Hall]. by eapply lookup_lt_Some.
Qed.

Lemma success_means_finite_witness :
  finite_numbers (sample "a" 10) = true
  ∧ finite_numbers (sample "a" 40) = true.
Proof.
  split.
  - apply (proj1 (success_means_finite 0 VNull same_id_twice));
      vm_compute; reflexivity.
  - apply (proj2 (success_means_finite 0 (sample "a" 40) two_stored)).
    vm_compute; reflexivity.
Defined.

(** X14: an entry that the validator accepts, that holds no BigInt and that
    has a required number which is not finite makes the collection
    unreadable once it is written.  When the write is not rejected,
    [saveEntry], with an object that is not frozen or whose identifier no
    entry read has, and [updateEntry], with an entry whose identifier an
    entry read has, return [false], and the collection is empty
    afterwards, whatever was stored: the number has been written as
    [null]. *)
Theorem unreadable_after_write (entry : nat) (updatedEntry : value)
  (w : world) :
  rejects 1 w = false →
  (∀ e, heap w !! entry = Some e →
        validateEntry e = Ret true → has_bigint e = false →
        finite_numbers e = false →
        is_frozen entry w = false
        ∨ some (has_id (field e "id")) (read w) = false →
        fst (saveEntry entry w) = Ret false
        ∧ stored (snd (saveEntry entry w)) = [])
  ∧ (validateEntry updatedEntry = Ret true →
     has_bigint updatedEntry = false →
     finite_numbers updatedEntry = false →
     some (has_id (field updatedEntry "id")) (read w) = true →
     fst (updateEntry updatedEntry w) = Ret false
     ∧ stored (snd (updateEntry updatedEntry w)) = []).
Proof.
  intros H1. split.
  - intros e Hr He Hb Hf Hfz.
    assert (valid e = true) as Hv by (unfold valid; by rewrite He).
    rewrite saveEntry_run, Hr. cbn [default from_option Datatypes.id].
    rewrite Hv. cbn [negb]. cbv zeta.
    assert (some (has_id (field e "id")) (read w) && is_frozen entry w
            = false)
      as -> by (destruct Hfz as [-> | ->]; [apply andb_false_r | done]).
    set (e' := if some (has_id (field e "id")) (read w)
               then set e "id" (generated_id w) else e).
    assert (has_bigint e' = false) as Hb'.
    { unfold e'. destruct (some _ _); [by apply has_bigint_set_id | done]. }
    assert (forallb valid (map reparse (read w ++ [e'])) = false) as Hall.
    { rewrite forallb_valid_app, valid_reparse
        by by apply saveEntry_written_valid.
      unfold e'. destruct (some _ (read w));
        unfold generated_id; rewrite ?finite_numbers_set_id, Hf;
        apply andb_false_r. }
    unfold JSON_stringify.
    rewrite has_bigint_app by (apply read_no_bigint || done).
    assert (next_rejects (if some (has_id (field e "id")) (read w)
                          then renamed entry e
                                 (called (GetItem StorageKeys_ENTRIES) w)
                          else called (GetItem StorageKeys_ENTRIES) w)
            = false) as ->.
    { rewrite rejects_next.
      destruct (some _ (read w)); by rewrite ?rejects_renamed, rejects_called. }
    cbn [fst snd]. rewrite stored_called, stored_written, Hall.
    split; [|done]. f_equal. apply read_none.
    by rewrite stored_written, Hall.
  - intros He Hb Hf Hsome.
    assert (valid updatedEntry = true) as Hv by (unfold valid; by rewrite He).
    rewrite updateEntry_run, Hv. cbn [negb]. cbv zeta.
    destruct (findIndex_some _ _ Hsome) as [i Hi]. rewrite Hi.
    unfold JSON_stringify.
    rewrite existsb_insert by (apply read_no_bigint || done).
    rewrite rejects_next, rejects_called, H1.
    assert (forallb valid (map reparse (<[i := updatedEntry]> (read w)))
            = false) as Hall.
    { destruct (forallb valid _) eqn:Hall; [|done].
      destruct (findIndex_Some _ _ _ Hi) as (x & Hx & _).
      apply forallb_valid_insert in Hall; [|by eapply lookup_lt_Some].
      rewrite valid_reparse in Hall by done. congruence. }
    cbn [fst snd]. rewrite stored_called, stored_written, Hall.
    split; [|done]. f_equal. apply read_none.
    by rewrite stored_written, Hall.
Qed.

Lemma unreadable_after_write_witness :
  let w := world_of (Some (encoded [sample "a" 10; sample "b" 30]))
             [nowhere] [] [] in
  (fst (saveEntry 0 w) = Ret false ∧ stored (snd (saveEntry 0 w)) = [])
  ∧ (fst (updateEntry nowhere w) = Ret false
     ∧ stored (snd (updateEntry nowhere w)) = []).
Proof.
  intros w. split.
  - apply (proj1 (unreadable_after_write 0 VNull w eq_refl) nowhere);
      try (vm_compute; reflexivity). by left.
  - apply (proj2 (unreadable_after_write 0 nowhere w eq_refl));
      vm_compute; reflexivity.
Defined.

(** ** Updating *)

Lemma map_insert (f : value → value) l i x :
  map f (<[i := x]> l) = <[i := f x]> (map f l).
Proof.
  revert i. induction l as [|y l IH]; intros [|i]; simpl; try done.
  by rewrite IH.
Qed.

Lemma forallb_insert (q : value → bool) l i x :
  forallb q l = true → q x = true → forallb q (<[i := x]> l) = true.
Proof.
  revert i. induction l as [|y l IH]; intros [|i]; simpl; try done.
  - intros [_ Hl]%andb_true_iff Hx. by rewrite Hx, Hl.
  - intros [Hy Hl]%andb_true_iff Hx. by rewrite Hy, IH.
Qed.

(** X15: a successful [updateEntry] changes one entry and no identifier:
    the identifiers stored and their number are as before, the entry given
    is stored as it reads back from the text, and when the stored entries
    are canonical the collection is the old one with the entry put in the
    place of one that had its identifier. *)
Theorem updateEntry_changes_one (updatedEntry : value) (w w' : world) :
  updateEntry updatedEntry w = (Ret true, w') →
  ids (stored w') ≡ₚ ids (stored w)
  ∧ length (stored w') = length (stored w)
  ∧ reparse updatedEntry ∈ stored w'
  ∧ (canonical w →
     ∃ i old, stored w !! i = Some old
              ∧ field old "id" = field updatedEntry "id"
              ∧ stored w' ≡ₚ <[i := reparse updatedEntry]> (stored w)).
Proof.
  intros (i & Hu & _ & Hi & Hst & _ & _ & _ & Hv)%updateEntry_true.
  assert (storage w' !! StorageKeys_ENTRIES
          = Some (encoded (<[i := updatedEntry]> (stored w))))
    as Hk by (rewrite Hst; apply lookup_insert_eq).
  destruct (stored_encoded_some _ _ _ Hk Hv) as [Hval ->].
  destruct (findIndex_Some _ _ _ Hi) as (x & Hx & Hpx & _).
  split; [|split; [|split]].
  - rewrite (ids_perm _ _ (sort_perm _ _)), ids_reparse by done.
    rewrite (ids_insert _ _ x); [done..|]. symmetry. by apply has_id_eq.
  - by rewrite sort_length, length_map, length_insert.
  - rewrite sort_perm, map_insert. apply list_elem_of_lookup. exists i.
    apply list_lookup_insert_eq. rewrite length_map. by eapply lookup_lt_Some.
  - intros Hc. exists i, x. split; [done|]. split; [by apply has_id_eq|].
    by rewrite sort_perm, map_insert, map_reparse_canonical.
Qed.

Lemma updateEntry_changes_one_witness :
  ids (stored (snd (updateEntry (sample "a" 40) two_stored)))
  ≡ₚ ids (stored two_stored)
  ∧ length (stored (snd (updateEntry (sample "a" 40) two_stored)))
    = length (stored two_stored)
  ∧ reparse (sample "a" 40)
    ∈ stored (snd (updateEntry (sample "a" 40) two_stored)).
Proof.
  destruct (updateEntry_changes_one (sample "a" 40) two_stored
              (snd (updateEntry (sample "a" 40) two_stored)))
    as (H1 & H2 & H3 & _); [vm_compute; reflexivity|].
  split; [exact H1 | split; [exact H2 | exact H3]].
Defined.

Lemma finite_createdAt u :
  finite_numbers u = true →
  strict_eq (field u "createdAt") (field u "createdAt") = true.
Proof.
  unfold finite_numbers. rewrite !andb_true_iff, field_property.
  intros [_ H]. destruct (property u "createdAt") as [ | |?|[|?|?]|?|?|?|?];
    try done. simpl. apply Z.eqb_refl.
Qed.

(** X16: [updateEntry] returns [true] for every entry that the validator
    accepts, that holds no BigInt, whose three required numbers are finite
    and whose identifier a stored entry has, when the stored entries are
    canonical and none of its three storage calls is rejected. *)
Theorem updateEntry_succeeds (updatedEntry : value) (w : world) :
  validateEntry updatedEntry = Ret true →
  has_bigint updatedEntry = false →
  finite_numbers updatedEntry = true →
  canonical w →
  some (has_id (field updatedEntry "id")) (stored w) = true →
  rejects 0 w = false → rejects 1 w = false → rejects 2 w = false →
  fst (updateEntry updatedEntry w) = Ret true.
Proof.
  intros He Hb Hf Hc Hsome H0 H1 H2.
  assert (valid updatedEntry = true) as Hv by (unfold valid; by rewrite He).
  rewrite updateEntry_run, Hv. cbn [negb]. cbv zeta.
  rewrite (read_accepted w H0).
  destruct (findIndex_some _ _ Hsome) as [i Hi]. rewrite Hi.
  destruct (findIndex_Some _ _ _ Hi) as (x & Hx & _).
  unfold JSON_stringify.
  rewrite existsb_insert by (apply decode_no_bigint || done).
  rewrite rejects_next, rejects_called, H1. cbn [fst]. f_equal.
  rewrite read_accepted by by rewrite rejects_with_storage, !rejects_called.
  assert (valid (reparse updatedEntry) = true) as Hvr
    by by rewrite valid_reparse.
  assert (forallb valid (map reparse (<[i := updatedEntry]> (stored w)))
          = true) as Hall.
  { rewrite map_insert. apply forallb_insert; [|done].
    by apply canonical_reencodes. }
  rewrite stored_written, Hall, (some_perm _ _ _ (sort_perm _ _)).
  apply existsb_exists. exists (reparse updatedEntry). split.
  - rewrite map_insert. apply list_elem_of_In, list_elem_of_lookup. exists i.
    apply list_lookup_insert_eq. rewrite length_map. by eapply lookup_lt_Some.
  - rewrite valid_reparse_has_id, has_id_self by done.
    rewrite valid_reparse_createdAt by done. by apply finite_createdAt.
Qed.

Lemma updateEntry_succeeds_witness :
  fst (updateEntry (sample "b" 5) two_stored) = Ret true.
Proof.
  apply updateEntry_succeeds; try reflexivity.
  apply (stored_canonical _ [sample "a" 10; sample "b" 30]). reflexivity.
Defined.

(** ** Inserting and deleting again *)

Lemma sort_insert_first a l :
  dated a → Forall dated l → Forall (newer_or_equal a) l →
  sort_insert newest_first a l = a :: l.
Proof.
  intros Ha Hl Hal. destruct l as [|b l]; [done|]. simpl.
  apply Forall_cons in Hl as [Hb _]. apply Forall_cons in Hal as [Hab _].
  rewrite newest_first_positive by done. unfold newer_or_equal in Hab.
  by rewrite Hab.
Qed.

(** The entry put last goes somewhere into a sorted collection, which is
    otherwise as it was. *)
Lemma sort_snoc l x :
  StronglySorted newer_or_equal l → Forall dated l → dated x →
  ∃ l1 l2, sort newest_first (l ++ [x]) = (l1 ++ x :: l2)%list
           ∧ l = (l1 ++ l2)%list.
Proof.
  intros Hs Hd Hx. induction Hs as [|a l Hs IH Ha].
  { by exists [], []. }
  apply Forall_cons in Hd as [Hda Hd].
  destruct (IH Hd) as (l1 & l2 & Hsort & ->).
  change (sort newest_first ((a :: l1 ++ l2) ++ [x]))
    with (sort_insert newest_first a (sort newest_first ((l1 ++ l2) ++ [x]))).
  rewrite Hsort.
  destruct l1 as [|b l1]; simpl.
  - rewrite newest_first_positive by done.
    destruct (number_le (createdAt x) (createdAt a)); simpl.
    + by exists [a], l2.
    + rewrite sort_insert_first by done. by exists [], (a :: l2).
  - apply Forall_cons in Ha as [Hab _]. apply Forall_cons in Hd as [Hdb _].
    rewrite newest_first_positive by done. unfold newer_or_equal in Hab.
    rewrite Hab. simpl. by exists (a :: b :: l1), l2.
Qed.

Lemma filter_all (p : value → bool) l :
  Forall (λ e, p e = true) l → List.filter p l = l.
Proof. induction 1 as [|x l Hx _ IH]; simpl; [done|]. by rewrite Hx, IH. Qed.

Lemma not_in_ids_filter id l :
  Forall (λ e, valid e = true) l → id ∉ ids l →
  Forall (λ e, negb (has_id id e) = true) l.
Proof.
  intros Hv Hid. rewrite Forall_forall in *. intros e He.
  apply negb_true_iff. destruct (has_id id e) eqn:H; [|done].
  destruct Hid. apply has_id_eq in H as <-.
  apply list_elem_of_In, in_map_iff. exists e. by rewrite <- list_elem_of_In.
Qed.

(** X17: deleting the entry that has just been inserted gives back the
    collection as it was: when the stored entries are canonical, the first
    read of the insert is not rejected and the identifier that a collision
    would generate is not stored, a successful [saveEntry] followed by a
    successful [removeEntry] at the identifier the caller's object then
    carries leaves the persisted collection as it was before the two. *)
Theorem saveEntry_removeEntry_restores (entry : nat) (w w1 w2 : world)
  (e' : value) :
  canonical w →
  rejects 0 w = false →
  generated_id w ∉ ids (stored w) →
  saveEntry entry w = (Ret true, w1) →
  heap w1 !! entry = Some e' →
  removeEntry (field e' "id") w1 = (Ret true, w2) →
  stored w2 = stored w.
Proof.
  intros Hc H0 Hg Hsave He' Hrem.
  pose proof Hsave as (e & _ & _ & _ & Hst1 & _)%saveEntry_true.
  apply saveEntry_ids in Hsave
    as (e0 & e1 & _ & He1 & He0 & Heq & Hall & Hstored & _).
  rewrite He' in He1. injection He1 as <-.
  assert (field e' "id" ∉ ids (stored w)) as Hfresh.
  { rewrite <- (read_accepted w H0), Heq. by apply saveEntry_fresh. }
  assert (valid e' = true) as Hve'
    by (rewrite Heq; by apply saveEntry_written_valid).
  pose proof (valid_written_last _ _ Hall) as Hvr.
  rewrite (read_accepted w H0) in Hall, Hstored.
  rewrite map_app, map_reparse_canonical in Hstored by done.
  destruct (sort_snoc (stored w) (reparse e'))
    as (l1 & l2 & Hsort & Hl);
    [apply decode_strongly_sorted | apply decode_dated
    | by apply of_json_dated |].
  simpl in Hstored. rewrite Hsort in Hstored.
  assert (canonical w1) as Hc1.
  { eapply stored_canonical. rewrite Hst1. apply lookup_insert_eq. }
  apply removeEntry_true in Hrem as (_ & _ & Hst2 & _).
  cbv zeta in Hst2.
  assert (stored w2 = filterA (λ x, negb (has_id (field e' "id") x)) (stored w1))
    as ->.
  { rewrite <- (stored_filtered _ w1 (storage w1) w1 Hc1).
    unfold stored. simpl. by rewrite Hst2. }
  rewrite Hstored. unfold filterA. rewrite List.filter_app. simpl.
  rewrite valid_reparse_has_id, has_id_self by done. simpl.
  rewrite <- List.filter_app, <- Hl.
  apply filter_all, not_in_ids_filter; [apply stored_valid | done].
Qed.

Lemma saveEntry_removeEntry_restores_witness :
  stored (snd (removeEntry (VStr generated_sample)
                 (snd (saveEntry 1 (snd (saveEntry 0 same_id_twice))))))
  = stored (snd (saveEntry 0 same_id_twice)).
Proof.
  apply (saveEntry_removeEntry_restores 1
           (snd (saveEntry 0 same_id_twice))
           (snd (saveEntry 1 (snd (saveEntry 0 same_id_twice))))
           (snd (removeEntry (VStr generated_sample)
                   (snd (saveEntry 1 (snd (saveEntry 0 same_id_twice))))))
           (sample generated_sample 20)).
  - apply (stored_canonical _ [sample "x" 5; sample "a" 10]).
    vm_compute; reflexivity.
  - reflexivity.
  - vm_compute. intros H. repeat (apply elem_of_cons in H as [H|H];
      [discriminate H|]). by apply elem_of_nil in H.
  - vm_compute; reflexivity.
  - vm_compute; reflexivity.
  - vm_compute; reflexivity.
Defined.

(** ** Properties the validator does not know *)

(** X18: the validator looks at ten properties only: giving a record a
    property of another name, with any value, or taking such a property
    away, does not change its verdict. *)
Theorem validateEntry_ignores_other_properties (m : gmap string value)
  (k : string) (x : value) :
  k ∉ known_fields →
  validateEntry (VObj (<[k := x]> m)) = validateEntry (VObj m)
  ∧ validateEntry (VObj (delete k m)) = validateEntry (VObj m).
Proof.
  unfold known_fields, requiredFields, optional_fields. cbn [map fst app].
  rewrite !not_elem_of_cons. intros (?&?&?&?&?&?&?&?&?&?&_).
  rewrite !validateEntry_schema. unfold schema, property.
  by rewrite !lookup_insert_ne, !lookup_delete_ne by done.
Qed.

Lemma validateEntry_ignores_other_properties_witness :
  validateEntry (having "rating" (VBigInt 5) (sample "a" 10))
  = validateEntry (sample "a" 10)
  ∧ validateEntry (lacking "rating" (sample "a" 10))
    = validateEntry (sample "a" 10).
Proof.
  apply (validateEntry_ignores_other_properties _ "rating" (VBigInt 5)).
  vm_compute. intros H. repeat (apply elem_of_cons in H as [H|H];
    [discriminate H|]). by apply elem_of_nil in H.
Defined.

(** ** The order of entries created at the same time *)

Lemma created_at_not_after n x y :
  created_at n x = true → created_at n y = true →
  positive (newest_first x y) = false.
Proof.
  unfold created_at, newest_first.
  intros <-%number_eq_eq Hy%number_eq_eq. rewrite Hy.
  destruct (createdAt x) as [|[]|z]; try done. simpl.
  rewrite Z.sub_diag. done.
Qed.

Lemma sort_insert_stable n x l :
  filterA (created_at n) (sort_insert newest_first x l)
  = filterA (created_at n) (x :: l).
Proof.
  induction l as [|y l IH]; [done|]. cbn [sort_insert].
  destruct (positive (newest_first x y)) eqn:Hp; [|done].
  unfold filterA in *. cbn [List.filter] in *. rewrite IH.
  destruct (created_at n x) eqn:Hx, (created_at n y) eqn:Hy; try done.
  by rewrite (created_at_not_after n x y) in Hp.
Qed.

Lemma sort_stable n l :
  filterA (created_at n) (sort newest_first l) = filterA (created_at n) l.
Proof.
  induction l as [|x l IH]; [done|].
  change (sort newest_first (x :: l))
    with (sort_insert newest_first x (sort newest_first l)).
  rewrite sort_insert_stable. unfold filterA in *. cbn [List.filter].
  by rewrite IH.
Qed.

(** X19: [getEntries] sorts without reordering entries of the same age:
    when the text holds an array of entries that pass the validator and the
    read is not rejected, the entries returned that were created at a given
    time are those of the text, in the order of the text; a text that is
    sorted already is returned as it is. *)
Theorem getEntries_stable (w : world) (s : text) (es : list value)
  (n : number) :
  storage w !! StorageKeys_ENTRIES = Some s →
  JSON_parse s = Ret (VArr es) →
  Forall (λ e, validateEntry e = Ret true) es →
  next_rejects w = false →
  ∃ l, fst (getEntries w) = Ret l
       ∧ filterA (created_at n) l = filterA (created_at n) es
       ∧ (Sorted newer_or_equal es → l = es).
Proof.
  intros Hs Hp Hv Hrej. rewrite getEntries_run. cbn [fst].
  exists (read w). split; [done|].
  unfold read, stored. rewrite Hrej, Hs, (decode_parsed _ _ Hp Hv).
  split; [apply sort_stable | apply sort_sorted_id].
Qed.

Lemma getEntries_stable_witness :
  ∃ l, fst (getEntries same_age) = Ret l
       ∧ filterA (created_at (Fin 10)) l
         = filterA (created_at (Fin 10))
             [sample "a" 10; sample "b" 30; sample "c" 10]
       ∧ (Sorted newer_or_equal [sample "a" 10; sample "b" 30; sample "c" 10]
          → l = [sample "a" 10; sample "b" 30; sample "c" 10]).
Proof.
  apply (getEntries_stable same_age
           (encoded [sample "a" 10; sample "b" 30; sample "c" 10])).
  - reflexivity.
  - vm_compute; reflexivity.
  - repeat constructor.
  - reflexivity.
Defined.

(** ** The empty identifier *)

(** X20: the validator accepts the empty string as an identifier, and so
    does [saveEntry]; the entry stored under it is found by [getEntryById]
    and cannot be deleted by [removeEntry], which refuses the empty
    string. *)
Theorem empty_id_stays (entry : nat) (w w' : world) (e : value) :
  heap w !! entry = Some e →
  field e "id" = VStr "" →
  some (has_id (VStr "")) (read w) = false →
  saveEntry entry w = (Ret true, w') →
  some (has_id (VStr "")) (stored w') = true
  ∧ removeEntry (VStr "") w' = (Ret false, w')
  ∧ (next_rejects w' = false →
     ∃ x, fst (getEntryById (VStr "") w') = Ret x ∧ field x "id" = VStr "").
Proof.
  intros Hr Hid Hfree (e0 & Hr0 & _ & _ & _ & _ & _ & Hv)%saveEntry_true.
  rewrite Hr in Hr0. injection Hr0 as <-.
  cbv zeta in Hv. rewrite Hid, Hfree, Hid in Hv.
  split; [done|]. split; [by rewrite removeEntry_run|].
  intros Hrej. rewrite getEntryById_run. cbn [fst].
  assert (read w' = stored w') as -> by (unfold read; by rewrite Hrej).
  destruct (find_some_true _ _ Hv) as [x Hx]. rewrite Hx.
  pose proof Hx as (Hp & l1 & l2 & Hl & _)%find_first.
  assert (valid x = true) as Hvx.
  { pose proof (stored_valid w') as Hall. rewrite Forall_forall in Hall.
    apply Hall. rewrite Hl. apply elem_of_app. right. by left. }
  destruct (valid_record x Hvx) as [m ->].
  exists (VObj m). split; [done | by apply has_id_eq].
Qed.

Lemma empty_id_stays_witness :
  let w := world_of (Some (encoded [sample "a" 10])) [sample "" 20] [] [] in
  some (has_id (VStr "")) (stored (snd (saveEntry 0 w))) = true
  ∧ removeEntry (VStr "") (snd (saveEntry 0 w))
    = (Ret false, snd (saveEntry 0 w)).
Proof.
  intros w.
  destruct (empty_id_stays 0 w (snd (saveEntry 0 w)) (sample "" 20))
    as (H1 & H2 & _); [vm_compute; reflexivity..|].
  split; [exact H1 | exact H2].
Defined.

(** ** How the operations compose *)

Lemma read_empty w : stored w = [] → read w = [].
Proof. unfold read. intros ->. by destruct (next_rejects w). Qed.

Lemma clearAllEntries_true w w' :
  clearAllEntries w = (Ret true, w') → stored w' = [].
Proof.
  rewrite clearAllEntries_run. cbv zeta.
  destruct (next_rejects w); [done|]. intros [= _ <-].
  unfold stored. simpl. by rewrite lookup_delete_eq.
Qed.

(** X21: after a [clearAllEntries] that returned [true] the store behaves
    as an empty one: [getEntries] returns the empty array, the count is
    zero, [getEntryById] returns [null] for every identifier, and
    [removeEntry] and [updateEntry] return [false] without writing. *)
Theorem after_clearAllEntries (w w' : world) (id updatedEntry : value) :
  clearAllEntries w = (Ret true, w') →
  fst (getEntries w') = Ret []
  ∧ fst (getEntryCount w') = Ret O
  ∧ fst (getEntryById id w') = Ret VNull
  ∧ (fst (removeEntry id w') = Ret false
     ∧ storage (snd (removeEntry id w')) = storage w')
  ∧ (fst (updateEntry updatedEntry w') = Ret false
     ∧ storage (snd (updateEntry updatedEntry w')) = storage w').
Proof.
  intros Hst%clearAllEntries_true. apply read_empty in Hst.
  rewrite getEntries_run, getEntryCount_run, getEntryById_run,
    removeEntry_run, updateEntry_run, Hst. cbv zeta. cbn [fst snd length].
  split; [done|]. split; [done|]. split; [done|]. split.
  - by destruct (negb (truthy id) || _).
  - by destruct (negb (valid updatedEntry)).
Qed.

Lemma after_clearAllEntries_witness :
  fst (getEntryCount (snd (clearAllEntries two_stored))) = Ret O
  ∧ fst (getEntryById (VStr "a") (snd (clearAllEntries two_stored)))
    = Ret VNull.
Proof.
  destruct (after_clearAllEntries two_stored
              (snd (clearAllEntries two_stored)) (VStr "a") VNull)
    as (_ & H1 & H2 & _); [vm_compute; reflexivity|].
  split; [exact H1 | exact H2].
Defined.

(** X22: the count follows the other operations, called in sequence
    between two counts whose reads are not rejected.  After a successful
    [updateEntry] the count is what it was; after a successful
    [removeEntry] on canonical entries it is less by the number of entries
    that had the identifier; after a successful [saveEntry] it is one more
    than before when the first read of [saveEntry] was not rejected, and
    it is one, whatever it was before, when that read was rejected. *)
Theorem getEntryCount_follows (entry : nat) (updatedEntry id : value)
  (w w1 w2 : world) (n : nat) :
  getEntryCount w = (Ret n, w1) →
  next_rejects w = false → next_rejects w2 = false →
  (saveEntry entry w1 = (Ret true, w2) →
     (next_rejects w1 = false → fst (getEntryCount w2) = Ret (S n))
     ∧ (next_rejects w1 = true → fst (getEntryCount w2) = Ret 1%nat))
  ∧ (updateEntry updatedEntry w1 = (Ret true, w2) →
     fst (getEntryCount w2) = Ret n)
  ∧ (removeEntry id w1 = (Ret true, w2) → canonical w →
     ∃ k, fst (getEntryCount w2) = Ret k
          ∧ n = (k + length (filterA (has_id id) (stored w)))%nat).
Proof.
  rewrite !getEntryCount_run. intros [= <- <-] Hrej Hrej2. cbn [fst].
  assert (read w = stored w) as -> by (unfold read; by rewrite Hrej).
  assert (read w2 = stored w2) as -> by (unfold read; by rewrite Hrej2).
  set (w1 := called (GetItem StorageKeys_ENTRIES) w).
  assert (stored w1 = stored w) as Hw1 by done.
  split; [|split].
  - intros (e & e' & _ & _ & _ & _ & _ & -> & _)%saveEntry_ids.
    rewrite sort_length, length_map, length_app. cbn [length].
    unfold read. rewrite Hw1.
    split; intros ->; f_equal; simpl; lia.
  - intros (i & _ & _ & Hi & Hst & _ & _ & _ & Hv)%updateEntry_true.
    assert (storage w2 !! StorageKeys_ENTRIES
            = Some (encoded (<[i := updatedEntry]> (stored w1))))
      as Hk by (rewrite Hst; apply lookup_insert_eq).
    destruct (stored_encoded_some _ _ _ Hk Hv) as [_ ->].
    by rewrite sort_length, length_map, length_insert.
  - intros (_ & _ & Hst & _)%removeEntry_true Hc. cbv zeta in Hst.
    exists (length (stored w2)). split; [done|].
    assert (canonical w1) as Hc1 by done.
    assert (stored w2 = filterA (λ e, negb (has_id id e)) (stored w1)) as ->.
    { rewrite <- (stored_filtered _ w1 (storage w1) w1 Hc1).
      unfold stored. simpl. by rewrite Hst. }
    rewrite Hw1.
    pose proof (filter_length_split (has_id id) (stored w)).
    unfold filterA in *. lia.
Qed.

Lemma getEntryCount_follows_witness :
  let w := with_faults [false; true] crowded in
  let w1 := snd (getEntryCount w) in
  let w2 := snd (saveEntry 0 w1) in
  fst (getEntryCount w) = Ret 2%nat
  ∧ fst (saveEntry 0 w1) = Ret true
  ∧ fst (getEntryCount w2) = Ret 1%nat
  ∧ fst (getEntryCount (snd (saveEntry 0 (snd (getEntryCount crowded)))))
    = Ret 3%nat.
Proof.
  intros w w1 w2.
  destruct (getEntryCount_follows 0 VNull VNull w w1 w2 2
              ltac:(vm_compute; reflexivity) eq_refl
              ltac:(vm_compute; reflexivity)) as (Hs & _).
  destruct (Hs ltac:(vm_compute; reflexivity)) as [_ H1].
  destruct (getEntryCount_follows 0 VNull VNull crowded
              (snd (getEntryCount crowded))
              (snd (saveEntry 0 (snd (getEntryCount crowded)))) 2
              ltac:(vm_compute; reflexivity) eq_refl
              ltac:(vm_compute; reflexivity)) as (Hs' & _).
  destruct (Hs' ltac:(vm_compute; reflexivity)) as [H2 _].
  split; [vm_compute; reflexivity|]. split; [vm_compute; reflexivity|].
  split; [exact (H1 eq_refl) | exact (H2 eq_refl)].
Defined.

Lemma NoDup_ids_inj l x y :
  NoDup (ids l) → x ∈ l → y ∈ l → field x "id" = field y "id" → x = y.
Proof.
  induction l as [|a l IH]; simpl; [by intros _ ?%elem_of_nil|].
  intros [Ha Hl]%NoDup_cons [->|Hx]%elem_of_cons [->|Hy]%elem_of_cons Hid;
    [done| | |by apply IH].
  - destruct Ha. rewrite Hid. apply list_elem_of_In, in_map_iff.
    exists y. by rewrite <- list_elem_of_In.
  - destruct Ha. rewrite <- Hid. apply list_elem_of_In, in_map_iff.
    exists x. by rewrite <- list_elem_of_In.
Qed.

(** X23: when the stored identifiers are pairwise distinct, fetching by the
    identifier of an entry that has just been updated with success returns
    that entry as it reads back from the text, whatever fields the update
    changed. *)
Theorem updateEntry_getEntryById (updatedEntry : value) (w w' : world) :
  NoDup (ids (stored w)) →
  updateEntry updatedEntry w = (Ret true, w') →
  next_rejects w' = false →
  fst (getEntryById (field updatedEntry "id") w')
  = Ret (reparse updatedEntry).
Proof.
  intros Hnd Hrun Hrej.
  pose proof (updateEntry_NoDup _ _ _ Hnd Hrun) as Hnd'.
  apply updateEntry_true in Hrun
    as (i & Hu & _ & Hi & Hst & _ & _ & _ & Hv).
  assert (storage w' !! StorageKeys_ENTRIES
          = Some (encoded (<[i := updatedEntry]> (stored w))))
    as Hk by (rewrite Hst; apply lookup_insert_eq).
  destruct (stored_encoded_some _ _ _ Hk Hv) as [Hall Hstored].
  destruct (findIndex_Some _ _ _ Hi) as (x & Hx & _).
  assert (valid (reparse updatedEntry) = true) as Hvr.
  { eapply forallb_valid_insert; [|exact Hall]. by eapply lookup_lt_Some. }
  assert (reparse updatedEntry ∈ stored w') as Hin.
  { rewrite Hstored, sort_perm, map_insert. apply list_elem_of_lookup.
    exists i. apply list_lookup_insert_eq. rewrite length_map.
    by eapply lookup_lt_Some. }
  rewrite getEntryById_run. unfold read. rewrite Hrej. cbn [fst].
  rewrite (find_unique _ (stored w') _ (reparse updatedEntry)); [|done..| |].
  - destruct (valid_record _ Hvr) as [m ->]. reflexivity.
  - rewrite valid_reparse_has_id by done. by apply has_id_self.
  - intros y Hy Hid. apply (NoDup_ids_inj (stored w')); [done..|].
    apply has_id_eq in Hid. rewrite Hid. symmetry.
    by apply valid_reparse_id.
Qed.

Lemma updateEntry_getEntryById_witness :
  fst (getEntryById (VStr "b")
         (snd (updateEntry (having "title" (VStr "Porto") (sample "b" 5))
                 two_stored)))
  = Ret (having "title" (VStr "Porto") (sample "b" 5)).
Proof.
  apply (updateEntry_getEntryById
           (having "title" (VStr "Porto") (sample "b" 5)) two_stored).
  - assert (ids (stored two_stored) = [VStr "b"; VStr "a"]) as ->
      by (vm_compute; reflexivity).
    apply NoDup_cons. split.
    + intros H. apply list_elem_of_singleton in H. discriminate H.
    + apply NoDup_singleton.
  - vm_compute; reflexivity.
  - vm_compute; reflexivity.
Defined.

(** X24: a second [removeEntry] at the same identifier, after one that
    returned [true], returns [false] and writes nothing. *)
Theorem removeEntry_twice (id : value) (w w' : world) :
  removeEntry id w = (Ret true, w') →
  fst (removeEntry id w') = Ret false
  ∧ storage (snd (removeEntry id w')) = storage w'.
Proof.
  intros Hgone%removeEntry_gone.
  by destruct (removeEntry_false id w' Hgone) as [-> | ->].
Qed.

Lemma removeEntry_twice_witness :
  fst (removeEntry (VStr "a") (snd (removeEntry (VStr "a") shared_id)))
  = Ret false.
Proof.
  apply (removeEntry_twice (VStr "a") shared_id). vm_compute; reflexivity.
Defined.

(** ** The same object, inserted twice *)

(** X25: [saveEntry] does not recognise an object it has stored: called a
    second time on the same object, with its first read not rejected, it
    finds the identifier taken by the copy stored before, gives the object
    a generated identifier and stores it again; after the two successful
    calls the collection has two entries more than the first call read. *)
Theorem saveEntry_same_object_twice (entry : nat) (w w1 w2 : world) :
  saveEntry entry w = (Ret true, w1) →
  next_rejects w1 = false →
  saveEntry entry w1 = (Ret true, w2) →
  ∃ e1, heap w1 !! entry = Some e1
        ∧ heap w2 !! entry = Some (set e1 "id" (generated_id w1))
        ∧ length (stored w2) = S (S (length (read w))).
Proof.
  intros Hone Hrej Htwo.
  pose proof Hone
    as (e & e1 & He & He1 & _ & Hdef & _ & Hst1 & _)%saveEntry_ids.
  apply saveEntry_true in Hone as (e' & He' & _ & _ & _ & _ & _ & Hin).
  rewrite He in He'. injection He' as <-.
  cbv zeta in Hin. rewrite <- Hdef in Hin.
  assert (read w1 = stored w1) as Hread by (unfold read; by rewrite Hrej).
  apply saveEntry_ids in Htwo
    as (e0 & e2 & He0 & He2 & _ & Heq & _ & Hst2 & _).
  rewrite He1 in He0. injection He0 as <-.
  rewrite Hread, Hin in Heq. subst e2.
  exists e1. split; [done|]. split; [done|].
  rewrite Hst2, sort_length, length_map, length_app, Hread, Hst1.
  rewrite sort_length, length_map, length_app. simpl. lia.
Qed.

Lemma saveEntry_same_object_twice_witness :
  ∃ e1, heap (snd (saveEntry 0 one_object)) !! 0%nat = Some e1
        ∧ heap (snd (saveEntry 0 (snd (saveEntry 0 one_object)))) !! 0%nat
          = Some (set e1 "id" (generated_id (snd (saveEntry 0 one_object))))
        ∧ length (stored (snd (saveEntry 0 (snd (saveEntry 0 one_object)))))
          = S (S (length (read one_object))).
Proof.
  apply (saveEntry_same_object_twice 0 one_object
           (snd (saveEntry 0 one_object))
           (snd (saveEntry 0 (snd (saveEntry 0 one_object)))));
    vm_compute; reflexivity.
Defined.

(** ** Storage calls and what else is touched *)

Lemma few_calls_intro (cs : list call) w w' :
  calls w' = (cs ++ calls w)%list →
  faults w' = drop (length cs) (faults w) →
  (length cs ≤ 3)%nat →
  Forall (λ c, key_of c = StorageKeys_ENTRIES) cs →
  few_calls w w'.
Proof. intros. by exists cs. Qed.

(** X26: every operation of the store makes at most three storage calls,
    all of them about the entries key, and each call takes one turn of the
    coming rejections; [removeEntry], [updateEntry] and [clearAllEntries]
    leave the callers' objects, the clock and the random numbers as they
    were. *)
Theorem storage_calls_bounded (w : world) (entry : nat)
  (updatedEntry id : value) :
  few_calls w (snd (saveEntry entry w))
  ∧ few_calls w (snd (getEntries w))
  ∧ few_calls w (snd (getEntryById id w))
  ∧ few_calls w (snd (removeEntry id w))
  ∧ few_calls w (snd (updateEntry updatedEntry w))
  ∧ few_calls w (snd (clearAllEntries w))
  ∧ few_calls w (snd (getEntryCount w))
  ∧ few_calls w (snd (debugStorage w))
  ∧ same_objects w (snd (removeEntry id w))
  ∧ same_objects w (snd (updateEntry updatedEntry w))
  ∧ same_objects w (snd (clearAllEntries w)).
Proof.
  assert (∀ w', calls w' = calls w → faults w' = faults w → few_calls w w')
    as H0.
  { intros w' ? ?.
    apply (few_calls_intro []); [done | done | simpl; lia | constructor]. }
  assert (∀ c1 w', calls w' = c1 :: calls w →
            faults w' = tail (faults w) →
            key_of c1 = StorageKeys_ENTRIES → few_calls w w') as H1.
  { intros c1 w' ? Hf ?. apply (few_calls_intro [c1]); [done| |simpl; lia|].
    - rewrite Hf. by destruct (faults w) as [|? [|? [|? ?]]].
    - by constructor. }
  assert (∀ c2 c1 w', calls w' = c2 :: c1 :: calls w →
            faults w' = tail (tail (faults w)) →
            key_of c1 = StorageKeys_ENTRIES →
            key_of c2 = StorageKeys_ENTRIES → few_calls w w') as H2.
  { intros c2 c1 w' ? Hf ? ?.
    apply (few_calls_intro [c2; c1]); [done| |simpl; lia|].
    - rewrite Hf. by destruct (faults w) as [|? [|? [|? ?]]].
    - by repeat constructor. }
  assert (∀ c3 c2 c1 w', calls w' = c3 :: c2 :: c1 :: calls w →
            faults w' = tail (tail (tail (faults w))) →
            key_of c1 = StorageKeys_ENTRIES →
            key_of c2 = StorageKeys_ENTRIES →
            key_of c3 = StorageKeys_ENTRIES → few_calls w w') as H3.
  { intros c3 c2 c1 w' ? Hf ? ? ?.
    apply (few_calls_intro [c3; c2; c1]); [done| |simpl; lia|].
    - rewrite Hf. by destruct (faults w) as [|? [|? [|? ?]]].
    - by repeat constructor. }
  rewrite saveEntry_run, getEntries_run, getEntryById_run, removeEntry_run,
    updateEntry_run, clearAllEntries_run, getEntryCount_run, debugStorage_run.
  cbv zeta.
  split.
  { destruct (negb (valid _)); [by apply H0|].
    destruct (_ && is_frozen entry w); [by eapply H1|].
    destruct (some _ (read w)); (destruct (JSON_stringify _);
      [destruct (next_rejects _)|]);
      (by eapply H3) || (by eapply H2) || (by eapply H1). }
  split; [by eapply H1|]. split; [by eapply H1|].
  split.
  { destruct (negb (truthy id) || _); [by apply H0|].
    destruct (negb (some _ (read w))); [by eapply H1|].
    destruct (JSON_stringify _); [destruct (next_rejects _)|];
      (by eapply H3) || (by eapply H2) || (by eapply H1). }
  split.
  { destruct (negb (valid _)); [by apply H0|].
    destruct (findIndex _ _); [|by eapply H1].
    destruct (JSON_stringify _); [destruct (next_rejects _)|];
      (by eapply H3) || (by eapply H2) || (by eapply H1). }
  split.
  { destruct (next_rejects w); (by eapply H2) || (by eapply H1). }
  split; [by eapply H1|]. split; [by eapply H1|].
  split; [|split].
  - destruct (negb (truthy id) || _); [done|].
    destruct (negb (some _ (read w))); [done|].
    by destruct (JSON_stringify _); [destruct (next_rejects _)|].
  - destruct (negb (valid _)); [done|].
    destruct (findIndex _ _); [|done].
    by destruct (JSON_stringify _); [destruct (next_rejects _)|].
  - by destruct (next_rejects w).
Qed.

(** ** Rejected calls and the values returned *)

(** The write and the verification that end [saveEntry], when one of the
    two calls is rejected. *)
Lemma verification_rejected (p : value → bool) s v :
  rejects 0 v = true ∨ rejects 1 v = true →
  fst (let w3 := called (SetItem StorageKeys_ENTRIES s) v in
       if next_rejects v then (Ret false, w3) else
       let w4 :=
         with_storage (<[StorageKeys_ENTRIES := s]> (storage w3)) w3 in
       (Ret (some p (read w4)), called (GetItem StorageKeys_ENTRIES) w4))
  = Ret false.
Proof.
  intros H. cbv zeta. rewrite rejects_next.
  destruct (rejects 0 v); [done|]. destruct H as [H | H]; [done|].
  cbn [fst]. f_equal. rewrite read_rejected; [done|].
  by rewrite rejects_with_storage, rejects_called.
Qed.

Lemma saveEntry_rejected r w :
  rejects 1 w = true ∨ rejects 2 w = true → fst (saveEntry r w) = Ret false.
Proof.
  intros H. rewrite saveEntry_run. cbv zeta.
  destruct (negb (valid _)); [done|].
  destruct (_ && is_frozen r w); [done|].
  destruct (JSON_stringify _) as [s|x]; [|done].
  apply verification_rejected.
  destruct (some _ (read w)); by rewrite ?rejects_renamed, !rejects_called.
Qed.

Lemma removeEntry_rejected id w :
  rejects 0 w = true ∨ rejects 1 w = true → fst (removeEntry id w) = Ret false.
Proof.
  intros H. rewrite removeEntry_run. cbv zeta.
  destruct (negb (truthy id) || _); [done|].
  destruct (some (has_id id) (read w)) eqn:Hsome; [|done]. cbn [negb].
  destruct H as [H | H]; [by rewrite (read_rejected w H) in Hsome|].
  destruct (JSON_stringify _); [|done].
  by rewrite rejects_next, rejects_called, H.
Qed.

Lemma updateEntry_rejected u w :
  rejects 0 w = true ∨ rejects 1 w = true ∨ rejects 2 w = true →
  fst (updateEntry u w) = Ret false.
Proof.
  intros H. rewrite updateEntry_run. cbv zeta.
  destruct (negb (valid u)); [done|].
  destruct (findIndex _ (read w)) as [i|] eqn:Hi; [|done].
  destruct H as [H | H]; [by rewrite (read_rejected w H) in Hi|].
  destruct (JSON_stringify _); [|done].
  rewrite rejects_next, rejects_called.
  destruct H as [-> | H]; [done|].
  destruct (rejects 1 w); [done|]. cbn [fst]. f_equal.
  rewrite read_rejected; [done|].
  by rewrite rejects_with_storage, !rejects_called.
Qed.

Lemma clearAllEntries_result w :
  fst (clearAllEntries w) = Ret (negb (rejects 0 w)).
Proof.
  rewrite clearAllEntries_run. cbv zeta. rewrite rejects_next.
  destruct (rejects 0 w); [done|]. cbn [fst negb]. f_equal.
  rewrite read_empty; [done|]. unfold stored. simpl.
  by rewrite lookup_delete_eq.
Qed.

Lemma removeEntry_unverified s w :
  s ≠ "" → some (has_id (VStr s)) (stored w) = true →
  rejects 0 w = false → rejects 1 w = false →
  fst (removeEntry (VStr s) w) = Ret true.
Proof.
  intros Hs Hsome H0 H1. rewrite removeEntry_run.
  assert (truthy (VStr s) = true) as ->.
  { simpl. by destruct (String.eqb_spec s ""). }
  cbn [typeof negb orb]. rewrite String.eqb_refl. cbv zeta. cbn [negb].
  rewrite (read_accepted w H0), Hsome. cbn [negb].
  unfold JSON_stringify.
  rewrite existsb_filter by apply decode_no_bigint.
  rewrite rejects_next, rejects_called, H1.
  cbn [fst]. f_equal. apply negb_true_iff, read_none.
  eapply stored_filtered_gone. simpl. apply lookup_insert_eq.
Qed.

(** C4, as the code has it: every operation of the store returns a value,
    whatever its input, the storage and the storage calls that reject.
    What is thrown in the [try] block of the operation itself gives the
    safe value: [false], the empty array, [null] or zero.  A rejected read
    is caught inside [getEntries], and the operation that called it goes
    on with the empty array: the value is still the safe one when the
    first storage call of any operation but [saveEntry] is rejected, when
    the write of [saveEntry] or [removeEntry] is, when the verification
    read of [saveEntry] is, and when any call of [updateEntry] is; but
    [clearAllEntries] returns [true] as soon as its [removeItem] call is
    not rejected, and [removeEntry] returns [true] for a stored identifier
    as soon as its read and its write are not rejected, whether or not
    the verification read is. *)
Theorem operations_never_raise (w : world) (entry : nat)
  (updatedEntry id : value) :
  (∃ b w', saveEntry entry w = (Ret b, w')
           ∧ (throws (saveEntry_try entry) w = true → b = false))
  ∧ (∃ l w', getEntries w = (Ret l, w')
             ∧ (throws getEntries_try w = true → l = []))
  ∧ (∃ e w', getEntryById id w = (Ret e, w')
             ∧ (throws getEntries_try w = true → e = VNull))
  ∧ (∃ b w', removeEntry id w = (Ret b, w')
             ∧ (throws (removeEntry_try id) w = true → b = false))
  ∧ (∃ b w', updateEntry updatedEntry w = (Ret b, w')
             ∧ (throws (updateEntry_try updatedEntry) w = true → b = false))
  ∧ (∃ b w', clearAllEntries w = (Ret b, w')
             ∧ (throws clearAllEntries_try w = true → b = false))
  ∧ (∃ n w', getEntryCount w = (Ret n, w')
             ∧ (throws getEntries_try w = true → n = O))
  ∧ (∃ w', debugStorage w = (Ret tt, w'))
  ∧ (rejects 0 w = true →
       fst (getEntries w) = Ret []
       ∧ fst (getEntryById id w) = Ret VNull
       ∧ fst (getEntryCount w) = Ret O
       ∧ fst (removeEntry id w) = Ret false
       ∧ fst (updateEntry updatedEntry w) = Ret false
       ∧ fst (clearAllEntries w) = Ret false)
  ∧ (rejects 1 w = true →
       fst (saveEntry entry w) = Ret false
       ∧ fst (removeEntry id w) = Ret false
       ∧ fst (updateEntry updatedEntry w) = Ret false)
  ∧ (rejects 2 w = true →
       fst (saveEntry entry w) = Ret false
       ∧ fst (updateEntry updatedEntry w) = Ret false)
  ∧ (rejects 0 w = false → fst (clearAllEntries w) = Ret true)
  ∧ (∀ s, id = VStr s → s ≠ "" →
       some (has_id id) (stored w) = true →
       rejects 0 w = false → rejects 1 w = false →
       fst (removeEntry id w) = Ret true).
Proof.
  split; [apply try_catch_total|]. split; [apply try_catch_total|].
  split.
  { rewrite getEntryById_run. eexists _, _. split; [done|].
    by intros ->%getEntries_try_throws. }
  split; [apply try_catch_total|]. split; [apply try_catch_total|].
  split; [apply try_catch_total|].
  split.
  { rewrite getEntryCount_run. eexists _, _. split; [done|].
    by intros ->%getEntries_try_throws. }
  split; [rewrite debugStorage_run; by eexists|].
  split.
  { intros H0.
    rewrite getEntries_run, getEntryById_run, getEntryCount_run,
      (read_rejected w H0), clearAllEntries_result, H0.
    rewrite removeEntry_rejected, updateEntry_rejected by by left. done. }
  split.
  { intros H1. rewrite saveEntry_rejected by by left.
    rewrite removeEntry_rejected by by right.
    by rewrite updateEntry_rejected by (right; by left). }
  split.
  { intros H2. rewrite saveEntry_rejected by by right.
    by rewrite updateEntry_rejected by (right; by right). }
  split; [intros H0; by rewrite clearAllEntries_result, H0|].
  intros s -> Hs Hsome H0 H1. by apply removeEntry_unverified.
Qed.

Lemma operations_never_raise_witness :
  let w := with_faults [false; true]
             (world_of (Some (encoded [sample "a" 10])) [sample "b" 20] [] []) in
  let w1 := with_faults [true] w in
  let w2 := world_of (Some TextMalformed) [] [] [] in
  fst (saveEntry 0 w) = Ret false
  ∧ fst (removeEntry (VStr "a") w) = Ret false
  ∧ fst (updateEntry (sample "a" 30) w) = Ret false
  ∧ fst (clearAllEntries w1) = Ret false
  ∧ fst (getEntries w2) = Ret []
  ∧ fst (getEntryById (VStr "a") w1) = Ret VNull
  ∧ fst (getEntryCount w2) = Ret O
  ∧ fst (clearAllEntries w) = Ret true
  ∧ fst (removeEntry (VStr "a") (with_faults [false; false; true] w))
    = Ret true.
Proof.
  intros w w1 w2.
  destruct (operations_never_raise w 0 (sample "a" 30) (VStr "a"))
    as (_ & _ & _ & _ & _ & _ & _ & _ & _ & H1 & _ & Hc & _).
  destruct (H1 eq_refl) as (Hs & Hr & Hu).
  destruct (operations_never_raise w1 0 VNull (VStr "a"))
    as (_ & _ & _ & _ & _ & _ & _ & _ & H0 & _).
  destruct (H0 eq_refl) as (_ & Hg & _ & _ & _ & Hcl).
  destruct (operations_never_raise w2 0 VNull VNull)
    as (_ & (l & ? & Hl & H6) & _ & _ & _ & _ & (n & ? & Hn & H7) & _).
  destruct (operations_never_raise (with_faults [false; false; true] w) 0
              VNull (VStr "a")) as (_ & _ & _ & _ & _ & _ & _ & _ & _ & _ & _
                                    & _ & Hrm).
  split; [exact Hs|]. split; [exact Hr|]. split; [exact Hu|].
  split; [exact Hcl|].
  split; [rewrite Hl; cbn [fst]; f_equal; apply H6; vm_compute; reflexivity|].
  split; [exact Hg|].
  split; [rewrite Hn; cbn [fst]; f_equal; apply H7; vm_compute; reflexivity|].
  split; [exact (Hc eq_refl)|].
  apply (Hrm "a" eq_refl); [discriminate | vm_compute; reflexivity
                            | reflexivity | reflexivity].
Defined.

(** The safe value is not what comes back from every failure inside: with
    the verification read rejected, [removeEntry] and [clearAllEntries]
    return [true]; with its first read rejected, [saveEntry] returns
    [true] and the two entries that were stored are gone. *)
Lemma operations_safe_default_counterexample :
  let w1 := with_faults [false; false; true] two_stored in
  let w2 := with_faults [false; true] two_stored in
  let w3 := with_faults [true] crowded in
  (rejects 2 w1 = true
   ∧ fst (removeEntry (VStr "a") w1) = Ret true
   ∧ length (calls (snd (removeEntry (VStr "a") w1))) = 3%nat)
  ∧ (rejects 1 w2 = true
     ∧ fst (clearAllEntries w2) = Ret true
     ∧ calls (snd (clearAllEntries w2))
       = [GetItem StorageKeys_ENTRIES; RemoveItem StorageKeys_ENTRIES])
  ∧ (rejects 0 w3 = true
     ∧ fst (saveEntry 0 w3) = Ret true
     ∧ length (stored w3) = 2%nat
     ∧ stored (snd (saveEntry 0 w3)) = [sample "a" 10]).
Proof. vm_compute. repeat split; reflexivity. Qed.

(** ** The records that are persisted *)

Lemma persisted_encoded w l :
  storage w !! StorageKeys_ENTRIES = Some (encoded l) →
  persisted w = map reparse l.
Proof.
  unfold persisted. intros ->. simpl. by rewrite map_map.
Qed.

Lemma persisted_written l s w :
  persisted (with_storage (<[StorageKeys_ENTRIES := encoded l]> s) w)
  = map reparse l.
Proof. apply persisted_encoded. simpl. apply lookup_insert_eq. Qed.

Lemma persisted_storage w w' :
  storage w' !! StorageKeys_ENTRIES = storage w !! StorageKeys_ENTRIES →
  persisted w' = persisted w.
Proof. unfold persisted. by intros ->. Qed.

(** The collection that is read is the persisted one, sorted, when all of
    it passes the validator, and empty otherwise. *)
Lemma stored_persisted w :
  stored w = if forallb valid (persisted w)
             then sort newest_first (persisted w) else [].
Proof.
  unfold stored, decode, persisted.
  destruct (storage w !! StorageKeys_ENTRIES) as [[| |j]|]; try done.
  by destruct (of_json j).
Qed.

Lemma sound_valid w : sound w ↔ forallb valid (persisted w) = true.
Proof.
  unfold sound. rewrite forallb_Forall_valid. apply Forall_proper; [|done].
  intros e. rewrite validateEntry_valid. split; [by intros [= ->] | by intros ->].
Qed.

Lemma sound_storage w w' :
  storage w' !! StorageKeys_ENTRIES = storage w !! StorageKeys_ENTRIES →
  sound w → sound w'.
Proof. unfold sound. by intros ->%persisted_storage. Qed.

Lemma kept_storage w w' :
  storage w' !! StorageKeys_ENTRIES = storage w !! StorageKeys_ENTRIES →
  kept w → kept w'.
Proof.
  intros H [Hs Hc]. split; [by eapply sound_storage | by eapply canonical_storage].
Qed.

(** The text written for records that pass the validator when they are
    read back. *)
Lemma kept_written l s w :
  forallb valid (map reparse l) = true →
  kept (with_storage (<[StorageKeys_ENTRIES := encoded l]> s) w).
Proof.
  intros Hl. split.
  - apply sound_valid. by rewrite persisted_written.
  - eapply stored_canonical. simpl. apply lookup_insert_eq.
Qed.

Lemma kept_called c w : kept w → kept (called c w).
Proof. by apply kept_storage. Qed.

Lemma kept_read w : kept w → forallb valid (map reparse (read w)) = true.
Proof.
  intros [_ Hc]. rewrite map_reparse_canonical by by apply canonical_read.
  apply forallb_Forall_valid, read_valid.
Qed.

Lemma saveEntry_kept r w :
  kept w →
  (valid (default VUndefined (heap w !! r)) = true →
   finite_numbers (default VUndefined (heap w !! r)) = true) →
  kept (snd (saveEntry r w)).
Proof.
  intros Hk Hf. rewrite saveEntry_run. cbv zeta.
  destruct (valid _) eqn:Hv; [|done]. specialize (Hf eq_refl). cbn [negb].
  destruct (_ && is_frozen r w); [by eapply kept_storage|].
  set (e := default VUndefined (heap w !! r)) in *.
  set (e' := if some (has_id (field e "id")) (read w)
             then set e "id" (generated_id w) else e).
  assert (forallb valid (map reparse (read w ++ [e'])) = true) as Hall.
  { rewrite forallb_valid_app, kept_read by done.
    rewrite valid_reparse by by apply saveEntry_written_valid.
    unfold e'. destruct (some _ (read w)); [|done].
    unfold generated_id. by rewrite finite_numbers_set_id. }
  destruct (JSON_stringify _) as [s|x] eqn:Hs.
  - apply JSON_stringify_Ret in Hs as ->.
    destruct (next_rejects _).
    + cbn [snd]. apply kept_called.
      destruct (some _ (read w)); by eapply kept_storage.
    + cbn [snd]. apply kept_called. by apply kept_written.
  - cbn [snd]. destruct (some _ (read w)); by eapply kept_storage.
Qed.

Lemma updateEntry_kept u w :
  kept w → (valid u = true → finite_numbers u = true) →
  kept (snd (updateEntry u w)).
Proof.
  intros Hk Hf. rewrite updateEntry_run. cbv zeta.
  destruct (valid u) eqn:Hv; [|done]. specialize (Hf eq_refl). cbn [negb].
  destruct (findIndex _ _) as [i|]; [|by apply kept_called].
  destruct (JSON_stringify _) as [s|x] eqn:Hs; [|by apply kept_called].
  apply JSON_stringify_Ret in Hs as ->.
  destruct (next_rejects _); [by apply kept_called, kept_called|].
  cbn [snd]. apply kept_called, kept_written.
  rewrite map_insert. apply forallb_insert; [by apply kept_read|].
  by rewrite valid_reparse.
Qed.

Lemma removeEntry_kept id w : kept w → kept (snd (removeEntry id w)).
Proof.
  intros Hk. rewrite removeEntry_run. cbv zeta.
  destruct (negb (truthy id) || _); [done|].
  destruct (negb (some _ (read w))); [by apply kept_called|].
  destruct (JSON_stringify _) as [s|x] eqn:Hs; [|by apply kept_called].
  apply JSON_stringify_Ret in Hs as ->.
  destruct (next_rejects _); [by apply kept_called, kept_called|].
  cbn [snd]. apply kept_called, kept_written.
  by apply forallb_map_filter, kept_read.
Qed.

Lemma clearAllEntries_kept w : kept w → kept (snd (clearAllEntries w)).
Proof.
  intros Hk. rewrite clearAllEntries_run. cbv zeta.
  destruct (next_rejects w); [by apply kept_called|].
  cbn [snd]. apply kept_called. split.
  - unfold sound, persisted. simpl. rewrite lookup_delete_eq. constructor.
  - apply canonical_empty. unfold stored. simpl. by rewrite lookup_delete_eq.
Qed.

Lemma success_sound w l p :
  storage w !! StorageKeys_ENTRIES = Some (encoded l) →
  some p (stored w) = true → sound w.
Proof.
  intros Hk Hsome. destruct (stored_encoded_some _ _ _ Hk Hsome) as [Hall _].
  apply sound_valid. by rewrite (persisted_encoded _ _ Hk).
Qed.

(** C8, as the code has it: what [getEntries] returns passes the
    validator, whatever the storage holds; [saveEntry] and [updateEntry]
    given a value the validator rejects, such as a record without
    [latitude], return [false] and leave the world as it was, so no
    storage call is made.  The records persisted pass the validator after
    every [saveEntry] and [updateEntry] that returns [true]; and when they
    pass it and are canonical, they still do, and are, after any
    operation, provided that the entry given to [saveEntry] or
    [updateEntry], when the validator accepts it, has a finite latitude,
    longitude and creation time. *)
Theorem stored_entries_pass_validator (w : world) (entry : nat)
  (updatedEntry id : value) :
  (∃ l w', getEntries w = (Ret l, w')
           ∧ Forall (λ e, validateEntry e = Ret true) l)
  ∧ (validateEntry (default VUndefined (heap w !! entry)) ≠ Ret true →
       saveEntry entry w = (Ret false, w))
  ∧ (validateEntry updatedEntry ≠ Ret true →
       updateEntry updatedEntry w = (Ret false, w))
  ∧ (∀ m, validateEntry (VObj (delete "latitude" m)) = Ret false)
  ∧ (fst (saveEntry entry w) = Ret true → sound (snd (saveEntry entry w)))
  ∧ (fst (updateEntry updatedEntry w) = Ret true →
       sound (snd (updateEntry updatedEntry w)))
  ∧ (kept w →
       ((validateEntry (default VUndefined (heap w !! entry)) = Ret true →
         finite_numbers (default VUndefined (heap w !! entry)) = true) →
        kept (snd (saveEntry entry w)))
       ∧ ((validateEntry updatedEntry = Ret true →
           finite_numbers updatedEntry = true) →
          kept (snd (updateEntry updatedEntry w)))
       ∧ kept (snd (removeEntry id w))
       ∧ kept (snd (clearAllEntries w))
       ∧ kept (snd (getEntries w))
       ∧ kept (snd (getEntryById id w))
       ∧ kept (snd (getEntryCount w))
       ∧ kept (snd (debugStorage w))).
Proof.
  split.
  { exists (read w), (called (GetItem StorageKeys_ENTRIES) w).
    split; [apply getEntries_run | apply Forall_validateEntry, read_valid]. }
  split; [intros H; by apply saveEntry_invalid, not_valid|].
  split; [intros H; by apply updateEntry_invalid, not_valid|].
  split.
  { intros m. rewrite validateEntry_schema. f_equal.
    unfold schema, property. rewrite lookup_delete_eq. simpl.
    by rewrite !andb_false_r. }
  split.
  { destruct (saveEntry entry w) as [b w'] eqn:Hrun. cbn [fst snd].
    intros ->. apply saveEntry_true in Hrun as (e & _ & _ & _ & Hst & _ & _ & Hv).
    eapply success_sound; [|exact Hv]. rewrite Hst. apply lookup_insert_eq. }
  split.
  { destruct (updateEntry updatedEntry w) as [b w'] eqn:Hrun. cbn [fst snd].
    intros ->.
    apply updateEntry_true in Hrun as (i & _ & _ & _ & Hst & _ & _ & _ & Hv).
    eapply success_sound; [|exact Hv]. rewrite Hst. apply lookup_insert_eq. }
  intros Hk.
  split.
  { intros Hf. apply saveEntry_kept; [done|]. intros Hv. apply Hf.
    by rewrite validateEntry_valid, Hv. }
  split.
  { intros Hf. apply updateEntry_kept; [done|]. intros Hv. apply Hf.
    by rewrite validateEntry_valid, Hv. }
  split; [by apply removeEntry_kept|].
  split; [by apply clearAllEntries_kept|].
  rewrite getEntries_run, getEntryById_run, getEntryCount_run,
    debugStorage_run.
  repeat split; by apply kept_called.
Qed.

Lemma stored_entries_pass_validator_witness :
  let w := world_of (Some (encoded [sample "a" 10]))
             [lacking "latitude" (sample "b" 20)] [] [] in
  (saveEntry 0 w = (Ret false, w)
   ∧ updateEntry (lacking "latitude" (sample "a" 30)) w = (Ret false, w))
  ∧ (sound (snd (saveEntry 0 same_id_twice))
     ∧ kept (snd (saveEntry 0 (with_faults [false; false; true]
                                  same_id_twice)))
     ∧ kept (snd (updateEntry (sample "x" 7) same_id_twice))).
Proof.
  intros w.
  destruct (stored_entries_pass_validator w 0
              (lacking "latitude" (sample "a" 30)) VNull)
    as (_ & Hs & Hu & Hl & _).
  assert (kept same_id_twice) as Hk.
  { split; [|apply (stored_canonical _ [sample "x" 5]); reflexivity].
    unfold sound.
    assert (persisted same_id_twice = [sample "x" 5]) as ->
      by (vm_compute; reflexivity).
    by repeat constructor. }
  destruct (stored_entries_pass_validator same_id_twice 0 (sample "x" 7) VNull)
    as (_ & _ & _ & _ & Hsound & _ & Hkept).
  destruct (Hkept Hk) as (_ & Hku & _).
  destruct (stored_entries_pass_validator
              (with_faults [false; false; true] same_id_twice) 0 VNull VNull)
    as (_ & _ & _ & _ & _ & _ & Hkept').
  destruct (Hkept' Hk) as (Hks & _).
  split; [split|split; [|split]].
  - apply Hs. simpl. unfold sample, lacking. rewrite Hl. discriminate.
  - apply Hu. unfold sample, lacking. rewrite Hl. discriminate.
  - apply Hsound. vm_compute; reflexivity.
  - apply Hks. intros _. vm_compute; reflexivity.
  - apply Hku. intros _. vm_compute; reflexivity.
Defined.

(** The records persisted do not always pass the validator: the validator
    accepts an entry whose latitude is [NaN], [saveEntry] and
    [updateEntry] write it, as [null], and return [false]; the record
    persisted is one that the validator rejects, and the collection reads
    as empty. *)
Lemma persisted_rejected_counterexample :
  let w := world_of (Some (encoded [sample "a" 10])) [nowhere] [] [] in
  (map validateEntry (persisted w) = [Ret true]
   ∧ validateEntry nowhere = Ret true
   ∧ fst (saveEntry 0 w) = Ret false
   ∧ map validateEntry (persisted (snd (saveEntry 0 w)))
     = [Ret true; Ret false]
   ∧ ¬ sound (snd (saveEntry 0 w))
   ∧ stored (snd (saveEntry 0 w)) = [])
  ∧ (validateEntry adrift = Ret true
     ∧ fst (updateEntry adrift w) = Ret false
     ∧ map validateEntry (persisted (snd (updateEntry adrift w)))
       = [Ret false]
     ∧ ¬ sound (snd (updateEntry adrift w))).
Proof.
  intros w.
  assert (map validateEntry (persisted (snd (saveEntry 0 w)))
          = [Ret true; Ret false]) as Hs by (vm_compute; reflexivity).
  assert (map validateEntry (persisted (snd (updateEntry adrift w)))
          = [Ret false]) as Hu by (vm_compute; reflexivity).
  assert (∀ v l, map validateEntry (persisted v) = l → Ret false ∈ l →
                 ¬ sound v) as Hno.
  { intros v l <- Hin Hsound. unfold sound in Hsound.
    rewrite Forall_forall in Hsound.
    apply list_elem_of_In, in_map_iff in Hin as (x & Hx & Hin).
    apply list_elem_of_In, Hsound in Hin. congruence. }
  split; [split; [vm_compute; reflexivity|]|].
  - split; [vm_compute; reflexivity|]. split; [vm_compute; reflexivity|].
    split; [exact Hs|]. split; [|vm_compute; reflexivity].
    apply (Hno _ _ Hs). right. left.
  - split; [vm_compute; reflexivity|]. split; [vm_compute; reflexivity|].
    split; [exact Hu|]. apply (Hno _ _ Hu). left.
Qed.

(** * The permission requests *)

Lemma request_with_run m d :
  request_with m d =
    let d1 := Device (Platform_OS d) (tail (answers d))
                (GetPermissions m :: asked d) (alerts d) (links d) in
    match hd (Some undetermined) (answers d) with
    | None => (Throw (Error "rejected"), d1)
    | Some granted => (Ret granted, d1)
    | Some _ =>
        (match hd (Some undetermined) (tail (answers d)) with
         | Some status => Ret status
         | None => Throw (Error "rejected")
         end,
         Device (Platform_OS d) (tail (tail (answers d)))
           (RequestPermissions m :: GetPermissions m :: asked d)
           (alerts d) (links d))
    end.
Proof.
  unfold request_with, bindD, platform, retD. simpl.
  destruct (hd _ (answers d)) as [[]|]; simpl; try done;
    by destruct (hd _ (tail (answers d))).
Qed.

Lemma requester_run m : requester m = request_with m.
Proof. by destruct m. Qed.

(** X27: each of the four request functions queries its own module once;
    when the answer is [granted] it makes no request and returns
    [granted]; otherwise it makes exactly one request, to the same module,
    and returns the answer to it.  A rejected call is not caught: the
    function throws, after the query alone when that is the rejected one.
    No alert is shown and nothing is opened. *)
Theorem request_functions (m : permission_module) (d : device) :
  let r := fst (requester m d) in
  let d' := snd (requester m d) in
  (hd (Some undetermined) (answers d) = Some granted →
     r = Ret granted ∧ asked d' = GetPermissions m :: asked d)
  ∧ (∀ s, hd (Some undetermined) (answers d) = Some s → s ≠ granted →
       asked d' = RequestPermissions m :: GetPermissions m :: asked d
       ∧ ∀ s', hd (Some undetermined) (tail (answers d)) = Some s' →
               r = Ret s')
  ∧ (hd (Some undetermined) (answers d) = None →
       (∃ x, r = Throw x) ∧ asked d' = GetPermissions m :: asked d)
  ∧ (hd (Some undetermined) (tail (answers d)) = None →
       hd (Some undetermined) (answers d) ≠ Some granted → ∃ x, r = Throw x)
  ∧ alerts d' = alerts d ∧ links d' = links d
  ∧ Platform_OS d' = Platform_OS d.
Proof.
  cbv zeta. rewrite requester_run, request_with_run. cbv zeta.
  destruct (hd _ (answers d)) as [[]|];
    destruct (hd _ (tail (answers d))) as [s2|]; cbn [fst snd];
    repeat match goal with
           | |- _ ∧ _ => split
           | |- _ → _ => intro
           | |- ∀ _, _ => intro
           end; simplify_eq; try done; eauto.
Qed.

Lemma request_functions_witness :
  fst (requestCameraPermission refusing) = Ret denied
  ∧ asked (snd (requestCameraPermission refusing))
    = [RequestPermissions ImagePicker; GetPermissions ImagePicker].
Proof.
  destruct (request_functions ImagePicker refusing)
    as (_ & H & _). destruct (H undetermined eq_refl) as [H1 H2];
    [discriminate|].
  split; [exact (H2 denied eq_refl) | exact H1].
Defined.



